(** * sshconf: the parser, the serializer and the operations of
    [src/config.js], and the argument parser and mutating commands of
    [bin/sshconf.js], as a shallow embedding.

    JavaScript strings are sequences of UTF-16 code units; a host record is
    a JavaScript object, modelled by its list of own properties in the order
    [Object.entries] enumerates them; the backing file is an optional text,
    written and read as UTF-8. *)

From Stdlib Require Import List NArith Bool Lia String Ascii Arith DecimalN.
Import ListNotations.

(** ** Strings *)

Definition code_unit := N.
Definition jsstring := list code_unit.

(** A literal of the source, written as a Rocq string of ASCII characters. *)
Definition js (s : string) : jsstring :=
  map N_of_ascii (list_ascii_of_string s).

Fixpoint streq (a b : jsstring) : bool :=
  match a, b with
  | [], [] => true
  | x :: a', y :: b' => N.eqb x y && streq a' b'
  | _, _ => false
  end.

Definition LF : code_unit := 10%N.
Definition SP : code_unit := 32%N.
Definition HASH : code_unit := 35%N.

(** ECMAScript LineTerminator: LF, CR, U+2028, U+2029.  The regular
    expression atom [.] matches every code unit but these. *)
Definition is_line_terminator (c : code_unit) : bool :=
  (c =? 10)%N || (c =? 13)%N || (c =? 8232)%N || (c =? 8233)%N.

Definition dot (c : code_unit) : bool := negb (is_line_terminator c).

(** ECMAScript WhiteSpace and LineTerminator: what [\s] matches and what
    [String.prototype.trim] strips. *)
Definition is_space (c : code_unit) : bool :=
  ((9 <=? c)%N && (c <=? 13)%N) || (c =? 32)%N || (c =? 160)%N
  || (c =? 5760)%N || ((8192 <=? c)%N && (c <=? 8202)%N)
  || (c =? 8232)%N || (c =? 8233)%N || (c =? 8239)%N || (c =? 8287)%N
  || (c =? 12288)%N || (c =? 65279)%N.

(** [\w] without the unicode flag: [A-Za-z0-9_]. *)
Definition is_word (c : code_unit) : bool :=
  ((65 <=? c)%N && (c <=? 90)%N) || ((97 <=? c)%N && (c <=? 122)%N)
  || ((48 <=? c)%N && (c <=? 57)%N) || (c =? 95)%N.

Fixpoint dropwhile (p : code_unit -> bool) (s : jsstring) : jsstring :=
  match s with
  | [] => []
  | c :: s' => if p c then dropwhile p s' else s
  end.

(** [String.prototype.trim] *)
Definition trim (s : jsstring) : jsstring :=
  rev (dropwhile is_space (rev (dropwhile is_space s))).

(** [content.split('\n')]: never the empty list *)
Fixpoint split_lines (s : jsstring) : list jsstring :=
  match s with
  | [] => [[]]
  | c :: s' =>
      if (c =? LF)%N then [] :: split_lines s'
      else match split_lines s' with
           | l :: ls => (c :: l) :: ls
           | [] => [[c]]
           end
  end.

(** [lines.join('\n')] *)
Fixpoint join_lines (ls : list jsstring) : jsstring :=
  match ls with
  | [] => []
  | [l] => l
  | l :: ls' => l ++ LF :: join_lines ls'
  end.

(** [trimmed.startsWith('#')] *)
Definition starts_with_hash (s : jsstring) : bool :=
  match s with
  | c :: _ => (c =? HASH)%N
  | [] => false
  end.

(** Truthiness of a string: the empty string is the only falsy one. *)
Definition nonempty (s : jsstring) : bool :=
  match s with [] => false | _ => true end.

(** ** The two regular expressions

    Both patterns of [parse] are anchored sequences of character classes,
    some under [+], some captured.  [exec] is the backtracking matcher of
    the language for this fragment: [+] is greedy and gives characters back
    one at a time, a capture records what its group matched last. *)

Inductive atom : Type :=
| Lit (p : code_unit -> bool)      (* one character of the class *)
| Many (p : code_unit -> bool)     (* class+, not captured *)
| Cap (p : code_unit -> bool).     (* (class+), captured *)

Fixpoint plus {A : Type} (p : code_unit -> bool)
    (k : jsstring -> jsstring -> option A) (acc s : jsstring) : option A :=
  match s with
  | [] => None
  | c :: s' =>
      if p c then
        match plus p k (acc ++ [c]) s' with
        | Some r => Some r
        | None => k (acc ++ [c]) s'
        end
      else None
  end.

Fixpoint exec (r : list atom) (caps : list jsstring) (s : jsstring)
  : option (list jsstring) :=
  match r with
  | [] => match s with [] => Some caps | _ :: _ => None end
  | Lit p :: r' =>
      match s with
      | c :: s' => if p c then exec r' caps s' else None
      | [] => None
      end
  | Many p :: r' => plus p (fun _ rest => exec r' caps rest) [] s
  | Cap p :: r' => plus p (fun m rest => exec r' (caps ++ [m]) rest) [] s
  end.

(** A literal letter under the [i] flag (no unicode flag): only the two
    ASCII cases canonicalize to the same code unit. *)
Definition letter_i (upper lower : N) (c : code_unit) : bool :=
  (c =? upper)%N || (c =? lower)%N.

(** [/^Host\s+(.+)$/i] *)
Definition host_re : list atom :=
  [Lit (letter_i 72 104); Lit (letter_i 79 111); Lit (letter_i 83 115);
   Lit (letter_i 84 116); Many is_space; Cap dot].

(** [/^(\w+)\s+(.+)$/] *)
Definition opt_re : list atom := [Cap is_word; Many is_space; Cap dot].

(** [trimmed.match(host_re)], reduced to [hostMatch[1]] *)
Definition hostMatch (t : jsstring) : option jsstring :=
  match exec host_re [] t with
  | Some [n] => Some n
  | _ => None
  end.

(** [trimmed.match(opt_re)], reduced to [(optMatch[1], optMatch[2])] *)
Definition optMatch (t : jsstring) : option (jsstring * jsstring) :=
  match exec opt_re [] t with
  | Some [k; v] => Some (k, v)
  | _ => None
  end.

(** ** Objects

    An ordinary object whose property values are strings, as the list of
    its own properties in enumeration order: array-index keys first, in
    ascending numeric order, then the other keys in the order of their
    creation. *)

Definition obj := list (jsstring * jsstring).

Fixpoint decimal (acc : N) (s : jsstring) : N :=
  match s with
  | [] => acc
  | c :: s' => decimal (10 * acc + (c - 48))%N s'
  end.

Fixpoint uint_digits (u : Decimal.uint) : jsstring :=
  match u with
  | Decimal.Nil => []
  | Decimal.D0 u' => 48%N :: uint_digits u'
  | Decimal.D1 u' => 49%N :: uint_digits u'
  | Decimal.D2 u' => 50%N :: uint_digits u'
  | Decimal.D3 u' => 51%N :: uint_digits u'
  | Decimal.D4 u' => 52%N :: uint_digits u'
  | Decimal.D5 u' => 53%N :: uint_digits u'
  | Decimal.D6 u' => 54%N :: uint_digits u'
  | Decimal.D7 u' => 55%N :: uint_digits u'
  | Decimal.D8 u' => 56%N :: uint_digits u'
  | Decimal.D9 u' => 57%N :: uint_digits u'
  end.

(** [String(n)] for a non-negative integer below 2^53 *)
Definition to_decimal (n : N) : jsstring := uint_digits (N.to_uint n).

(** The array index a property key denotes, if any: the key is the
    canonical numeric string of an integer below 2^32 - 1. *)
Definition array_index (k : jsstring) : option N :=
  let n := decimal 0 k in
  if streq (to_decimal n) k && (n <? 4294967295)%N then Some n else None.

Fixpoint obj_get (o : obj) (k : jsstring) : option jsstring :=
  match o with
  | [] => None
  | (k', v) :: o' => if streq k' k then Some v else obj_get o' k
  end.

Definition obj_has (o : obj) (k : jsstring) : bool :=
  match obj_get o k with Some _ => true | None => false end.

Fixpoint obj_update (o : obj) (k v : jsstring) : obj :=
  match o with
  | [] => []
  | (k', v') :: o' =>
      if streq k' k then (k', v) :: o' else (k', v') :: obj_update o' k v
  end.

(** Creation of an array-index property: it is enumerated after the smaller
    indices and before everything else. *)
Fixpoint obj_insert_index (o : obj) (i : N) (k v : jsstring) : obj :=
  match o with
  | [] => [(k, v)]
  | (k', v') :: o' =>
      match array_index k' with
      | Some j => if (j <? i)%N then (k', v') :: obj_insert_index o' i k v
                  else (k, v) :: o
      | None => (k, v) :: o
      end
  end.

Definition PROTO : jsstring := js "__proto__".
Definition NAME : jsstring := js "name".

(** CreateDataProperty: what an object literal and a spread do for each
    property.  An existing key keeps its place. *)
Definition obj_define (o : obj) (k v : jsstring) : obj :=
  if obj_has o k then obj_update o k v
  else match array_index k with
       | Some i => obj_insert_index o i k v
       | None => o ++ [(k, v)]
       end.

(** [o[k] = v] for a string [v].  [__proto__] is the accessor inherited
    from [Object.prototype]: its setter ignores a value that is neither an
    object nor null, and no own property is created. *)
Definition obj_set (o : obj) (k v : jsstring) : obj :=
  if streq k PROTO then o else obj_define o k v.

(** [{ ...source }] *)
Definition spread (source : obj) : obj :=
  fold_left (fun acc kv => obj_define acc (fst kv) (snd kv)) source [].

Definition keys (o : obj) : list jsstring := map fst o.

(** ** parse *)

Record pstate : Type := mkState { hosts : list obj; current : option obj }.

Definition commit (st : pstate) : list obj :=
  match current st with
  | Some c => hosts st ++ [c]
  | None => hosts st
  end.

(** One iteration of the [for (const line of lines)] loop. *)
Definition step (st : pstate) (line : jsstring) : pstate :=
  let trimmed := trim line in
  if negb (nonempty trimmed) || starts_with_hash trimmed then st
  else
    match hostMatch trimmed with
    | Some n => mkState (commit st) (Some (obj_define [] NAME n))
    | None =>
        match current st with
        | Some c =>
            match optMatch trimmed with
            | Some (k, v) => mkState (hosts st) (Some (obj_set c k v))
            | None => st
            end
        | None => st
        end
    end.

Definition init : pstate := mkState [] None.

Definition parse_lines (ls : list jsstring) : pstate := fold_left step ls init.

Definition parse (content : jsstring) : list obj :=
  if negb (nonempty content) || negb (nonempty (trim content)) then []
  else commit (parse_lines (split_lines content)).

(** ** stringify *)

Definition UNDEFINED : jsstring := js "undefined".

(** [host.name] under string concatenation *)
Definition name_text (host : obj) : jsstring :=
  match obj_get host NAME with
  | Some n => n
  | None => UNDEFINED
  end.

Definition option_lines (host : obj) : list jsstring :=
  flat_map (fun kv => if streq (fst kv) NAME then []
                      else [js "    " ++ fst kv ++ js " " ++ snd kv]) host.

Definition host_lines (host : obj) : list jsstring :=
  (js "Host " ++ name_text host) :: option_lines host ++ [[]].

Definition stringify (hs : list obj) : jsstring :=
  join_lines (flat_map host_lines hs).

(** ** The backing file *)

(** The file holds bytes: [writeFileSync] encodes the string it is given
    as UTF-8, and [readFileSync(filePath, 'utf-8')] decodes the bytes.
    UTF-8 encodes code points.  A surrogate code unit that is not half of
    a pair, a high one followed by a low one, stands for no code point:
    the encoder writes U+FFFD in its place, and no decoder returns one.
    What comes back from the file is the string that
    [String.prototype.toWellFormed] gives for the string written. *)

Definition is_high_surrogate (c : code_unit) : bool :=
  (55296 <=? c)%N && (c <=? 56319)%N.

Definition is_low_surrogate (c : code_unit) : bool :=
  (56320 <=? c)%N && (c <=? 57343)%N.

Definition is_surrogate (c : code_unit) : bool :=
  is_high_surrogate c || is_low_surrogate c.

Definition REPLACEMENT : code_unit := 65533%N.

(** The text goes on with a low surrogate. *)
Definition low_next (s : jsstring) : bool :=
  match s with
  | d :: _ => is_low_surrogate d
  | [] => false
  end.

(** A low surrogate is kept when the code unit before it is a high one
    ([after_high]), a high surrogate when a low one follows it; every
    other surrogate becomes U+FFFD. *)
Fixpoint well_formed_from (after_high : bool) (s : jsstring) : jsstring :=
  match s with
  | [] => []
  | c :: s' =>
      (if is_low_surrogate c then (if after_high then c else REPLACEMENT)
       else if is_high_surrogate c
            then (if low_next s' then c else REPLACEMENT)
            else c)
      :: well_formed_from (is_high_surrogate c) s'
  end.

(** [String.prototype.toWellFormed], [String.prototype.isWellFormed] *)
Definition toWellFormed (s : jsstring) : jsstring := well_formed_from false s.

Definition isWellFormed (s : jsstring) : bool := streq (toWellFormed s) s.

(** The part of the file system the operations touch: whether [~/.ssh]
    exists, and the configuration file when there is one, held as the text
    its bytes decode to.  Writing stores the well-formed form of the string
    written.  Reading takes the text as a decoder returns it: a text with a
    lone surrogate, which no file decodes to, counts as its well-formed
    form.  Input and output failures are outside the model. *)
Record filesys : Type := mkFs { ssh_dir : bool; config : option jsstring }.

(** [fs.readFileSync(filePath, 'utf-8')], [None] when [fs.existsSync]
    answers false *)
Definition readFileSync (f : filesys) : option jsstring :=
  option_map toWellFormed (config f).

(** [fs.writeFileSync(filePath, content, { mode: 0o600 })] *)
Definition writeFileSync (content : jsstring) (f : filesys) : filesys :=
  mkFs (ssh_dir f) (Some (toWellFormed content)).

Definition ensureSSHDir (f : filesys) : filesys := mkFs true (config f).

Definition read (f : filesys) : list obj :=
  match readFileSync f with
  | None => []
  | Some content => parse content
  end.

Definition write (hs : list obj) (f : filesys) : filesys :=
  writeFileSync (stringify hs) (ensureSSHDir f).

(** ** Outcomes *)

Inductive result (A : Type) : Type :=
| Ok (a : A)                   (* { success: true, ... } *)
| Err (message : jsstring)     (* { success: false, message } *)
| Throw.                       (* an exception leaves the function *)
Arguments Ok {A} a.
Arguments Err {A} message.
Arguments Throw {A}.

Definition DuplicateError (n : jsstring) : jsstring :=
  js "Host already exists: " ++ n.
Definition NotFoundError (n : jsstring) : jsstring :=
  js "Host not found: " ++ n.
Definition DecodeError : jsstring := js "Invalid JSON".
Definition ShapeError : jsstring := js "Expected array of hosts".

(** ** add, edit, remove, copy, get, list *)

(** The [options] argument as [parseArgs] of [bin/sshconf.js] builds it:
    every field is a string or is undefined ([None]); [String] is the
    identity on strings. *)
Record options : Type := mkOptions {
  host : option jsstring;      HostName : option jsstring;
  user : option jsstring;      User : option jsstring;
  port : option jsstring;      Port : option jsstring;
  identity : option jsstring;  IdentityFile : option jsstring
}.

Definition truthy (x : option jsstring) : bool :=
  match x with
  | Some s => nonempty s
  | None => false
  end.

(** [a || b] *)
Definition or_else (a b : option jsstring) : option jsstring :=
  if truthy a then a else b.

(** [if (a || b) { o[key] = a || b; }] *)
Definition assign_field (o : obj) (key : jsstring) (a b : option jsstring)
  : obj :=
  match or_else a b with
  | Some s => if nonempty s then obj_set o key s else o
  | None => o
  end.

Definition K_HostName : jsstring := js "HostName".
Definition K_User : jsstring := js "User".
Definition K_Port : jsstring := js "Port".
Definition K_IdentityFile : jsstring := js "IdentityFile".

(** The four guarded assignments shared by [addHost] and [editHost]. *)
Definition apply_fields (o : obj) (opts : options) : obj :=
  let o1 := assign_field o K_HostName (host opts) (HostName opts) in
  let o2 := assign_field o1 K_User (user opts) (User opts) in
  let o3 := assign_field o2 K_Port (port opts) (Port opts) in
  assign_field o3 K_IdentityFile (identity opts) (IdentityFile opts).

(** [h => h.name === name] *)
Definition named (n : jsstring) (h : obj) : bool :=
  match obj_get h NAME with
  | Some m => streq m n
  | None => false
  end.

(** The element [find] returned is an element of the array: mutating it
    mutates the array at the first position that satisfies the predicate. *)
Fixpoint edit_first (p : obj -> bool) (f : obj -> obj) (hs : list obj)
  : list obj :=
  match hs with
  | [] => []
  | h :: hs' => if p h then f h :: hs' else h :: edit_first p f hs'
  end.

(** [hosts.findIndex(p)], [None] for -1 *)
Fixpoint findIndex (p : obj -> bool) (hs : list obj) : option nat :=
  match hs with
  | [] => None
  | h :: hs' => if p h then Some 0
                else match findIndex p hs' with
                     | Some i => Some (S i)
                     | None => None
                     end
  end.

(** [hosts.splice(index, 1)] *)
Definition splice1 (i : nat) (hs : list obj) : list obj :=
  firstn i hs ++ skipn (S i) hs.

Definition addHost (name : jsstring) (opts : options) (f : filesys)
  : result obj * filesys :=
  let hs := read f in
  match find (named name) hs with
  | Some _ => (Err (DuplicateError name), f)
  | None =>
      let h := apply_fields (obj_define [] NAME name) opts in
      (Ok h, write (hs ++ [h]) f)
  end.

Definition editHost (name : jsstring) (opts : options) (f : filesys)
  : result obj * filesys :=
  let hs := read f in
  match find (named name) hs with
  | None => (Err (NotFoundError name), f)
  | Some h =>
      (Ok (apply_fields h opts),
       write (edit_first (named name) (fun x => apply_fields x opts) hs) f)
  end.

Definition removeHost (name : jsstring) (f : filesys)
  : result unit * filesys :=
  let hs := read f in
  match findIndex (named name) hs with
  | None => (Err (NotFoundError name), f)
  | Some i => (Ok tt, write (splice1 i hs) f)
  end.

Definition getHost (name : jsstring) (f : filesys) : option obj :=
  find (named name) (read f).

Definition listHosts (f : filesys) : list (option jsstring) :=
  map (fun h => obj_get h NAME) (read f).

Definition copyHost (from to : jsstring) (f : filesys)
  : result obj * filesys :=
  let hs := read f in
  match find (named from) hs with
  | None => (Err (NotFoundError from), f)
  | Some source =>
      match find (named to) hs with
      | Some _ => (Err (DuplicateError to), f)
      | None =>
          let newHost := obj_define (spread source) NAME to in
          (Ok newHost, write (hs ++ [newHost]) f)
      end
  end.

(** ** import

    What [JSON.parse] returns: null, a boolean, a number (held as the text
    [String] gives for it), a string, an array, or an object as the list of
    its own properties in enumeration order. *)

#[warnings="-register-all"]
Inductive json : Type :=
| JNull
| JBool (b : bool)
| JNum (text : jsstring)
| JStr (s : jsstring)
| JArr (items : list json)
| JObj (props : list (jsstring * json)).

Fixpoint js_lookup (props : list (jsstring * json)) (k : jsstring)
  : option json :=
  match props with
  | [] => None
  | (k', v) :: props' => if streq k' k then Some v else js_lookup props' k
  end.

Definition COMMA : code_unit := 44%N.

(** The string a value becomes under [+] with a string; [None] when the
    conversion throws a TypeError.  An array joins its elements with
    commas, null elements giving the empty string; an object gives
    [[object Object]] unless an own property [toString], which cannot be
    callable here, hides the inherited method. *)
Fixpoint to_text (v : json) : option jsstring :=
  match v with
  | JNull => Some (js "null")
  | JBool true => Some (js "true")
  | JBool false => Some (js "false")
  | JNum t => Some t
  | JStr s => Some s
  | JArr items =>
      (fix join (l : list json) : option jsstring :=
         match l with
         | [] => Some []
         | x :: l' =>
             match (match x with JNull => Some [] | _ => to_text x end) with
             | None => None
             | Some a =>
                 match l' with
                 | [] => Some a
                 | _ :: _ =>
                     match join l' with
                     | Some b => Some (a ++ COMMA :: b)
                     | None => None
                     end
                 end
             end
         end) items
  | JObj props =>
      match js_lookup props (js "toString") with
      | Some _ => None
      | None => Some (js "[object Object]")
      end
  end.

(** [host.name] under ['Host ' + ...]; reading a property of null throws. *)
Definition name_text_json (h : json) : option jsstring :=
  match h with
  | JNull => None
  | JObj props =>
      match js_lookup props NAME with
      | Some v => to_text v
      | None => Some UNDEFINED
      end
  | _ => Some UNDEFINED
  end.

Fixpoint indexed {A : Type} (i : N) (l : list A) : list (jsstring * A) :=
  match l with
  | [] => []
  | x :: l' => (to_decimal i, x) :: indexed (N.succ i) l'
  end.

(** [Object.entries(host)] *)
Definition entries (h : json) : list (jsstring * json) :=
  match h with
  | JObj props => props
  | JArr items => indexed 0%N items
  | JStr s => indexed 0%N (map (fun c => JStr [c]) s)
  | _ => []
  end.

Fixpoint option_lines_json (es : list (jsstring * json))
  : option (list jsstring) :=
  match es with
  | [] => Some []
  | (k, v) :: es' =>
      if streq k NAME then option_lines_json es'
      else match to_text v, option_lines_json es' with
           | Some t, Some ls => Some ((js "    " ++ k ++ js " " ++ t) :: ls)
           | _, _ => None
           end
  end.

Definition host_lines_json (h : json) : option (list jsstring) :=
  match name_text_json h, option_lines_json (entries h) with
  | Some n, Some ls => Some ((js "Host " ++ n) :: ls ++ [[]])
  | _, _ => None
  end.

Fixpoint lines_json (hs : list json) : option (list jsstring) :=
  match hs with
  | [] => Some []
  | h :: hs' =>
      match host_lines_json h, lines_json hs' with
      | Some a, Some b => Some (a ++ b)
      | _, _ => None
      end
  end.

(** [stringify] on what [JSON.parse] returned; [None] when it throws. *)
Definition stringify_json (hs : list json) : option jsstring :=
  match lines_json hs with
  | Some ls => Some (join_lines ls)
  | None => None
  end.

(** A record of this program as a decoded value. *)
Definition record_json (o : obj) : json :=
  JObj (map (fun kv => (fst kv, JStr (snd kv))) o).

(** The body of [importConfig] once [JSON.parse] has returned a value or
    thrown ([None]).  [write] creates the directory before it serializes. *)
Definition import_decoded (decoded : option json) (f : filesys)
  : result nat * filesys :=
  match decoded with
  | None => (Err DecodeError, f)
  | Some (JArr hs) =>
      match stringify_json hs with
      | Some text => (Ok (List.length hs), writeFileSync text (ensureSSHDir f))
      | None => (Throw, ensureSSHDir f)
      end
  | Some _ => (Err ShapeError, f)
  end.

Section Decoder.
(** [JSON.parse], of the platform: [None] when it throws a SyntaxError. *)
Variable JSON_parse : jsstring -> option json.

Definition importConfig (data : jsstring) (f : filesys)
  : result nat * filesys :=
  import_decoded (JSON_parse data) f.
End Decoder.

(** [Array.isArray] *)
Definition is_array (v : json) : bool :=
  match v with
  | JArr _ => true
  | _ => false
  end.

Definition is_string (v : json) : bool :=
  match v with
  | JStr _ => true
  | _ => false
  end.

(** The spec's record-shaped entry, for which the code has no test: an
    object that holds a [name], all of whose properties are strings. *)
Definition record_shaped (v : json) : bool :=
  match v with
  | JObj props =>
      match js_lookup props NAME with
      | Some _ => forallb (fun kv => is_string (snd kv)) props
      | None => false
      end
  | _ => false
  end.

(** The spec's sequence of record-shaped entries. *)
Definition record_sequence (v : json) : bool :=
  match v with
  | JArr hs => forallb record_shaped hs
  | _ => false
  end.

(* ------------------------------------------------------------------ *)
(** * Shapes and specifications *)

(** ** Shapes of strings the parser produces *)

Definition head_ok (s : jsstring) : bool :=
  match s with
  | c :: _ => negb (is_space c)
  | [] => true
  end.

(** No white space at either end: what [trim] returns. *)
Definition tidy (s : jsstring) : bool := head_ok s && head_ok (rev s).

(** What [(.+)] captures at the end of a trimmed line, after a greedy
    [\s+]: a non-empty text without line terminators and without white
    space at either end. *)
Definition value_ok (v : jsstring) : bool :=
  nonempty v && forallb dot v && tidy v.

(** The key is, up to case, the keyword [Host]. *)
Definition hostlike (k : jsstring) : bool :=
  match k with
  | [a; b; c; d] =>
      letter_i 72 104 a && letter_i 79 111 b && letter_i 83 115 c
      && letter_i 84 116 d
  | _ => false
  end.

(** What [(\w+)] captures. *)
Definition word (k : jsstring) : bool := nonempty k && forallb is_word k.

Definition no_LF (l : jsstring) : Prop :=
  forallb (fun c => negb (c =? LF)%N) l = true.

(** The class [p] cannot take the next character of [s]. *)
Definition stops (p : code_unit -> bool) (s : jsstring) : bool :=
  match s with
  | [] => true
  | c :: _ => negb (p c)
  end.

(** [\s+(.+)$], the common tail of the two patterns *)
Definition tail_re : list atom := [Many is_space; Cap dot].

(** ** Shapes of records the parser produces *)

Definition index_above (i : N) (kv : jsstring * jsstring) : bool :=
  match array_index (fst kv) with
  | Some j => (i <? j)%N
  | None => false
  end.

Definition index_below (i : N) (kv : jsstring * jsstring) : bool :=
  match array_index (fst kv) with
  | Some j => (j <? i)%N
  | None => false
  end.

(** Array-index keys only, in strictly ascending order. *)
Fixpoint ascending (o : obj) : bool :=
  match o with
  | [] => true
  | kv :: o' =>
      match array_index (fst kv) with
      | Some i => forallb (index_above i) o' && ascending o'
      | None => false
      end
  end.

Definition plain (kv : jsstring * jsstring) : bool :=
  match array_index (fst kv) with
  | Some _ => false
  | None => true
  end.

Fixpoint distinct (o : obj) : bool :=
  match o with
  | [] => true
  | kv :: o' => negb (obj_has o' (fst kv)) && distinct o'
  end.

(** An option the parser recorded from a line [key value]. *)
Definition opt_ok (kv : jsstring * jsstring) : bool :=
  word (fst kv) && negb (hostlike (fst kv)) && negb (streq (fst kv) PROTO)
  && value_ok (snd kv).

(** The properties of a record in enumeration order: the array-index keys,
    then [name], the first key created, then the other keys. *)
Definition shaped (ints : obj) (n : jsstring) (strs : obj) : Prop :=
  ascending ints = true /\ value_ok n = true
  /\ forallb opt_ok ints = true /\ forallb opt_ok strs = true
  /\ forallb plain strs = true /\ distinct ((NAME, n) :: strs) = true.

Definition wf_record (o : obj) : Prop :=
  exists ints n strs, o = ints ++ (NAME, n) :: strs /\ shaped ints n strs.

(** The assignments the parser makes when it reads back the lines
    [stringify] wrote for a record. *)
Definition replay (acc : obj) (l : obj) : obj :=
  fold_left (fun c kv => if streq (fst kv) NAME then c
                         else obj_set c (fst kv) (snd kv)) l acc.

(** An index property created with index [i] is enumerated before [b]. *)
Definition stops_index (i : N) (b : obj) : bool :=
  match b with
  | [] => true
  | kv :: _ => negb (index_below i kv)
  end.

(** Creation of the properties of [l], in order, on top of [acc]. *)
Definition build (acc : obj) (l : obj) : obj :=
  fold_left (fun c kv => obj_define c (fst kv) (snd kv)) l acc.

(** No key of [l] is a key of [acc]. *)
Definition lacks (acc : obj) (l : obj) : bool :=
  forallb (fun kv => negb (obj_has acc (fst kv))) l.

Definition not_key (k : jsstring) (kv : jsstring * jsstring) : bool :=
  negb (streq (fst kv) k).

(** What the loop of [parse] maintains. *)
Definition pstate_wf (st : pstate) : Prop :=
  Forall wf_record (hosts st)
  /\ forall c, current st = Some c -> wf_record c.

(** ** The recognized fields of [add] and [edit] *)

Inductive field : Type := F_host | F_user | F_port | F_identity.

Definition all_fields : list field := [F_host; F_user; F_port; F_identity].

Definition field_key (fl : field) : jsstring :=
  match fl with
  | F_host => K_HostName
  | F_user => K_User
  | F_port => K_Port
  | F_identity => K_IdentityFile
  end.

(** The value the code reads for a field: [options.host || options.HostName]
    and so on. *)
Definition supplied (fl : field) (opts : options) : option jsstring :=
  match fl with
  | F_host => or_else (host opts) (HostName opts)
  | F_user => or_else (user opts) (User opts)
  | F_port => or_else (port opts) (Port opts)
  | F_identity => or_else (identity opts) (IdentityFile opts)
  end.

(** The fields whose assignment creates a property on [h]. *)
Definition created (h : obj) (opts : options) : list field :=
  filter (fun fl => truthy (supplied fl opts)
                    && negb (obj_has h (field_key fl))) all_fields.

(** [h'] is [h] with the supplied fields overwritten and nothing else
    touched: values of the other keys, and the order of the keys [h] had. *)
Definition partial_update (h h' : obj) (opts : options) : Prop :=
  (forall fl, obj_get h' (field_key fl)
              = if truthy (supplied fl opts) then supplied fl opts
                else obj_get h (field_key fl))
  /\ (forall k, (forall fl, k <> field_key fl) -> obj_get h' k = obj_get h k)
  /\ keys h' = keys h ++ map field_key (created h opts).

(** Every supplied value is a single line without white space around it:
    a value that the serializer writes and the parser reads back as it is. *)
Definition fields_ok (opts : options) : bool :=
  forallb (fun fl => match supplied fl opts with
                     | Some v => negb (nonempty v) || value_ok v
                     | None => true
                     end) all_fields.

(** ** Strings and records as the file holds them *)

Definition no_surrogate (s : jsstring) : bool :=
  forallb (fun c => negb (is_surrogate c)) s.

(** A record with every value in its well-formed form: what the file
    holds of a record in shape. *)
Definition stored (o : obj) : obj :=
  map (fun kv => (fst kv, toWellFormed (snd kv))) o.

Definition well_formed_record (o : obj) : bool :=
  forallb (fun kv => isWellFormed (snd kv)) o.

(** Every supplied value is well formed. *)
Definition fields_well_formed (opts : options) : bool :=
  forallb (fun fl => match supplied fl opts with
                     | Some v => isWellFormed v
                     | None => true
                     end) all_fields.

(** What the loop of [parse] maintains on a well-formed text. *)
Definition pstate_stored (st : pstate) : Prop :=
  Forall (fun o => stored o = o) (hosts st)
  /\ forall c, current st = Some c -> stored c = c.

(** ** A sample file *)

Definition sample_config : jsstring := js "Host a
    HostName 10.0.0.1
    User admin
    Port 22
    IdentityFile ~/.ssh/id_a

Host b
    User deploy
".

Definition sample_fs : filesys := mkFs true (Some sample_config).

Definition rec_a : obj :=
  [(NAME, js "a"); (K_HostName, js "10.0.0.1"); (K_User, js "admin");
   (K_Port, js "22"); (K_IdentityFile, js "~/.ssh/id_a")].

Definition rec_b : obj := [(NAME, js "b"); (K_User, js "deploy")].

Definition no_options : options :=
  mkOptions None None None None None None None None.

(** [{ port: '3333' }] *)
Definition port_3333 : options :=
  mkOptions None None None None (Some (js "3333")) None None None.

(** [{ host: '', user: 'root' }] *)
Definition user_root_host_empty : options :=
  mkOptions (Some []) None (Some (js "root")) None None None None None.

(** [{ identity: 'k\nHostName evil' }] *)
Definition identity_with_line_break : options :=
  mkOptions None None None None None None (Some (js "k
HostName evil")) None.


(** The run of [test.js]: add, edit, add, remove, from no file. *)
Definition test_newhost : options :=
  mkOptions (Some (js "10.0.0.1")) None (Some (js "admin")) None
            (Some (js "2222")) None None None.

Definition test_fs1 : filesys :=
  snd (addHost (js "newhost") test_newhost (mkFs false None)).

Definition test_fs2 : filesys :=
  snd (editHost (js "newhost") port_3333 test_fs1).

Definition test_fs3 : filesys :=
  snd (addHost (js "second")
         (mkOptions (Some (js "2.2.2.2")) None None None None None None None)
         test_fs2).

Definition test_fs4 : filesys := snd (removeHost (js "second") test_fs3).

(** ** Kinds of lines *)

(** The loop skips the line: blank, or a comment. *)
Definition is_skipped (line : jsstring) : bool :=
  negb (nonempty (trim line)) || starts_with_hash (trim line).

(** The line opens a record. *)
Definition is_host_line (line : jsstring) : bool :=
  negb (is_skipped line)
  && match hostMatch (trim line) with
     | Some _ => true
     | None => false
     end.

(** ** The shape of a record, decided *)

(** The leading array-index properties of an object, and the rest. *)
Fixpoint span_index (o : obj) : obj * obj :=
  match o with
  | [] => ([], [])
  | kv :: o' =>
      if plain kv then ([], o)
      else let (a, b) := span_index o' in (kv :: a, b)
  end.

(** [wf_record] as a test: array indices in ascending order, then [name]
    with a clean value, then the other keys, all different; every key of
    word characters, neither [__proto__] nor the keyword [Host]; every
    value clean. *)
Definition in_shape (o : obj) : bool :=
  let (ints, rest) := span_index o in
  match rest with
  | (k, n) :: strs =>
      streq k NAME && ascending ints && value_ok n
      && forallb opt_ok ints && forallb opt_ok strs
      && forallb plain strs && distinct ((NAME, n) :: strs)
  | [] => false
  end.

(** The record [add] builds, in closed form: the name, then the recognized
    fields with a truthy value, in the order of the four assignments. *)
Definition new_record (name : jsstring) (opts : options) : obj :=
  (NAME, name)
  :: flat_map (fun fl => match supplied fl opts with
                         | Some v => if nonempty v then [(field_key fl, v)]
                                     else []
                         | None => []
                         end) all_fields.

(** ** export *)

(** The text the [yaml] branch of [exportConfig] accumulates for a host. *)
Definition yaml_host (host : obj) : jsstring :=
  name_text host ++ js ":" ++ [LF]
  ++ flat_map (fun kv => if streq (fst kv) NAME then []
                         else js "  " ++ fst kv ++ js ": " ++ snd kv ++ [LF])
       host.

Definition yaml_text (hs : list obj) : jsstring := flat_map yaml_host hs.

Section Encoder.
(** [hosts => JSON.stringify(hosts, null, 2)], of the platform *)
Variable JSON_stringify : list obj -> jsstring.

Definition exportConfig (format : jsstring) (f : filesys) : jsstring :=
  let hs := read f in
  if streq format (js "json") then JSON_stringify hs
  else if streq format (js "yaml") then yaml_text hs
  else stringify hs.
End Encoder.

(** A pair of functions with the round-trip property assumed of the
    platform's JSON functions, for the checks: the native dialect standing
    in for the encoding. *)
Definition stand_in_encode (hs : list obj) : jsstring := stringify hs.
Definition stand_in_decode (t : jsstring) : option json :=
  Some (JArr (map record_json (parse t))).

(** ** backup

    [backup] touches two files, so the file system is here a map from
    paths to texts.  [now] is what [Date.now()] returns, an integer that
    [+] turns into its decimal numeral. *)
Definition store := jsstring -> option jsstring.

Definition backup_path (filePath : jsstring) (now : N) : jsstring :=
  filePath ++ js ".backup." ++ to_decimal now.

(** [fs.copyFileSync(src, dest)]: [dest] is created or overwritten. *)
Definition copy_file (content : jsstring) (dest : jsstring) (s : store)
  : store :=
  fun p => if streq p dest then Some content else s p.

Definition backup (now : N) (filePath : jsstring) (s : store)
  : result jsstring * store :=
  match s filePath with
  | None => (Err (js "Config file not found"), s)
  | Some content =>
      (Ok (backup_path filePath now),
       copy_file content (backup_path filePath now) s)
  end.

(** A store with the sample file at [/home/u/.ssh/config]. *)
Definition sample_path : jsstring := js "/home/u/.ssh/config".
Definition sample_store : store :=
  fun p => if streq p sample_path then Some sample_config else None.

(** ** The command line: [parseArgs] and the mutating commands of
    [bin/sshconf.js] *)

(** [{ options, positional }]; the [options] object holds the four fields
    under their lower-case spelling, and [format]. *)
Record parsed : Type := mkParsed {
  p_options : options;
  p_format : option jsstring;
  p_positional : list jsstring
}.

Definition DASH : code_unit := 45%N.

(** [arg.startsWith('-')] *)
Definition starts_with_dash (s : jsstring) : bool :=
  match s with
  | c :: _ => (c =? DASH)%N
  | [] => false
  end.

(** The field a flag sets: [--host] or [-h], and so on, in the order of
    the tests. *)
Definition flag_of (arg : jsstring) : option field :=
  if streq arg (js "--host") || streq arg (js "-h") then Some F_host
  else if streq arg (js "--user") || streq arg (js "-u") then Some F_user
  else if streq arg (js "--port") || streq arg (js "-p") then Some F_port
  else if streq arg (js "--identity") || streq arg (js "-i")
       then Some F_identity
  else None.

(** [options.host = v] and so on; [None] is undefined. *)
Definition set_lower (fl : field) (v : option jsstring) (o : options)
  : options :=
  match fl with
  | F_host => mkOptions v (HostName o) (user o) (User o) (port o) (Port o)
                        (identity o) (IdentityFile o)
  | F_user => mkOptions (host o) (HostName o) v (User o) (port o) (Port o)
                        (identity o) (IdentityFile o)
  | F_port => mkOptions (host o) (HostName o) (user o) (User o) v (Port o)
                        (identity o) (IdentityFile o)
  | F_identity => mkOptions (host o) (HostName o) (user o) (User o) (port o)
                            (Port o) v (IdentityFile o)
  end.

Definition set_option (fl : field) (v : option jsstring) (acc : parsed)
  : parsed :=
  mkParsed (set_lower fl v (p_options acc)) (p_format acc)
           (p_positional acc).

Definition set_format (fmt : jsstring) (acc : parsed) : parsed :=
  mkParsed (p_options acc) (Some fmt) (p_positional acc).

Definition push_positional (arg : jsstring) (acc : parsed) : parsed :=
  mkParsed (p_options acc) (p_format acc) (p_positional acc ++ [arg]).

(** The loop of [parseArgs] from index [i]: a value flag takes [args[++i]],
    which is undefined past the end. *)
Fixpoint parseArgs_from (args : list jsstring) (acc : parsed) : parsed :=
  match args with
  | [] => acc
  | arg :: rest =>
      match flag_of arg with
      | Some fl =>
          match rest with
          | v :: rest' => parseArgs_from rest' (set_option fl (Some v) acc)
          | [] => set_option fl None acc
          end
      | None =>
          if streq arg (js "--json")
          then parseArgs_from rest (set_format (js "json") acc)
          else if streq arg (js "--yaml")
          then parseArgs_from rest (set_format (js "yaml") acc)
          else if negb (starts_with_dash arg)
          then parseArgs_from rest (push_positional arg acc)
          else parseArgs_from rest acc
      end
  end.

Definition parseArgs (args : list jsstring) : parsed :=
  parseArgs_from args (mkParsed no_options None []).

(** The cases [add], [edit], [remove] and [copy] of [main], given
    [args.slice(1)]: the status the process ends with (1 after
    [process.exit(1)], 0 otherwise) and the file system.  [!name] holds for
    a missing and for an empty name. *)
Definition given (x : option jsstring) : option jsstring :=
  match x with
  | Some s => if nonempty s then Some s else None
  | None => None
  end.

Definition status {A : Type} (r : result A * filesys) : N * filesys :=
  match r with
  | (Ok _, f') => (0%N, f')
  | (_, f') => (1%N, f')
  end.

Definition cmd_add (args : list jsstring) (f : filesys) : N * filesys :=
  let p := parseArgs args in
  match given (nth_error (p_positional p) 0) with
  | None => (1%N, f)
  | Some name => status (addHost name (p_options p) f)
  end.

Definition cmd_edit (args : list jsstring) (f : filesys) : N * filesys :=
  let p := parseArgs args in
  match given (nth_error (p_positional p) 0) with
  | None => (1%N, f)
  | Some name => status (editHost name (p_options p) f)
  end.

Definition cmd_remove (args : list jsstring) (f : filesys) : N * filesys :=
  let p := parseArgs args in
  match given (nth_error (p_positional p) 0) with
  | None => (1%N, f)
  | Some name => status (removeHost name f)
  end.

Definition cmd_copy (args : list jsstring) (f : filesys) : N * filesys :=
  let p := parseArgs args in
  match given (nth_error (p_positional p) 0),
        given (nth_error (p_positional p) 1) with
  | Some from, Some to => status (copyHost from to f)
  | _, _ => (1%N, f)
  end.

(** *** Command lines, token by token *)

Inductive token : Type :=
| T_pos (x : jsstring)                              (* a bare word *)
| T_flag (fl : field) (short : bool) (v : jsstring) (* a flag and its value *)
| T_format (yaml : bool)                            (* --json or --yaml *)
| T_other (d : jsstring).                           (* any other dash word *)

Definition flag_name (fl : field) (short : bool) : jsstring :=
  match fl, short with
  | F_host, false => js "--host"
  | F_host, true => js "-h"
  | F_user, false => js "--user"
  | F_user, true => js "-u"
  | F_port, false => js "--port"
  | F_port, true => js "-p"
  | F_identity, false => js "--identity"
  | F_identity, true => js "-i"
  end.

Definition render (t : token) : list jsstring :=
  match t with
  | T_pos x => [x]
  | T_flag fl short v => [flag_name fl short; v]
  | T_format yaml => [if yaml then js "--yaml" else js "--json"]
  | T_other d => [d]
  end.

(** A bare word does not start with a dash; another dash word does, and is
    none of the ten the loop knows.  The value of a flag is any string. *)
Definition token_ok (t : token) : bool :=
  match t with
  | T_pos x => negb (starts_with_dash x)
  | T_other d =>
      starts_with_dash d
      && match flag_of d with Some _ => false | None => true end
      && negb (streq d (js "--json")) && negb (streq d (js "--yaml"))
  | _ => true
  end.

Definition field_eqb (a b : field) : bool :=
  match a, b with
  | F_host, F_host | F_user, F_user | F_port, F_port
  | F_identity, F_identity => true
  | _, _ => false
  end.

Definition positionals (toks : list token) : list jsstring :=
  flat_map (fun t => match t with T_pos x => [x] | _ => [] end) toks.

Definition flag_values (fl : field) (toks : list token) : list jsstring :=
  flat_map (fun t => match t with
                     | T_flag fl' _ v => if field_eqb fl fl' then [v] else []
                     | _ => []
                     end) toks.

Definition formats (toks : list token) : list jsstring :=
  flat_map (fun t => match t with
                     | T_format yaml => [if yaml then js "yaml" else js "json"]
                     | _ => []
                     end) toks.

Definition last_of {A : Type} (l : list A) : option A := hd_error (rev l).

Definition lower (fl : field) (o : options) : option jsstring :=
  match fl with
  | F_host => host o
  | F_user => user o
  | F_port => port o
  | F_identity => identity o
  end.

Definition upper (fl : field) (o : options) : option jsstring :=
  match fl with
  | F_host => HostName o
  | F_user => User o
  | F_port => Port o
  | F_identity => IdentityFile o
  end.

(** What a token does to the state of the loop. *)
Definition apply_token (acc : parsed) (t : token) : parsed :=
  match t with
  | T_pos x => push_positional x acc
  | T_flag fl _ v => set_option fl (Some v) acc
  | T_format yaml => set_format (if yaml then js "yaml" else js "json") acc
  | T_other _ => acc
  end.

(** The record a command line asks [add] to create: the first bare word,
    then, in the order of the fields, the last value given to each flag
    when it is not empty. *)
Definition record_of_tokens (name : jsstring) (toks : list token) : obj :=
  (NAME, name)
  :: flat_map (fun fl => match last_of (flag_values fl toks) with
                         | Some v => if nonempty v then [(field_key fl, v)]
                                     else []
                         | None => []
                         end) all_fields.

(* ------------------------------------------------------------------ *)
(** * Checks on concrete texts *)

(** The cases of [test.js], in its order. *)

Example parse_test_1 :
  parse (js "Host myserver
    HostName 192.168.1.100
    User root
    Port 22")
  = [[(NAME, js "myserver"); (js "HostName", js "192.168.1.100");
      (js "User", js "root"); (js "Port", js "22")]].
Proof. vm_compute. reflexivity. Qed.

Example parse_test_2 :
  parse (js "Host server1
    HostName 10.0.0.1
    User admin

Host server2
    HostName 10.0.0.2
    User deploy")
  = [[(NAME, js "server1"); (K_HostName, js "10.0.0.1");
      (K_User, js "admin")];
     [(NAME, js "server2"); (K_HostName, js "10.0.0.2");
      (K_User, js "deploy")]].
Proof. vm_compute. reflexivity. Qed.

Example parse_test_empty : parse [] = [].
Proof. reflexivity. Qed.

Example stringify_test :
  stringify [[(NAME, js "test"); (K_HostName, js "1.2.3.4");
              (K_User, js "user")]]
  = js "Host test
    HostName 1.2.3.4
    User user
".
Proof. vm_compute. reflexivity. Qed.

Example addHost_test :
  fst (addHost (js "newhost") test_newhost (mkFs false None))
  = Ok [(NAME, js "newhost"); (K_HostName, js "10.0.0.1");
        (K_User, js "admin"); (K_Port, js "2222")]
  /\ List.length (read test_fs1) = 1.
Proof. vm_compute. split; reflexivity. Qed.

Example editHost_test :
  getHost (js "newhost") test_fs2
  = Some [(NAME, js "newhost"); (K_HostName, js "10.0.0.1");
          (K_User, js "admin"); (K_Port, js "3333")].
Proof. vm_compute. reflexivity. Qed.

Example getHost_test_missing : getHost (js "nonexistent") test_fs2 = None.
Proof. vm_compute. reflexivity. Qed.

Example listHosts_test :
  listHosts test_fs3 = [Some (js "newhost"); Some (js "second")].
Proof. vm_compute. reflexivity. Qed.

Example removeHost_test :
  fst (removeHost (js "second") test_fs3) = Ok tt
  /\ getHost (js "second") test_fs4 = None
  /\ option_map (fun h => obj_get h K_IdentityFile)
       (getHost (js "newhost") test_fs4) = Some None.
Proof. vm_compute. repeat split; reflexivity. Qed.

(** Removing the middle record of three. *)
Example removeHost_middle :
  let f := mkFs true (Some (js "Host a
    User x
Host b
    User y
Host c
    User z")) in
  listHosts (snd (removeHost (js "b") f)) = [Some (js "a"); Some (js "c")].
Proof. vm_compute. reflexivity. Qed.

(** Keys the object treats in its own way: an array index is enumerated
    first, and an assignment to [__proto__] creates nothing. *)
Example parse_index_and_proto_keys :
  parse (js "Host a
    User u
    22 x
    __proto__ y
    3 z")
  = [[(js "3", js "z"); (js "22", js "x"); (NAME, js "a");
      (K_User, js "u")]].
Proof. vm_compute. reflexivity. Qed.

(** A key given twice: the last value, at the first place. *)
Example parse_repeated_key :
  parse (js "Host a
    User x
    Port 22
    User y")
  = [[(NAME, js "a"); (K_User, js "y"); (K_Port, js "22")]].
Proof. vm_compute. reflexivity. Qed.

Example array_index_examples :
  array_index (js "0") = Some 0%N /\ array_index (js "22") = Some 22%N
  /\ array_index (js "022") = None /\ array_index (js "Port") = None
  /\ array_index (js "4294967294") = Some 4294967294%N
  /\ array_index (js "4294967295") = None /\ array_index [] = None.
Proof. vm_compute. repeat split; reflexivity. Qed.

(* ------------------------------------------------------------------ *)
(** * Strings: equality, trimming, lines *)

Lemma streq_eq : forall a b, streq a b = true <-> a = b.
Proof.
  induction a as [|x a IH]; destruct b as [|y b]; simpl; split;
    try congruence; try (intros; reflexivity).
  - rewrite andb_true_iff, N.eqb_eq, IH. intros [-> ->]. reflexivity.
  - intros H. injection H as -> ->. rewrite N.eqb_refl.
    apply IH. reflexivity.
Qed.

Lemma streq_refl : forall a, streq a a = true.
Proof. intros a. apply streq_eq. reflexivity. Qed.

Lemma streq_neq : forall a b, streq a b = false <-> a <> b.
Proof.
  intros a b. rewrite <- streq_eq. destruct (streq a b); split; congruence.
Qed.

Lemma streq_sym : forall a b, streq a b = streq b a.
Proof.
  intros a b. destruct (streq a b) eqn:E.
  - apply streq_eq in E. subst. symmetry. apply streq_refl.
  - symmetry. apply streq_neq. apply streq_neq in E. congruence.
Qed.

Lemma dropwhile_app_all :
  forall p a s, forallb p a = true -> dropwhile p (a ++ s) = dropwhile p s.
Proof.
  induction a as [|c a IH]; simpl; intros s H; [reflexivity|].
  apply andb_true_iff in H as [-> H]. auto.
Qed.

Lemma dropwhile_head :
  forall p c s, p c = false -> dropwhile p (c :: s) = c :: s.
Proof. intros p c s H. simpl. rewrite H. reflexivity. Qed.

Lemma dropwhile_suffix :
  forall p s, exists a, s = a ++ dropwhile p s /\ forallb p a = true.
Proof.
  induction s as [|c s [a [E F]]]; simpl.
  - exists []. split; reflexivity.
  - destruct (p c) eqn:Pc.
    + exists (c :: a). simpl. rewrite Pc, F. split; [congruence | reflexivity].
    + exists []. split; reflexivity.
Qed.

Lemma dropwhile_head_fails :
  forall p s c s', dropwhile p s = c :: s' -> p c = false.
Proof.
  induction s as [|d s IH]; simpl; intros c s' H; [discriminate|].
  destruct (p d) eqn:Pd; [eauto|]. injection H as -> _. exact Pd.
Qed.

Lemma trim_tidy : forall s, tidy (trim s) = true.
Proof.
  intros s. unfold tidy, trim. rewrite rev_involutive.
  set (d := dropwhile is_space s).
  destruct (dropwhile_suffix is_space (rev d)) as [a [E _]].
  set (e := dropwhile is_space (rev d)) in *.
  apply andb_true_iff. split.
  - assert (D : d = rev e ++ rev a).
    { rewrite <- rev_app_distr, <- E, rev_involutive. reflexivity. }
    destruct (rev e) as [|c r] eqn:R; [reflexivity|]. simpl.
    simpl in D. subst d.
    rewrite (dropwhile_head_fails _ _ _ _ D). reflexivity.
  - destruct e as [|c e'] eqn:Ee; [reflexivity|]. simpl.
    unfold e in Ee. rewrite (dropwhile_head_fails _ _ _ _ Ee). reflexivity.
Qed.

Lemma head_ok_dropwhile :
  forall s, head_ok s = true -> dropwhile is_space s = s.
Proof.
  intros [|c s]; simpl; intros H; [reflexivity|].
  apply negb_true_iff in H. rewrite H. reflexivity.
Qed.

Lemma trim_id : forall s, tidy s = true -> trim s = s.
Proof.
  intros s H. unfold tidy in H. apply andb_true_iff in H as [H1 H2].
  unfold trim. rewrite (head_ok_dropwhile _ H1), (head_ok_dropwhile _ H2).
  apply rev_involutive.
Qed.

Lemma trim_pad :
  forall a s, forallb is_space a = true -> trim (a ++ s) = trim s.
Proof.
  intros a s H. unfold trim. rewrite dropwhile_app_all by exact H.
  reflexivity.
Qed.

Lemma tidy_app :
  forall a b, a <> [] -> b <> [] ->
  head_ok a = true -> head_ok (rev b) = true -> tidy (a ++ b) = true.
Proof.
  intros a b Ha Hb H1 H2. unfold tidy. apply andb_true_iff. split.
  - destruct a; [congruence | exact H1].
  - rewrite rev_app_distr. destruct (rev b) eqn:R; [|exact H2].
    apply (f_equal (@rev _)) in R. rewrite rev_involutive in R.
    simpl in R. congruence.
Qed.

(** ** [split] undoes [join] *)

Lemma split_lines_nonempty : forall s, split_lines s <> [].
Proof.
  induction s as [|c s IH]; simpl; [discriminate|].
  destruct (c =? LF)%N; [discriminate|].
  destruct (split_lines s); discriminate.
Qed.

Lemma split_lines_line :
  forall l rest, no_LF l ->
  split_lines (l ++ rest) =
    match split_lines rest with
    | r :: rs => (l ++ r) :: rs
    | [] => [l]
    end.
Proof.
  unfold no_LF. induction l as [|c l IH]; simpl; intros rest H.
  - pose proof (split_lines_nonempty rest) as Hne.
    destruct (split_lines rest); [congruence | reflexivity].
  - apply andb_true_iff in H as [Hc H]. apply negb_true_iff in Hc.
    rewrite Hc, (IH _ H). destruct (split_lines rest); reflexivity.
Qed.

Lemma split_lines_LF : forall s, split_lines (LF :: s) = [] :: split_lines s.
Proof. reflexivity. Qed.

Lemma split_join :
  forall ls, ls <> [] -> Forall no_LF ls ->
  split_lines (join_lines ls) = ls.
Proof.
  induction ls as [|l ls IH]; intros Hne HF; [congruence|].
  inversion HF as [|? ? Hl Hls]; subst.
  destruct ls as [|l' ls'].
  - simpl. rewrite <- (app_nil_r l) at 1.
    rewrite split_lines_line by exact Hl. simpl. rewrite app_nil_r.
    reflexivity.
  - change (join_lines (l :: l' :: ls'))
      with (l ++ LF :: join_lines (l' :: ls')).
    rewrite split_lines_line by exact Hl.
    rewrite split_lines_LF, IH by (try discriminate; assumption).
    rewrite app_nil_r. reflexivity.
Qed.

(* ------------------------------------------------------------------ *)
(** * The matcher *)

Section Plus.
Context {A : Type} (p : code_unit -> bool)
        (k : jsstring -> jsstring -> option A).

Lemma plus_stops :
  forall acc s, stops p s = true -> plus p k acc s = None.
Proof.
  intros acc [|c s]; simpl; intros H; [reflexivity|].
  apply negb_true_iff in H. rewrite H. reflexivity.
Qed.

Lemma plus_cons :
  forall acc c s,
  plus p k acc (c :: s) =
    if p c then
      match plus p k (acc ++ [c]) s with
      | Some r => Some r
      | None => k (acc ++ [c]) s
      end
    else None.
Proof. reflexivity. Qed.

(** A greedy [+] that can take all of [w] and no more, and whose
    continuation then succeeds, matches exactly [w]. *)
Lemma plus_maximal :
  forall w acc s r,
  w <> [] -> forallb p w = true -> stops p s = true ->
  k (acc ++ w) s = Some r -> plus p k acc (w ++ s) = Some r.
Proof.
  induction w as [|c w IH]; intros acc s r Hne Hp Hs Hk; [congruence|].
  simpl in Hp. apply andb_true_iff in Hp as [Hc Hp].
  simpl. rewrite Hc. destruct w as [|c' w'].
  - simpl. rewrite plus_stops by exact Hs. exact Hk.
  - rewrite (IH (acc ++ [c]) s r); try discriminate; auto.
    rewrite <- app_assoc. exact Hk.
Qed.

(** A successful [+] took some non-empty [a]; taking more had failed. *)
Lemma plus_sound :
  forall s acc r, plus p k acc s = Some r ->
  exists a b, s = a ++ b /\ a <> [] /\ forallb p a = true
              /\ k (acc ++ a) b = Some r
              /\ plus p k (acc ++ a) b = None.
Proof.
  induction s as [|c s IH]; simpl; intros acc r H; [discriminate|].
  destruct (p c) eqn:Pc; [|discriminate].
  destruct (plus p k (acc ++ [c]) s) as [r'|] eqn:E.
  - injection H as ->. destruct (IH _ _ E) as (a & b & -> & Ha & Fa & K & M).
    exists (c :: a), b. rewrite <- app_assoc in K, M.
    repeat split; auto; try discriminate. simpl. rewrite Pc. exact Fa.
  - exists [c], s. repeat split; auto; try discriminate.
    simpl. rewrite Pc. reflexivity.
Qed.
End Plus.

Lemma exec_cap_end_intro :
  forall p caps s, s <> [] -> forallb p s = true ->
  exec [Cap p] caps s = Some (caps ++ [s]).
Proof.
  intros p caps s Hne Hp. simpl.
  rewrite <- (app_nil_r s) at 1. apply plus_maximal; auto.
Qed.

Lemma exec_cap_end_elim :
  forall p caps s r, exec [Cap p] caps s = Some r ->
  s <> [] /\ forallb p s = true /\ r = caps ++ [s].
Proof.
  intros p caps s r H. simpl in H.
  apply plus_sound in H as (a & b & -> & Ha & Fa & K & _).
  destruct b; [|discriminate]. injection K as <-.
  rewrite app_nil_r. simpl. repeat split; auto.
Qed.

Lemma word_not_space : forall c, is_word c = true -> is_space c = false.
Proof.
  intros c H. unfold is_word in H. unfold is_space.
  repeat rewrite orb_true_iff in H. repeat rewrite andb_true_iff in H.
  repeat rewrite N.leb_le in H. rewrite N.eqb_eq in H.
  repeat rewrite orb_false_iff. repeat rewrite andb_false_iff.
  repeat rewrite N.leb_gt. repeat rewrite N.eqb_neq.
  repeat split; lia.
Qed.

Lemma exec_tail_intro :
  forall caps w v,
  w <> [] -> forallb is_space w = true ->
  v <> [] -> forallb dot v = true -> head_ok v = true ->
  exec tail_re caps (w ++ v) = Some (caps ++ [v]).
Proof.
  intros caps w v Hw Fw Hv Fv Hh. unfold tail_re.
  change (exec [Many is_space; Cap dot] caps (w ++ v))
    with (plus is_space (fun _ rest => exec [Cap dot] caps rest) [] (w ++ v)).
  apply plus_maximal; [assumption | assumption | |].
  - destruct v; [congruence | exact Hh].
  - simpl app. apply exec_cap_end_intro; auto.
Qed.

Lemma exec_tail_elim :
  forall caps s r, head_ok (rev s) = true ->
  exec tail_re caps s = Some r ->
  exists w v, s = w ++ v /\ w <> [] /\ forallb is_space w = true
              /\ v <> [] /\ forallb dot v = true /\ head_ok v = true
              /\ r = caps ++ [v].
Proof.
  intros caps s r Hlast H. unfold tail_re in H.
  change (exec [Many is_space; Cap dot] caps s)
    with (plus is_space (fun _ rest => exec [Cap dot] caps rest) [] s) in H.
  apply plus_sound in H as (w & v & -> & Hw & Fw & K & M).
  apply exec_cap_end_elim in K as (Hv & Fv & ->).
  exists w, v. repeat split; auto.
  destruct v as [|c v']; [congruence|]. simpl.
  destruct (is_space c) eqn:Sc; [|reflexivity]. exfalso.
  rewrite plus_cons, Sc in M. cbv beta in M.
  destruct v' as [|c' v''].
  - rewrite rev_app_distr in Hlast. simpl in Hlast. rewrite Sc in Hlast.
    discriminate.
  - simpl in Fv. apply andb_true_iff in Fv as [_ Fv].
    rewrite (exec_cap_end_intro dot caps (c' :: v'')) in M
      by (auto; discriminate).
    destruct (plus is_space _ _ _); discriminate.
Qed.

Lemma head_ok_rev_suffix :
  forall a b, head_ok (rev (a ++ b)) = true -> b <> [] ->
  head_ok (rev b) = true.
Proof.
  intros a b H Hb. rewrite rev_app_distr in H.
  destruct (rev b) as [|c r] eqn:R; [reflexivity | exact H].
Qed.

Lemma exec_host_re :
  forall t, exec host_re [] t =
    match t with
    | a :: b :: c :: d :: rest =>
        if hostlike [a; b; c; d] then exec tail_re [] rest else None
    | _ => None
    end.
Proof.
  intros [|a [|b [|c [|d rest]]]]; unfold host_re, hostlike; simpl;
    repeat match goal with
           | |- context [letter_i ?u ?l ?x] => destruct (letter_i u l x)
           end; reflexivity.
Qed.

Lemma value_ok_parts :
  forall v, value_ok v = true <->
  v <> [] /\ forallb dot v = true /\ head_ok v = true
  /\ head_ok (rev v) = true.
Proof.
  intros v. unfold value_ok, tidy.
  repeat rewrite andb_true_iff. destruct v; simpl; intuition congruence.
Qed.

Lemma hostMatch_intro :
  forall n, value_ok n = true -> hostMatch (js "Host " ++ n) = Some n.
Proof.
  intros n H. apply value_ok_parts in H as (Hn & Fn & Hh & _).
  unfold hostMatch. rewrite exec_host_re.
  change (js "Host " ++ n) with (72 :: 111 :: 115 :: 116 :: [SP] ++ n)%N.
  change (hostlike [72; 111; 115; 116]%N) with true. cbv iota.
  rewrite exec_tail_intro; auto; discriminate.
Qed.

Lemma hostMatch_elim :
  forall t n, tidy t = true -> hostMatch t = Some n -> value_ok n = true.
Proof.
  intros t n Ht H. unfold hostMatch in H. rewrite exec_host_re in H.
  destruct t as [|a [|b [|c [|d rest]]]]; try discriminate.
  destruct (hostlike [a; b; c; d]); [|discriminate].
  destruct (exec tail_re [] rest) as [r|] eqn:E; [|discriminate].
  unfold tidy in Ht. apply andb_true_iff in Ht as [_ Hl].
  assert (Hrest : rest <> []) by (intros ->; discriminate).
  change (a :: b :: c :: d :: rest) with ([a; b; c; d] ++ rest) in Hl.
  pose proof (head_ok_rev_suffix _ _ Hl Hrest) as Hl'.
  apply exec_tail_elim in E as (w & v & -> & Hw & Fw & Hv & Fv & Hh & ->);
    [|exact Hl'].
  simpl in H. injection H as <-.
  apply value_ok_parts. repeat split; auto.
  apply (head_ok_rev_suffix w v); auto.
Qed.

Lemma exec_opt_re :
  forall t, exec opt_re [] t =
    plus is_word (fun m rest => exec tail_re [m] rest) [] t.
Proof. reflexivity. Qed.

Lemma word_parts :
  forall k, word k = true <-> k <> [] /\ forallb is_word k = true.
Proof.
  intros k. unfold word. rewrite andb_true_iff.
  destruct k; simpl; intuition congruence.
Qed.

Lemma optMatch_intro :
  forall k v, word k = true -> value_ok v = true ->
  optMatch (k ++ SP :: v) = Some (k, v).
Proof.
  intros k v Hk Hv. apply word_parts in Hk as [Hne Fk].
  apply value_ok_parts in Hv as (Hn & Fn & Hh & _).
  unfold optMatch. rewrite exec_opt_re.
  rewrite (plus_maximal is_word _ k [] (SP :: v) [k; v]); auto.
  simpl app. change (SP :: v) with ([SP] ++ v).
  rewrite exec_tail_intro; auto; discriminate.
Qed.

Lemma optMatch_elim :
  forall t k v, tidy t = true -> optMatch t = Some (k, v) ->
  word k = true /\ value_ok v = true
  /\ exists w, t = k ++ w ++ v /\ w <> [] /\ forallb is_space w = true.
Proof.
  intros t k v Ht H. unfold optMatch in H. rewrite exec_opt_re in H.
  destruct (plus is_word _ [] t) as [r|] eqn:E; [|discriminate].
  apply plus_sound in E as (a & rest & -> & Ha & Fa & K & _).
  simpl app in K.
  unfold tidy in Ht. apply andb_true_iff in Ht as [_ Hl].
  assert (Hrest : rest <> []) by (intros ->; discriminate).
  pose proof (head_ok_rev_suffix _ _ Hl Hrest) as Hl'.
  apply exec_tail_elim in K as (w & u & -> & Hw & Fw & Hu & Fu & Hh & ->);
    [|exact Hl'].
  simpl in H. injection H as <- <-.
  split; [apply word_parts; auto|]. split.
  - apply value_ok_parts. repeat split; auto.
    apply (head_ok_rev_suffix w u); auto.
  - exists w. auto.
Qed.

(** A line the parser took for an option is not a [Host] line, so its key
    is not the keyword. *)
Lemma opt_not_hostlike :
  forall t k v, tidy t = true -> optMatch t = Some (k, v) ->
  hostMatch t = None -> hostlike k = false.
Proof.
  intros t k v Ht Ho Hh. destruct (hostlike k) eqn:E; [exfalso|reflexivity].
  apply optMatch_elim in Ho as (_ & Hv & w & -> & Hw & Fw); [|exact Ht].
  apply value_ok_parts in Hv as (Hn & Fn & Hhd & _).
  unfold hostMatch in Hh. rewrite exec_host_re in Hh.
  destruct k as [|a [|b [|c [|d [|e k]]]]]; simpl in E; try discriminate.
  simpl app in Hh. unfold hostlike in Hh. rewrite E in Hh.
  rewrite exec_tail_intro in Hh; auto. discriminate.
Qed.

(** The line [stringify] writes for an option is not taken for a [Host]
    line when read back. *)
Lemma hostMatch_option_line :
  forall k v, word k = true -> hostlike k = false ->
  hostMatch (k ++ SP :: v) = None.
Proof.
  intros k v Hk Hh. apply word_parts in Hk as [Hne Fk].
  unfold hostMatch. rewrite exec_host_re.
  destruct k as [|a [|b [|c [|d [|e k]]]]]; try congruence; simpl app;
    cbv beta iota.
  1-3: destruct v as [|x [|y [|z v]]]; try reflexivity;
       unfold hostlike, SP;
       repeat match goal with
              | |- context [letter_i ?u ?l ?x] =>
                  is_var x; destruct (letter_i u l x)
              end; reflexivity.
  - rewrite Hh. reflexivity.
  - destruct (hostlike [a; b; c; d]); [|reflexivity].
    unfold tail_re. simpl exec.
    simpl in Fk. repeat rewrite andb_true_iff in Fk.
    destruct Fk as (_ & _ & _ & _ & Fe & _).
    rewrite (word_not_space _ Fe). reflexivity.
Qed.

(* ------------------------------------------------------------------ *)
(** * Objects *)

Lemma obj_get_app :
  forall a b k, obj_get (a ++ b) k =
    match obj_get a k with
    | Some v => Some v
    | None => obj_get b k
    end.
Proof.
  induction a as [|[k' v'] a IH]; simpl; intros b k; [reflexivity|].
  destruct (streq k' k); auto.
Qed.

Lemma obj_has_app :
  forall a b k, obj_has (a ++ b) k = obj_has a k || obj_has b k.
Proof.
  intros a b k. unfold obj_has. rewrite obj_get_app.
  destruct (obj_get a k); reflexivity.
Qed.

Lemma obj_has_cons :
  forall k' v' o k, obj_has ((k', v') :: o) k = streq k' k || obj_has o k.
Proof.
  intros k' v' o k. unfold obj_has. simpl. destruct (streq k' k); reflexivity.
Qed.

Lemma obj_update_app_l :
  forall a b k v, obj_has a k = true ->
  obj_update (a ++ b) k v = obj_update a k v ++ b.
Proof.
  induction a as [|[k' v'] a IH]; intros b k v H; [discriminate|].
  rewrite obj_has_cons in H. simpl. destruct (streq k' k); [reflexivity|].
  simpl in H. rewrite IH by exact H. reflexivity.
Qed.

Lemma obj_update_app_r :
  forall a b k v, obj_has a k = false ->
  obj_update (a ++ b) k v = a ++ obj_update b k v.
Proof.
  induction a as [|[k' v'] a IH]; intros b k v H; [reflexivity|].
  rewrite obj_has_cons in H. apply orb_false_iff in H as [E H].
  simpl. rewrite E, IH by exact H. reflexivity.
Qed.

Lemma obj_update_cons :
  forall k' v' o k v,
  obj_update ((k', v') :: o) k v =
    if streq k' k then (k', v) :: o else (k', v') :: obj_update o k v.
Proof. reflexivity. Qed.

Lemma keys_update : forall o k v, keys (obj_update o k v) = keys o.
Proof.
  induction o as [|[k' v'] o IH]; intros k v; simpl; [reflexivity|].
  destruct (streq k' k); simpl; [reflexivity|]. f_equal. apply IH.
Qed.

Lemma obj_has_keys : forall o k, obj_has o k = true <-> In k (keys o).
Proof.
  induction o as [|[k' v'] o IH]; intros k.
  - split; [discriminate | intros []].
  - rewrite obj_has_cons, orb_true_iff, streq_eq, IH. simpl. tauto.
Qed.

Lemma obj_has_update :
  forall o k v k', obj_has (obj_update o k v) k' = obj_has o k'.
Proof.
  intros o k v k'. destruct (obj_has o k') eqn:E.
  - apply obj_has_keys. rewrite keys_update. apply obj_has_keys. exact E.
  - destruct (obj_has (obj_update o k v) k') eqn:E'; [|reflexivity].
    apply obj_has_keys in E'. rewrite keys_update in E'.
    apply obj_has_keys in E'. congruence.
Qed.

Lemma obj_get_update_same :
  forall o k v, obj_has o k = true -> obj_get (obj_update o k v) k = Some v.
Proof.
  induction o as [|[k' v'] o IH]; intros k v H; [discriminate|].
  rewrite obj_has_cons in H. simpl. destruct (streq k' k) eqn:E; simpl.
  - rewrite E. reflexivity.
  - rewrite E. apply IH. exact H.
Qed.

Lemma obj_get_update_other :
  forall o k v k', k' <> k -> obj_get (obj_update o k v) k' = obj_get o k'.
Proof.
  induction o as [|[k1 v1] o IH]; intros k v k' H; [reflexivity|].
  simpl. destruct (streq k1 k) eqn:E; simpl.
  - apply streq_eq in E. subst k1.
    apply not_eq_sym, streq_neq in H. rewrite H. reflexivity.
  - destruct (streq k1 k'); [reflexivity|]. apply IH. exact H.
Qed.

(** The canonical numeric string of an index is the key itself. *)
Lemma array_index_key :
  forall k i, array_index k = Some i -> k = to_decimal i.
Proof.
  intros k i H. unfold array_index in H.
  destruct (streq (to_decimal (decimal 0 k)) k) eqn:E; [|discriminate].
  destruct (decimal 0 k <? 4294967295)%N; [|discriminate].
  simpl in H. injection H as <-. apply streq_eq in E. congruence.
Qed.

Lemma array_index_inj :
  forall k k' i, array_index k = Some i -> array_index k' = Some i -> k = k'.
Proof.
  intros k k' i H H'. apply array_index_key in H, H'. congruence.
Qed.

Lemma NAME_plain : array_index NAME = None.
Proof. reflexivity. Qed.

Lemma ascending_has_index :
  forall o k, ascending o = true -> obj_has o k = true ->
  exists i, array_index k = Some i.
Proof.
  induction o as [|[k' v'] o IH]; intros k A H; [discriminate|].
  simpl in A. destruct (array_index k') as [i|] eqn:E; [|discriminate].
  apply andb_true_iff in A as [_ A].
  rewrite obj_has_cons in H. apply orb_true_iff in H as [H|H].
  - apply streq_eq in H. subst. eauto.
  - eauto.
Qed.

Lemma plain_has_no_index :
  forall o k, forallb plain o = true -> obj_has o k = true ->
  array_index k = None.
Proof.
  induction o as [|[k' v'] o IH]; intros k A H; [discriminate|].
  simpl in A. apply andb_true_iff in A as [P A].
  rewrite obj_has_cons in H. apply orb_true_iff in H as [H|H].
  - apply streq_eq in H. subst. unfold plain in P. simpl in P.
    destruct (array_index k); [discriminate | reflexivity].
  - eauto.
Qed.

Lemma insert_index_skip :
  forall a b i k v, forallb (index_below i) a = true ->
  obj_insert_index (a ++ b) i k v = a ++ obj_insert_index b i k v.
Proof.
  induction a as [|[k' v'] a IH]; intros b i k v H; [reflexivity|].
  simpl in H. apply andb_true_iff in H as [Hb H].
  unfold index_below in Hb. simpl in Hb. simpl.
  destruct (array_index k') as [j|]; [|discriminate].
  rewrite Hb, IH by exact H. reflexivity.
Qed.

Lemma insert_index_here :
  forall b i k v, stops_index i b = true ->
  obj_insert_index b i k v = (k, v) :: b.
Proof.
  intros [|[k' v'] b] i k v H; [reflexivity|].
  simpl in H. apply negb_true_iff in H. unfold index_below in H.
  simpl in H. simpl. destruct (array_index k') as [j|]; [|reflexivity].
  rewrite H. reflexivity.
Qed.

Lemma define_existing :
  forall o k v, obj_has o k = true -> obj_define o k v = obj_update o k v.
Proof. intros o k v H. unfold obj_define. rewrite H. reflexivity. Qed.

Lemma define_new_index :
  forall a b i k v,
  array_index k = Some i -> obj_has (a ++ b) k = false ->
  forallb (index_below i) a = true -> stops_index i b = true ->
  obj_define (a ++ b) k v = a ++ (k, v) :: b.
Proof.
  intros a b i k v Hi Hh Ha Hb. unfold obj_define. rewrite Hh, Hi.
  rewrite insert_index_skip, insert_index_here by assumption. reflexivity.
Qed.

Lemma define_new_plain :
  forall o k v, array_index k = None -> obj_has o k = false ->
  obj_define o k v = o ++ [(k, v)].
Proof. intros o k v Hi Hh. unfold obj_define. rewrite Hh, Hi. reflexivity. Qed.

Lemma set_define :
  forall o k v, streq k PROTO = false -> obj_set o k v = obj_define o k v.
Proof. intros o k v H. unfold obj_set. rewrite H. reflexivity. Qed.

Lemma forallb_update :
  forall (P : jsstring * jsstring -> bool) o k v,
  forallb P o = true -> P (k, v) = true ->
  forallb P (obj_update o k v) = true.
Proof.
  induction o as [|[k' v'] o IH]; intros k v H Hk; [reflexivity|].
  simpl in H. apply andb_true_iff in H as [H1 H2]. simpl.
  destruct (streq k' k) eqn:E; simpl.
  - apply streq_eq in E. subst. rewrite Hk, H2. reflexivity.
  - rewrite H1. apply IH; assumption.
Qed.

Lemma forallb_keys_update :
  forall (P : jsstring * jsstring -> bool) o k v,
  (forall k' v1 v2, P (k', v1) = P (k', v2)) ->
  forallb P (obj_update o k v) = forallb P o.
Proof.
  intros P o k v HP. induction o as [|[k' v'] o IH]; [reflexivity|].
  simpl. destruct (streq k' k); simpl.
  - rewrite (HP k' v v'). reflexivity.
  - rewrite IH. reflexivity.
Qed.

Lemma ascending_update :
  forall o k v, ascending (obj_update o k v) = ascending o.
Proof.
  induction o as [|[k' v'] o IH]; intros k v; [reflexivity|].
  simpl. destruct (streq k' k); simpl; [reflexivity|].
  destruct (array_index k'); [|reflexivity].
  rewrite IH, forallb_keys_update; reflexivity.
Qed.

Lemma distinct_update :
  forall o k v, distinct (obj_update o k v) = distinct o.
Proof.
  induction o as [|[k' v'] o IH]; intros k v; [reflexivity|].
  simpl. destruct (streq k' k); simpl; [reflexivity|].
  rewrite obj_has_update, IH. reflexivity.
Qed.

Lemma distinct_snoc :
  forall o k v, distinct o = true -> obj_has o k = false ->
  distinct (o ++ [(k, v)]) = true.
Proof.
  induction o as [|[k' v'] o IH]; intros k v D H; [reflexivity|].
  simpl in D. apply andb_true_iff in D as [D1 D2].
  rewrite obj_has_cons in H. apply orb_false_iff in H as [E H].
  simpl. rewrite obj_has_app, obj_has_cons, orb_false_r.
  apply negb_true_iff in D1. rewrite D1. simpl.
  rewrite streq_sym, E. simpl. apply IH; assumption.
Qed.

Lemma forallb_weaken :
  forall (P Q : jsstring * jsstring -> bool) o,
  (forall x, P x = true -> Q x = true) ->
  forallb P o = true -> forallb Q o = true.
Proof.
  intros P Q o H. induction o as [|x o IH]; simpl; [reflexivity|].
  intros F. apply andb_true_iff in F as [F1 F2].
  rewrite (H _ F1), (IH F2). reflexivity.
Qed.

(** Creating a new index property in an ascending run keeps it ascending. *)
Lemma ascending_insert :
  forall ints i k v,
  ascending ints = true -> obj_has ints k = false ->
  array_index k = Some i ->
  exists ints',
    (forall rest, stops_index i rest = true ->
       obj_insert_index (ints ++ rest) i k v = ints' ++ rest)
    /\ ascending ints' = true
    /\ (forall P : jsstring * jsstring -> bool,
          forallb P ints = true -> P (k, v) = true ->
          forallb P ints' = true).
Proof.
  induction ints as [|[k1 v1] ints IH]; intros i k v A H Hi.
  - exists [(k, v)]. split; [|split].
    + intros rest Hr. simpl app. apply insert_index_here. exact Hr.
    + simpl. rewrite Hi. reflexivity.
    + intros P _ Hk. simpl. rewrite Hk. reflexivity.
  - simpl in A. destruct (array_index k1) as [j|] eqn:Ej; [|discriminate].
    apply andb_true_iff in A as [Ab A].
    rewrite obj_has_cons in H. apply orb_false_iff in H as [E H].
    destruct (j <? i)%N eqn:Lt.
    + destruct (IH i k v A H Hi) as (ints' & Hins & Hasc & Hall).
      exists ((k1, v1) :: ints'). split; [|split].
      * intros rest Hr. simpl. rewrite Ej, Lt, Hins by exact Hr.
        reflexivity.
      * simpl. rewrite Ej, Hasc, Hall; auto.
        unfold index_above. simpl. rewrite Hi. exact Lt.
      * intros P F Hk. simpl in F. apply andb_true_iff in F as [F1 F2].
        simpl. rewrite F1, Hall; auto.
    + assert (Hji : (i < j)%N).
      { apply N.ltb_ge in Lt. apply N.le_lteq in Lt as [Lt|Lt]; [exact Lt|].
        subst j. apply streq_neq in E. exfalso. apply E.
        apply (array_index_inj _ _ _ Ej Hi). }
      exists ((k, v) :: (k1, v1) :: ints). split; [|split].
      * intros rest Hr. simpl. rewrite Ej, Lt. reflexivity.
      * simpl. rewrite Hi, Ej, Ab, A.
        unfold index_above at 1. simpl. rewrite Ej.
        apply N.ltb_lt in Hji. rewrite Hji. simpl.
        rewrite (forallb_weaken (index_above j) (index_above i)); auto.
        intros [k2 v2]. unfold index_above. simpl.
        destruct (array_index k2) as [m|]; [|discriminate].
        rewrite !N.ltb_lt. apply N.ltb_lt in Hji. lia.
      * intros P F Hk. simpl. rewrite Hk. exact F.
Qed.

Lemma opt_ok_parts :
  forall k v, opt_ok (k, v) = true <->
  word k = true /\ hostlike k = false /\ streq k PROTO = false
  /\ value_ok v = true.
Proof.
  intros k v. unfold opt_ok. simpl.
  rewrite !andb_true_iff, !negb_true_iff. tauto.
Qed.

Lemma ascending_lacks_plain :
  forall ints k, ascending ints = true -> array_index k = None ->
  obj_has ints k = false.
Proof.
  intros ints k A H. destruct (obj_has ints k) eqn:E; [|reflexivity].
  destruct (ascending_has_index _ _ A E) as [i Hi]. congruence.
Qed.

Lemma plain_lacks_index :
  forall strs k i, forallb plain strs = true -> array_index k = Some i ->
  obj_has strs k = false.
Proof.
  intros strs k i P H. destruct (obj_has strs k) eqn:E; [|reflexivity].
  rewrite (plain_has_no_index _ _ P E) in H. discriminate.
Qed.

(** An assignment the parser makes keeps the record in shape. *)
Lemma wf_set :
  forall o k v, wf_record o -> opt_ok (k, v) = true ->
  wf_record (obj_set o k v).
Proof.
  intros o k v (ints & n & strs & -> & (A & Vn & Fi & Fs & Pl & D)) Hok.
  pose proof Hok as Hok'.
  apply opt_ok_parts in Hok' as (Wk & Hk & Pk & Vv).
  rewrite set_define by exact Pk.
  simpl in D. apply andb_true_iff in D as [Dn D].
  apply negb_true_iff in Dn.
  pose proof (ascending_lacks_plain ints NAME A NAME_plain) as HnI.
  destruct (streq NAME k) eqn:EN.
  - (* the key is [name] *)
    apply streq_eq in EN. subst k.
    rewrite define_existing
      by (rewrite obj_has_app, obj_has_cons, streq_refl, orb_true_r;
          reflexivity).
    rewrite obj_update_app_r, obj_update_cons, streq_refl by exact HnI.
    exists ints, v, strs. split; [reflexivity|].
    repeat split; auto. simpl. rewrite Dn, D. reflexivity.
  - destruct (array_index k) as [i|] eqn:Ei.
    + (* an array index *)
      pose proof (plain_lacks_index strs k i Pl Ei) as HkS.
      destruct (obj_has ints k) eqn:HkI.
      * rewrite define_existing
          by (rewrite obj_has_app, HkI; reflexivity).
        rewrite obj_update_app_l by exact HkI.
        exists (obj_update ints k v), n, strs. split; [reflexivity|].
        repeat split; auto.
        -- rewrite ascending_update. exact A.
        -- apply forallb_update; assumption.
        -- simpl. rewrite Dn, D. reflexivity.
      * destruct (ascending_insert ints i k v A HkI Ei)
          as (ints' & Hins & Hasc & Hall).
        exists ints', n, strs. split.
        -- unfold obj_define.
           rewrite obj_has_app, HkI, obj_has_cons, EN, HkS, Ei. simpl.
           apply Hins. reflexivity.
        -- repeat split; auto. simpl. rewrite Dn, D. reflexivity.
    + (* any other key *)
      pose proof (ascending_lacks_plain ints k A Ei) as HkI.
      destruct (obj_has strs k) eqn:HkS.
      * rewrite define_existing
          by (rewrite obj_has_app, obj_has_cons, HkS, !orb_true_r;
              reflexivity).
        rewrite obj_update_app_r, obj_update_cons, EN by exact HkI.
        exists ints, n, (obj_update strs k v). split; [reflexivity|].
        repeat split; auto.
        -- apply forallb_update; assumption.
        -- rewrite forallb_keys_update; auto.
        -- simpl. rewrite obj_has_update, Dn, distinct_update, D.
           reflexivity.
      * rewrite define_new_plain
          by (auto; rewrite obj_has_app, HkI, obj_has_cons, EN, HkS;
              reflexivity).
        rewrite <- app_assoc. simpl.
        exists ints, n, (strs ++ [(k, v)]). split; [reflexivity|].
        repeat split; auto.
        -- rewrite forallb_app, Fs. simpl. rewrite Hok. reflexivity.
        -- rewrite forallb_app, Pl. simpl. unfold plain. simpl.
           rewrite Ei. reflexivity.
        -- simpl. rewrite obj_has_app, Dn, obj_has_cons, orb_false_r.
           rewrite streq_sym, EN. simpl. apply distinct_snoc; assumption.
Qed.

Lemma wf_new : forall n, value_ok n = true -> wf_record (obj_define [] NAME n).
Proof.
  intros n H. exists [], n, []. split; [reflexivity|].
  repeat split; auto.
Qed.

(** ** Rebuilding an object from its enumeration *)

Lemma ascending_app_cons :
  forall a k v b, ascending (a ++ (k, v) :: b) = true ->
  exists i, array_index k = Some i /\ forallb (index_below i) a = true.
Proof.
  induction a as [|[k1 v1] a IH]; intros k v b A.
  - simpl in A. destruct (array_index k) as [i|]; [|discriminate]. eauto.
  - simpl in A. destruct (array_index k1) as [j|] eqn:Ej; [|discriminate].
    apply andb_true_iff in A as [Ab A].
    destruct (IH _ _ _ A) as (i & Hi & Hb). exists i. split; [exact Hi|].
    simpl. rewrite Hb, andb_true_r.
    rewrite forallb_app in Ab. apply andb_true_iff in Ab as [_ Ab].
    simpl in Ab. apply andb_true_iff in Ab as [Ab _].
    unfold index_above in Ab. simpl in Ab. rewrite Hi in Ab.
    unfold index_below. simpl. rewrite Ej. exact Ab.
Qed.

Lemma below_lacks :
  forall a k i, array_index k = Some i ->
  forallb (index_below i) a = true -> obj_has a k = false.
Proof.
  induction a as [|[k1 v1] a IH]; intros k i Hi H; [reflexivity|].
  simpl in H. apply andb_true_iff in H as [H1 H2].
  rewrite obj_has_cons, (IH _ _ Hi H2), orb_false_r.
  apply streq_neq. intros ->. unfold index_below in H1. simpl in H1.
  rewrite Hi in H1. apply N.ltb_lt in H1. lia.
Qed.

Lemma lacks_cons_inv :
  forall acc kv l, lacks acc (kv :: l) = true ->
  obj_has acc (fst kv) = false /\ lacks acc l = true.
Proof.
  intros acc kv l H. unfold lacks in H. simpl in H.
  apply andb_true_iff in H as [H1 H2]. apply negb_true_iff in H1. auto.
Qed.

(** The index properties, created in ascending order, line up in front of
    what is already there when that starts with a non-index key. *)
Lemma build_indices :
  forall todo done tail,
  ascending (done ++ todo) = true -> forallb plain tail = true ->
  lacks tail todo = true ->
  build (done ++ tail) todo = done ++ todo ++ tail.
Proof.
  induction todo as [|[k v] todo IH]; intros done tail A P L.
  - reflexivity.
  - destruct (ascending_app_cons _ _ _ _ A) as (i & Hi & Hb).
    apply lacks_cons_inv in L as [Lk L]. simpl in Lk.
    unfold build. simpl fold_left.
    rewrite (define_new_index done tail i k v); auto.
    + change (build (done ++ (k, v) :: tail) todo
              = done ++ ((k, v) :: todo) ++ tail).
      replace (done ++ (k, v) :: tail) with ((done ++ [(k, v)]) ++ tail)
        by (rewrite <- app_assoc; reflexivity).
      rewrite IH; auto.
      * rewrite <- app_assoc. reflexivity.
      * rewrite <- app_assoc. exact A.
    + rewrite obj_has_app, (below_lacks _ _ _ Hi Hb), Lk. reflexivity.
    + destruct tail as [|[k' v'] tail']; [reflexivity|].
      simpl in P. apply andb_true_iff in P as [P _].
      unfold plain in P. simpl in P. simpl. unfold index_below. simpl.
      destruct (array_index k'); [discriminate | reflexivity].
Qed.

(** The other properties, created in order, line up behind. *)
Lemma build_plain :
  forall todo acc,
  forallb plain todo = true -> distinct todo = true ->
  lacks acc todo = true ->
  build acc todo = acc ++ todo.
Proof.
  induction todo as [|[k v] todo IH]; intros acc P D L.
  - unfold build. simpl. rewrite app_nil_r. reflexivity.
  - simpl in P. apply andb_true_iff in P as [Pk P].
    simpl in D. apply andb_true_iff in D as [Dk D].
    apply negb_true_iff in Dk.
    apply lacks_cons_inv in L as [Lk L]. simpl in Lk.
    unfold plain in Pk. simpl in Pk.
    destruct (array_index k) eqn:Ei; [discriminate|].
    unfold build. simpl fold_left.
    rewrite define_new_plain by assumption.
    change (build (acc ++ [(k, v)]) todo = acc ++ (k, v) :: todo).
    rewrite IH; auto.
    + rewrite <- app_assoc. reflexivity.
    + (* no later key is [k], and none was in [acc] *)
      clear IH P D. unfold lacks in *.
      induction todo as [|[k' v'] todo IH']; [reflexivity|].
      simpl in L. apply andb_true_iff in L as [L1 L2].
      rewrite obj_has_cons in Dk. apply orb_false_iff in Dk as [E Dk].
      simpl. rewrite obj_has_app, obj_has_cons, orb_false_r.
      apply negb_true_iff in L1. rewrite L1, streq_sym, E. simpl.
      apply IH'; assumption.
Qed.



Lemma ascending_lacks :
  forall ints l, ascending ints = true -> forallb plain l = true ->
  lacks ints l = true.
Proof.
  intros ints l A. induction l as [|[k v] l IH]; intros P; [reflexivity|].
  simpl in P. apply andb_true_iff in P as [Pk P].
  unfold plain in Pk. simpl in Pk.
  destruct (array_index k) eqn:Ei; [discriminate|].
  unfold lacks. simpl. rewrite (ascending_lacks_plain _ _ A Ei). simpl.
  apply IH. exact P.
Qed.


Lemma lacks_app :
  forall a b l, lacks (a ++ b) l = lacks a l && lacks b l.
Proof.
  intros a b l. induction l as [|kv l IH]; [reflexivity|].
  unfold lacks in *. simpl. rewrite IH, obj_has_app, negb_orb.
  destruct (obj_has a (fst kv)), (obj_has b (fst kv)); simpl;
    try reflexivity; try (rewrite ?andb_false_r; reflexivity).
Qed.

Lemma not_key_absent :
  forall o k, obj_has o k = false -> forallb (not_key k) o = true.
Proof.
  induction o as [|[k' v'] o IH]; intros k H; [reflexivity|].
  rewrite obj_has_cons in H. apply orb_false_iff in H as [E H].
  simpl. unfold not_key at 1. simpl. rewrite E. simpl. auto.
Qed.

Lemma lacks_single :
  forall k v l, forallb (not_key k) l = true -> lacks [(k, v)] l = true.
Proof.
  intros k v l. induction l as [|[k' v'] l IH]; intros H; [reflexivity|].
  simpl in H. apply andb_true_iff in H as [H1 H2].
  unfold lacks. simpl. rewrite obj_has_cons, orb_false_r.
  unfold not_key in H1. simpl in H1. rewrite streq_sym, H1. simpl.
  apply IH. exact H2.
Qed.

Lemma replay_app :
  forall a b acc, replay acc (a ++ b) = replay (replay acc a) b.
Proof. intros a b acc. unfold replay. apply fold_left_app. Qed.

Lemma replay_is_build :
  forall l acc, forallb opt_ok l = true -> forallb (not_key NAME) l = true ->
  replay acc l = build acc l.
Proof.
  induction l as [|[k v] l IH]; intros acc F N; [reflexivity|].
  simpl in F. apply andb_true_iff in F as [Fk F].
  simpl in N. apply andb_true_iff in N as [Nk N].
  apply opt_ok_parts in Fk as (_ & _ & Pk & _).
  unfold not_key in Nk. simpl in Nk. apply negb_true_iff in Nk.
  unfold replay, build. simpl fold_left. rewrite Nk, set_define by exact Pk.
  apply IH; assumption.
Qed.

(** Reading back the option lines of a record in shape, after its [Host]
    line, gives the record again. *)
Lemma replay_wf :
  forall ints n strs, shaped ints n strs ->
  replay [(NAME, n)] (ints ++ (NAME, n) :: strs) = ints ++ (NAME, n) :: strs.
Proof.
  intros ints n strs (A & Vn & Fi & Fs & Pl & D).
  simpl in D. apply andb_true_iff in D as [Dn D].
  apply negb_true_iff in Dn.
  pose proof (ascending_lacks_plain ints NAME A NAME_plain) as HnI.
  pose proof (not_key_absent _ _ HnI) as NI.
  pose proof (not_key_absent _ _ Dn) as NS.
  rewrite replay_app, (replay_is_build ints) by assumption.
  assert (B : build [(NAME, n)] ints = ints ++ [(NAME, n)]).
  { apply (build_indices ints [] [(NAME, n)]).
    - exact A.
    - reflexivity.
    - apply lacks_single. exact NI. }
  rewrite B.
  change (replay (ints ++ [(NAME, n)]) ((NAME, n) :: strs))
    with (replay (ints ++ [(NAME, n)]) strs).
  rewrite (replay_is_build strs) by assumption.
  rewrite build_plain; auto.
  - rewrite <- app_assoc. reflexivity.
  - rewrite lacks_app, (ascending_lacks _ _ A Pl), (lacks_single _ _ _ NS).
    reflexivity.
Qed.

(* ------------------------------------------------------------------ *)
(** * The parser on the lines the serializer writes *)

Lemma word_head_ok : forall k, word k = true -> head_ok k = true.
Proof.
  intros [|c k] H; [reflexivity|]. apply word_parts in H as [_ F].
  simpl in F. apply andb_true_iff in F as [F _].
  simpl. rewrite (word_not_space _ F). reflexivity.
Qed.

Lemma word_not_hash : forall k, word k = true -> starts_with_hash k = false.
Proof.
  intros [|c k] H; [reflexivity|]. apply word_parts in H as [_ F].
  simpl in F. apply andb_true_iff in F as [F _].
  simpl. apply N.eqb_neq. intros ->. discriminate.
Qed.

Lemma step_host_line :
  forall st n, value_ok n = true ->
  step st (js "Host " ++ n) = mkState (commit st) (Some [(NAME, n)]).
Proof.
  intros st n H. pose proof H as H'.
  apply value_ok_parts in H' as (Hn & _ & _ & Hl).
  assert (T : tidy (js "Host " ++ n) = true).
  { apply tidy_app; auto; discriminate. }
  unfold step. rewrite trim_id by exact T.
  rewrite hostMatch_intro by exact H. reflexivity.
Qed.

Lemma step_option_line :
  forall st c k v,
  current st = Some c ->
  word k = true -> hostlike k = false -> value_ok v = true ->
  step st (js "    " ++ k ++ js " " ++ v)
  = mkState (hosts st) (Some (obj_set c k v)).
Proof.
  intros st c k v Hc Wk Hk Hv. pose proof Hv as Hv'.
  apply value_ok_parts in Hv' as (Hn & _ & _ & Hl).
  pose proof Wk as Wk'. apply word_parts in Wk' as [Kn _].
  change (js " " ++ v) with (SP :: v).
  assert (T : tidy (k ++ SP :: v) = true).
  { apply tidy_app; auto; try discriminate.
    - apply word_head_ok. exact Wk.
    - change (SP :: v) with ([SP] ++ v). rewrite rev_app_distr.
      destruct (rev v) eqn:R; [|exact Hl].
      apply (f_equal (@rev _)) in R. rewrite rev_involutive in R.
      simpl in R. congruence. }
  unfold step. rewrite trim_pad by reflexivity.
  rewrite trim_id by exact T.
  assert (N : nonempty (k ++ SP :: v) = true) by (destruct k; reflexivity).
  assert (Hs : starts_with_hash (k ++ SP :: v) = false).
  { pose proof (word_not_hash k Wk) as W. destruct k; [congruence | exact W]. }
  rewrite N, Hs. simpl negb. simpl orb. cbv iota.
  rewrite hostMatch_option_line, Hc, optMatch_intro by assumption.
  reflexivity.
Qed.

Lemma option_lines_cons :
  forall k v o,
  option_lines ((k, v) :: o)
  = (if streq k NAME then [] else [js "    " ++ k ++ js " " ++ v])
    ++ option_lines o.
Proof. reflexivity. Qed.

Lemma replay_cons :
  forall c k v o,
  replay c ((k, v) :: o)
  = replay (if streq k NAME then c else obj_set c k v) o.
Proof. reflexivity. Qed.

Lemma steps_option_lines :
  forall o hs c, forallb opt_ok o = true ->
  fold_left step (option_lines o) (mkState hs (Some c))
  = mkState hs (Some (replay c o)).
Proof.
  induction o as [|[k v] o IH]; intros hs c F; [reflexivity|].
  simpl in F. apply andb_true_iff in F as [Fk F].
  apply opt_ok_parts in Fk as (Wk & Hk & _ & Vv).
  rewrite option_lines_cons, replay_cons, fold_left_app.
  destruct (streq k NAME) eqn:E.
  - apply IH. exact F.
  - change (fold_left step [js "    " ++ k ++ js " " ++ v]
              (mkState hs (Some c)))
      with (step (mkState hs (Some c)) (js "    " ++ k ++ js " " ++ v)).
    rewrite (step_option_line _ c) by auto.
    apply IH. exact F.
Qed.

Lemma wf_name_text :
  forall ints n strs, shaped ints n strs ->
  obj_get (ints ++ (NAME, n) :: strs) NAME = Some n.
Proof.
  intros ints n strs (A & _).
  pose proof (ascending_lacks_plain ints NAME A NAME_plain) as H.
  rewrite obj_get_app. unfold obj_has in H.
  destruct (obj_get ints NAME); [discriminate|]. reflexivity.
Qed.

Lemma wf_all_opt_ok :
  forall ints n strs, shaped ints n strs ->
  forallb opt_ok (ints ++ (NAME, n) :: strs) = true.
Proof.
  intros ints n strs (_ & Vn & Fi & Fs & _).
  rewrite forallb_app, Fi. simpl. rewrite Fs, andb_true_r.
  apply opt_ok_parts. repeat split; auto.
Qed.

Lemma steps_host_lines :
  forall h st, wf_record h ->
  fold_left step (host_lines h) st = mkState (commit st) (Some h).
Proof.
  intros h st (ints & n & strs & -> & S).
  pose proof S as (_ & Vn & _).
  unfold host_lines, name_text. rewrite (wf_name_text _ _ _ S).
  change (fold_left step ((js "Host " ++ n) :: ?l) st)
    with (fold_left step l (step st (js "Host " ++ n))).
  cbn [fold_left]. rewrite step_host_line by exact Vn.
  rewrite fold_left_app, steps_option_lines by (apply wf_all_opt_ok; exact S).
  rewrite replay_wf by exact S. reflexivity.
Qed.

Lemma commit_steps_stringify :
  forall hs st, Forall wf_record hs ->
  commit (fold_left step (flat_map host_lines hs) st) = commit st ++ hs.
Proof.
  induction hs as [|h hs IH]; intros st F.
  - simpl. rewrite app_nil_r. reflexivity.
  - inversion F as [|? ? Hh Hhs]; subst.
    change (flat_map host_lines (h :: hs))
      with (host_lines h ++ flat_map host_lines hs).
    rewrite fold_left_app, steps_host_lines by exact Hh.
    rewrite IH by exact Hhs. unfold commit at 1. simpl.
    rewrite <- app_assoc. reflexivity.
Qed.

(** ** The lines [stringify] writes hold no line feed *)

Lemma no_LF_app : forall a b, no_LF a -> no_LF b -> no_LF (a ++ b).
Proof.
  unfold no_LF. intros a b Ha Hb. rewrite forallb_app.
  apply andb_true_iff. split; assumption.
Qed.

Lemma dot_no_LF : forall v, forallb dot v = true -> no_LF v.
Proof.
  unfold no_LF. induction v as [|c v IH]; simpl; intros H; [reflexivity|].
  apply andb_true_iff in H as [Hc H]. rewrite (IH H), andb_true_r.
  unfold dot, is_line_terminator in Hc. apply negb_true_iff in Hc.
  repeat (apply orb_false_iff in Hc as [Hc _]). unfold LF. rewrite Hc.
  reflexivity.
Qed.

Lemma word_no_LF : forall k, forallb is_word k = true -> no_LF k.
Proof.
  unfold no_LF. induction k as [|c k IH]; simpl; intros H; [reflexivity|].
  apply andb_true_iff in H as [Hc H]. rewrite (IH H), andb_true_r.
  apply negb_true_iff, N.eqb_neq. intros ->. discriminate.
Qed.

Lemma value_no_LF : forall v, value_ok v = true -> no_LF v.
Proof.
  intros v H. apply value_ok_parts in H as (_ & F & _). apply dot_no_LF, F.
Qed.

Lemma option_lines_no_LF :
  forall o, forallb opt_ok o = true -> Forall no_LF (option_lines o).
Proof.
  induction o as [|[k v] o IH]; intros F; [constructor|].
  simpl in F. apply andb_true_iff in F as [Fk F].
  apply opt_ok_parts in Fk as (Wk & _ & _ & Vv).
  apply word_parts in Wk as [_ Wk].
  rewrite option_lines_cons. apply Forall_app. split; [|auto].
  destruct (streq k NAME); constructor; [|constructor].
  repeat apply no_LF_app; try reflexivity.
  - apply word_no_LF, Wk.
  - apply value_no_LF, Vv.
Qed.

Lemma host_lines_no_LF :
  forall h, wf_record h -> Forall no_LF (host_lines h).
Proof.
  intros h (ints & n & strs & -> & S). pose proof S as (_ & Vn & _).
  unfold host_lines, name_text. rewrite (wf_name_text _ _ _ S).
  constructor.
  - apply no_LF_app; [reflexivity | apply value_no_LF, Vn].
  - apply Forall_app. split.
    + apply option_lines_no_LF, wf_all_opt_ok, S.
    + constructor; [reflexivity | constructor].
Qed.

Lemma stringify_lines_no_LF :
  forall hs, Forall wf_record hs -> Forall no_LF (flat_map host_lines hs).
Proof.
  induction hs as [|h hs IH]; intros F; [constructor|].
  inversion F; subst.
  change (flat_map host_lines (h :: hs))
    with (host_lines h ++ flat_map host_lines hs).
  apply Forall_app. split.
  - apply host_lines_no_LF. assumption.
  - apply IH. assumption.
Qed.

(** ** Reading back what was written *)

Lemma dropwhile_keeps_last :
  forall p a c, p c = false -> exists a', dropwhile p (a ++ [c]) = a' ++ [c].
Proof.
  induction a as [|x a IH]; intros c H; simpl.
  - rewrite H. exists []. reflexivity.
  - destruct (p x).
    + apply IH. exact H.
    + exists (x :: a). reflexivity.
Qed.

Lemma trim_nonempty_head :
  forall c s, is_space c = false -> nonempty (trim (c :: s)) = true.
Proof.
  intros c s H. unfold trim. rewrite dropwhile_head by exact H.
  simpl rev. destruct (dropwhile_keeps_last is_space (rev s) c H) as [a' E].
  rewrite E, rev_app_distr. reflexivity.
Qed.

Lemma join_lines_head :
  forall c l ls, exists rest, join_lines ((c :: l) :: ls) = c :: rest.
Proof.
  intros c l [|l' ls].
  - exists l. reflexivity.
  - exists (l ++ LF :: join_lines (l' :: ls)). reflexivity.
Qed.

Lemma stringify_not_blank :
  forall h hs,
  nonempty (stringify (h :: hs)) = true
  /\ nonempty (trim (stringify (h :: hs))) = true.
Proof.
  intros h hs.
  assert (E : exists rest, stringify (h :: hs) = 72%N :: rest).
  { exact (join_lines_head 72%N (js "ost " ++ name_text h)
             ((option_lines h ++ [[]]) ++ flat_map host_lines hs)). }
  destruct E as [rest ->].
  split; [reflexivity|]. apply trim_nonempty_head. reflexivity.
Qed.

(** Records in shape survive serialization followed by parsing. *)
Lemma parse_stringify_wf :
  forall hs, Forall wf_record hs -> parse (stringify hs) = hs.
Proof.
  intros [|h hs] F; [reflexivity|].
  destruct (stringify_not_blank h hs) as [N1 N2].
  unfold parse. rewrite N1, N2. simpl negb. simpl orb. cbv iota.
  unfold stringify, parse_lines. rewrite split_join.
  - rewrite commit_steps_stringify by exact F. reflexivity.
  - discriminate.
  - apply stringify_lines_no_LF. exact F.
Qed.

(** ** Every record the parser returns is in shape *)

Lemma step_wf : forall st line, pstate_wf st -> pstate_wf (step st line).
Proof.
  intros st line [Hh Hc]. unfold step.
  pose proof (trim_tidy line) as T. set (t := trim line) in *.
  destruct (negb (nonempty t) || starts_with_hash t); [split; assumption|].
  destruct (hostMatch t) as [n|] eqn:EH.
  - split; simpl.
    + unfold commit. destruct (current st) as [c|]; [|exact Hh].
      apply Forall_app. split; [exact Hh|]. constructor; [|constructor].
      apply Hc. reflexivity.
    + intros c E. injection E as <-.
      apply wf_new. apply (hostMatch_elim t); assumption.
  - destruct (current st) as [c|] eqn:EC; [|split; [assumption|]].
    2:{ intros c E. rewrite EC in E. discriminate. }
    destruct (optMatch t) as [[k v]|] eqn:EO.
    2:{ split; [assumption|]. intros c' E. rewrite EC in E. auto. }
    split; [exact Hh|]. simpl. intros c' E. injection E as <-.
    destruct (streq k PROTO) eqn:EP.
    + unfold obj_set. rewrite EP. apply Hc. reflexivity.
    + apply wf_set; [apply Hc; reflexivity|].
      pose proof (opt_not_hostlike t k v T EO EH) as NH.
      apply optMatch_elim in EO as (Wk & Vv & _); [|exact T].
      apply opt_ok_parts. auto.
Qed.

Lemma parse_lines_wf :
  forall ls st, pstate_wf st -> pstate_wf (fold_left step ls st).
Proof.
  induction ls as [|l ls IH]; intros st H; [exact H|].
  simpl. apply IH, step_wf, H.
Qed.

Lemma init_wf : pstate_wf init.
Proof. split; [constructor | discriminate]. Qed.

Lemma commit_wf : forall st, pstate_wf st -> Forall wf_record (commit st).
Proof.
  intros st [Hh Hc]. unfold commit. destruct (current st) as [c|]; [|exact Hh].
  apply Forall_app. split; [exact Hh|]. constructor; [|constructor].
  apply Hc. reflexivity.
Qed.

Lemma parse_wf : forall content, Forall wf_record (parse content).
Proof.
  intros content. unfold parse.
  destruct (negb (nonempty content) || negb (nonempty (trim content)));
    [constructor|].
  apply commit_wf, parse_lines_wf, init_wf.
Qed.

(** C1.  Round trip: for every text, writing out the collection [parse]
    returns and parsing that again gives the same collection: the same
    records in the same order, each with the same name, the same option
    keys and values, and the same enumeration order of its options. *)
Theorem parse_stringify_roundtrip :
  forall content, parse (stringify (parse content)) = parse content.
Proof.
  intros content. apply parse_stringify_wf, parse_wf.
Qed.

(* ------------------------------------------------------------------ *)
(** * Option lines *)

Lemma space_stops_word :
  forall w s, w <> [] -> forallb is_space w = true ->
  stops is_word (w ++ s) = true.
Proof.
  intros [|c w] s Hw F; [congruence|]. simpl in F.
  apply andb_true_iff in F as [F _]. simpl.
  destruct (is_word c) eqn:E; [|reflexivity].
  rewrite (word_not_space _ E) in F. discriminate.
Qed.

(** A key of word characters, white space, and a remainder that starts
    with a visible character and holds no line terminator: the pattern
    matches and captures the key and the remainder. *)
Lemma optMatch_line :
  forall k w r,
  word k = true -> w <> [] -> forallb is_space w = true ->
  r <> [] -> head_ok r = true -> forallb dot r = true ->
  optMatch (k ++ w ++ r) = Some (k, r).
Proof.
  intros k w r Wk Hw Fw Hr Hh Fr. apply word_parts in Wk as [Hne Fk].
  unfold optMatch. rewrite exec_opt_re.
  rewrite (plus_maximal is_word _ k [] (w ++ r) [k; r]); auto.
  - apply space_stops_word; assumption.
  - simpl app. rewrite exec_tail_intro; auto.
Qed.

Lemma obj_get_insert_same :
  forall o i k v, obj_has o k = false ->
  obj_get (obj_insert_index o i k v) k = Some v.
Proof.
  induction o as [|[k' v'] o IH]; intros i k v H; simpl.
  - rewrite streq_refl. reflexivity.
  - rewrite obj_has_cons in H. apply orb_false_iff in H as [E H].
    destruct (array_index k') as [j|]; [destruct (j <? i)%N|];
      simpl; rewrite ?E, ?streq_refl; auto.
Qed.

Lemma obj_get_insert_other :
  forall o i k v k', k' <> k ->
  obj_get (obj_insert_index o i k v) k' = obj_get o k'.
Proof.
  induction o as [|[k1 v1] o IH]; intros i k v k' H; simpl.
  - apply not_eq_sym, streq_neq in H. rewrite H. reflexivity.
  - assert (E : streq k k' = false) by (apply streq_neq; congruence).
    destruct (array_index k1) as [j|]; [destruct (j <? i)%N|];
      simpl; rewrite ?E; auto.
    destruct (streq k1 k'); auto.
Qed.

Lemma obj_get_define_same :
  forall o k v, obj_get (obj_define o k v) k = Some v.
Proof.
  intros o k v. unfold obj_define. destruct (obj_has o k) eqn:H.
  - apply obj_get_update_same. exact H.
  - destruct (array_index k) as [i|].
    + apply obj_get_insert_same. exact H.
    + rewrite obj_get_app. unfold obj_has in H.
      destruct (obj_get o k); [discriminate|]. simpl.
      rewrite streq_refl. reflexivity.
Qed.

Lemma obj_get_define_other :
  forall o k v k', k' <> k -> obj_get (obj_define o k v) k' = obj_get o k'.
Proof.
  intros o k v k' H. unfold obj_define. destruct (obj_has o k).
  - apply obj_get_update_other. exact H.
  - destruct (array_index k) as [i|].
    + apply obj_get_insert_other. exact H.
    + rewrite obj_get_app. destruct (obj_get o k'); [reflexivity|].
      simpl. apply not_eq_sym, streq_neq in H. rewrite H. reflexivity.
Qed.

Lemma obj_get_set_same :
  forall o k v, k <> PROTO -> obj_get (obj_set o k v) k = Some v.
Proof.
  intros o k v H. apply streq_neq in H. rewrite set_define by exact H.
  apply obj_get_define_same.
Qed.

Lemma obj_get_set_other :
  forall o k v k', k' <> k -> obj_get (obj_set o k v) k' = obj_get o k'.
Proof.
  intros o k v k' H. unfold obj_set. destruct (streq k PROTO); [reflexivity|].
  apply obj_get_define_other. exact H.
Qed.

(** A key that is not an array index: the assignment overwrites in place
    or appends. *)
Lemma obj_set_plain :
  forall o k v, k <> PROTO -> array_index k = None ->
  obj_set o k v = if obj_has o k then obj_update o k v else o ++ [(k, v)].
Proof.
  intros o k v H Hi. apply streq_neq in H. rewrite set_define by exact H.
  unfold obj_define. rewrite Hi. reflexivity.
Qed.

Lemma opt_ok_lacks_proto :
  forall o, forallb opt_ok o = true -> obj_has o PROTO = false.
Proof.
  induction o as [|[k v] o IH]; intros F; [reflexivity|].
  simpl in F. apply andb_true_iff in F as [Fk F].
  apply opt_ok_parts in Fk as (_ & _ & Pk & _).
  rewrite obj_has_cons, Pk. simpl. auto.
Qed.

Lemma wf_lacks_proto : forall o, wf_record o -> obj_has o PROTO = false.
Proof.
  intros o (ints & n & strs & -> & S).
  apply opt_ok_lacks_proto, wf_all_opt_ok, S.
Qed.

Lemma parse_lines_current_wf :
  forall ls c, current (parse_lines ls) = Some c -> wf_record c.
Proof.
  intros ls c H.
  destruct (parse_lines_wf ls init init_wf) as [_ Hc]. apply Hc, H.
Qed.

Lemma parse_lines_snoc :
  forall ls line, parse_lines (ls ++ [line]) = step (parse_lines ls) line.
Proof. intros ls line. unfold parse_lines. apply fold_left_app. Qed.

Lemma step_option :
  forall st line cur k v,
  current st = Some cur ->
  nonempty (trim line) = true -> starts_with_hash (trim line) = false ->
  hostMatch (trim line) = None -> optMatch (trim line) = Some (k, v) ->
  step st line = mkState (hosts st) (Some (obj_set cur k v)).
Proof.
  intros st line cur k v Hc Hn Hh Hm Ho. unfold step.
  rewrite Hn, Hh, Hm, Hc, Ho. reflexivity.
Qed.

Lemma step_ignored :
  forall st line,
  hostMatch (trim line) = None -> optMatch (trim line) = None ->
  step st line = st.
Proof.
  intros st line Hm Ho. unfold step. rewrite Hm, Ho.
  destruct (negb (nonempty (trim line)) || starts_with_hash (trim line));
    [reflexivity|].
  destruct (current st); reflexivity.
Qed.

(** C8.  While a record is open, an option line whose key the record
    already holds overwrites the value of that key (the last occurrence
    wins) and leaves the order of the record's keys as it was: the key
    stays where it was first created; the other keys keep their values. *)
Theorem repeated_key_overwrites_in_place :
  forall ls line cur k v,
  current (parse_lines ls) = Some cur ->
  nonempty (trim line) = true -> starts_with_hash (trim line) = false ->
  hostMatch (trim line) = None -> optMatch (trim line) = Some (k, v) ->
  obj_has cur k = true ->
  exists cur',
    parse_lines (ls ++ [line]) = mkState (hosts (parse_lines ls)) (Some cur')
    /\ obj_get cur' k = Some v
    /\ keys cur' = keys cur
    /\ (forall k', k' <> k -> obj_get cur' k' = obj_get cur k').
Proof.
  intros ls line cur k v Hc Hn Hh Hm Ho Hk.
  assert (Pk : streq k PROTO = false).
  { destruct (streq k PROTO) eqn:E; [|reflexivity].
    apply streq_eq in E. subst k.
    rewrite (wf_lacks_proto cur (parse_lines_current_wf ls cur Hc)) in Hk.
    discriminate. }
  exists (obj_update cur k v). split; [|split; [|split]].
  - rewrite parse_lines_snoc, (step_option _ _ cur k v) by assumption.
    rewrite set_define, define_existing by assumption. reflexivity.
  - apply obj_get_update_same. exact Hk.
  - apply keys_update.
  - intros k' H. apply obj_get_update_other. exact H.
Qed.

Lemma repeated_key_overwrites_in_place_witness :
  let ls := [js "Host a"; js "    User x"; js "    Port 22"] in
  let line := js "  User y" in
  current (parse_lines ls)
    = Some [(NAME, js "a"); (js "User", js "x"); (js "Port", js "22")]
  /\ exists cur',
       parse_lines (ls ++ [line]) = mkState [] (Some cur')
       /\ obj_get cur' (js "User") = Some (js "y")
       /\ keys cur' = [NAME; js "User"; js "Port"]
       /\ (forall k', k' <> js "User" ->
           obj_get cur' k'
           = obj_get [(NAME, js "a"); (js "User", js "x");
                      (js "Port", js "22")] k').
Proof.
  split; [reflexivity|].
  apply (repeated_key_overwrites_in_place
           [js "Host a"; js "    User x"; js "    Port 22"] (js "  User y")
           [(NAME, js "a"); (js "User", js "x"); (js "Port", js "22")]
           (js "User") (js "y")); reflexivity.
Defined.

(** C3, as stated, fails: a key with a character outside [A-Za-z0-9_] is a
    run of non-white-space characters, yet its line is not recorded. *)
Lemma nonword_key_not_recorded :
  let line := js "Forward-X11 yes" in
  trim line = js "Forward-X11" ++ js " " ++ js "yes"
  /\ forallb (fun c => negb (is_space c)) (js "Forward-X11") = true
  /\ hostMatch (trim line) = None
  /\ current (parse_lines [js "Host a"]) = Some [(NAME, js "a")]
  /\ current (parse_lines [js "Host a"; line]) = Some [(NAME, js "a")]
  /\ parse (js "Host a
Forward-X11 yes") = [[(NAME, js "a")]].
Proof. vm_compute. repeat split; reflexivity. Qed.

(** C3, amended.  While a record is open, a trimmed line that is neither
    empty, nor a comment, nor a [Host] line, and that consists of a key of
    one or more word characters, white space, and a remainder that starts
    with a visible character and holds no line terminator, is recorded in
    the open record as that key mapped to the remainder, the other keys
    keeping their values -- the key [name] is no exception -- unless the
    key is [__proto__], in which case the parser's state is left as it
    was; a line that has no such decomposition leaves the parser's state as
    it was. *)
Theorem option_line_recorded :
  forall ls line cur,
  current (parse_lines ls) = Some cur ->
  nonempty (trim line) = true -> starts_with_hash (trim line) = false ->
  hostMatch (trim line) = None ->
  (forall k w r,
     trim line = k ++ w ++ r ->
     word k = true ->
     w <> [] -> forallb is_space w = true ->
     r <> [] -> head_ok r = true -> forallb dot r = true ->
     (k <> PROTO ->
      exists cur',
        parse_lines (ls ++ [line])
        = mkState (hosts (parse_lines ls)) (Some cur')
        /\ obj_get cur' k = Some r
        /\ (forall k', k' <> k -> obj_get cur' k' = obj_get cur k'))
     /\ (k = PROTO -> parse_lines (ls ++ [line]) = parse_lines ls))
  /\ ((~ exists k w r,
         trim line = k ++ w ++ r /\ word k = true
         /\ w <> [] /\ forallb is_space w = true
         /\ r <> [] /\ head_ok r = true /\ forallb dot r = true) ->
      parse_lines (ls ++ [line]) = parse_lines ls).
Proof.
  intros ls line cur Hc Hn Hh Hm. split.
  - intros k w r E Wk Hw Fw Hr Hhd Fr.
    assert (S : parse_lines (ls ++ [line])
                = mkState (hosts (parse_lines ls))
                    (Some (obj_set cur k r))).
    { rewrite parse_lines_snoc. apply step_option; auto.
      rewrite E. apply optMatch_line; assumption. }
    split.
    + intros Pk. exists (obj_set cur k r). split; [exact S|]. split.
      * apply obj_get_set_same. exact Pk.
      * intros k' H. apply obj_get_set_other. exact H.
    + intros ->. rewrite S. unfold obj_set. rewrite streq_refl.
      destruct (parse_lines ls) as [hs c]. simpl in *. rewrite Hc.
      reflexivity.
  - intros No. rewrite parse_lines_snoc. apply step_ignored; [exact Hm|].
    destruct (optMatch (trim line)) as [[k v]|] eqn:Ho; [exfalso|reflexivity].
    apply No. apply optMatch_elim in Ho as (Wk & Vv & w & E & Hw & Fw);
      [|apply trim_tidy].
    apply value_ok_parts in Vv as (Hv & Fv & Hhd & _).
    exists k, w, v. repeat split; auto.
Qed.

Lemma option_line_recorded_witness :
  let ls := [js "Host a"; js "    User x"] in
  (exists cur',
     parse_lines (ls ++ [js "  Port   22  "]) = mkState [] (Some cur')
     /\ obj_get cur' (js "Port") = Some (js "22")
     /\ (forall k', k' <> js "Port" ->
         obj_get cur' k' = obj_get [(NAME, js "a"); (js "User", js "x")] k'))
  /\ parse_lines (ls ++ [js "__proto__ x"]) = parse_lines ls
  /\ parse_lines (ls ++ [js "  =  "]) = parse_lines ls.
Proof.
  split; [|split].
  - apply (proj1 (proj1 (option_line_recorded
                           [js "Host a"; js "    User x"]
                           (js "  Port   22  ")
                           [(NAME, js "a"); (js "User", js "x")]
                           eq_refl eq_refl eq_refl eq_refl)
                    (js "Port") (js "   ") (js "22")
                    eq_refl eq_refl
                    (fun H => nil_cons (eq_sym H)) eq_refl
                    (fun H => nil_cons (eq_sym H)) eq_refl eq_refl)).
    discriminate.
  - apply (proj2 (proj1 (option_line_recorded
                           [js "Host a"; js "    User x"]
                           (js "__proto__ x")
                           [(NAME, js "a"); (js "User", js "x")]
                           eq_refl eq_refl eq_refl eq_refl)
                    PROTO (js " ") (js "x")
                    eq_refl eq_refl
                    (fun H => nil_cons (eq_sym H)) eq_refl
                    (fun H => nil_cons (eq_sym H)) eq_refl eq_refl)).
    reflexivity.
  - apply (proj2 (option_line_recorded
                    [js "Host a"; js "    User x"] (js "  =  ")
                    [(NAME, js "a"); (js "User", js "x")]
                    eq_refl eq_refl eq_refl eq_refl)).
    intros (k & w & r & E & Wk & Hw & Fw & Hr & _).
    destruct k as [|c k]; [discriminate|].
    injection E as <- _. discriminate.
Defined.

(** C9 fails on the code: an option line whose key is [name] overwrites
    the name the [Host] line gave the record. *)
Theorem name_option_replaces_host_name :
  hostMatch (trim (js "Host a")) = Some (js "a")
  /\ parse (js "Host a
    name b") = [[(NAME, js "b")]].
Proof. vm_compute. split; reflexivity. Qed.

(* ------------------------------------------------------------------ *)
(** * The guarded assignments of add and edit *)

Lemma assign_field_eq :
  forall o key a b,
  assign_field o key a b =
    match or_else a b with
    | Some s => if truthy (or_else a b) then obj_set o key s else o
    | None => o
    end.
Proof.
  intros o key a b. unfold assign_field.
  destruct (or_else a b) as [s|]; reflexivity.
Qed.

Lemma assign_field_falsy :
  forall o key a b, truthy (or_else a b) = false ->
  assign_field o key a b = o.
Proof.
  intros o key a b H. rewrite assign_field_eq, H.
  destruct (or_else a b); reflexivity.
Qed.

Lemma assign_field_truthy :
  forall o key a b, truthy (or_else a b) = true ->
  exists s, or_else a b = Some s /\ assign_field o key a b = obj_set o key s.
Proof.
  intros o key a b H. rewrite assign_field_eq, H.
  destruct (or_else a b) as [s|]; [eauto | discriminate].
Qed.

Lemma assign_field_get_same :
  forall o key a b, key <> PROTO ->
  obj_get (assign_field o key a b) key
  = if truthy (or_else a b) then or_else a b else obj_get o key.
Proof.
  intros o key a b H. destruct (truthy (or_else a b)) eqn:T.
  - destruct (assign_field_truthy o key a b T) as (s & -> & ->).
    apply obj_get_set_same. exact H.
  - rewrite assign_field_falsy by exact T. reflexivity.
Qed.

Lemma assign_field_get_other :
  forall o key a b k, k <> key ->
  obj_get (assign_field o key a b) k = obj_get o k.
Proof.
  intros o key a b k H. destruct (truthy (or_else a b)) eqn:T.
  - destruct (assign_field_truthy o key a b T) as (s & _ & ->).
    apply obj_get_set_other. exact H.
  - rewrite assign_field_falsy by exact T. reflexivity.
Qed.

Lemma assign_field_has_other :
  forall o key a b k, k <> key ->
  obj_has (assign_field o key a b) k = obj_has o k.
Proof.
  intros o key a b k H. unfold obj_has.
  rewrite assign_field_get_other by exact H. reflexivity.
Qed.

Lemma assign_field_keys :
  forall o key a b, key <> PROTO -> array_index key = None ->
  keys (assign_field o key a b)
  = keys o ++ (if truthy (or_else a b) && negb (obj_has o key)
               then [key] else []).
Proof.
  intros o key a b H Hi. destruct (truthy (or_else a b)) eqn:T.
  - destruct (assign_field_truthy o key a b T) as (s & _ & ->).
    rewrite obj_set_plain by assumption.
    destruct (obj_has o key); simpl.
    + rewrite keys_update, app_nil_r. reflexivity.
    + unfold keys. rewrite map_app. reflexivity.
  - rewrite assign_field_falsy by exact T. simpl.
    rewrite app_nil_r. reflexivity.
Qed.

Lemma field_key_plain :
  forall fl, field_key fl <> PROTO /\ array_index (field_key fl) = None
             /\ field_key fl <> NAME.
Proof. intros []; repeat split; discriminate. Qed.

Lemma apply_fields_partial_update :
  forall h opts, partial_update h (apply_fields h opts) opts.
Proof.
  intros h opts. unfold partial_update, apply_fields. split; [|split].
  - intros fl.
    destruct fl; simpl supplied; simpl field_key;
      repeat first
        [ rewrite assign_field_get_same by discriminate
        | rewrite assign_field_get_other by discriminate ];
      reflexivity.
  - intros k Hk.
    pose proof (Hk F_host). pose proof (Hk F_user).
    pose proof (Hk F_port). pose proof (Hk F_identity).
    rewrite !assign_field_get_other by assumption. reflexivity.
  - rewrite !assign_field_keys by (try discriminate; reflexivity).
    rewrite !assign_field_has_other by discriminate.
    unfold created, all_fields. simpl filter. simpl supplied.
    simpl field_key.
    destruct (truthy (or_else (host opts) (HostName opts))
              && negb (obj_has h K_HostName));
    destruct (truthy (or_else (user opts) (User opts))
              && negb (obj_has h K_User));
    destruct (truthy (or_else (port opts) (Port opts))
              && negb (obj_has h K_Port));
    destruct (truthy (or_else (identity opts) (IdentityFile opts))
              && negb (obj_has h K_IdentityFile));
    rewrite <- ?app_assoc; reflexivity.
Qed.

Lemma assign_field_wf :
  forall o fl a b,
  wf_record o ->
  (forall v, or_else a b = Some v -> nonempty v = true -> value_ok v = true) ->
  wf_record (assign_field o (field_key fl) a b).
Proof.
  intros o fl a b W Hv. destruct (truthy (or_else a b)) eqn:T.
  - destruct (assign_field_truthy o (field_key fl) a b T) as (s & E & ->).
    apply wf_set; [exact W|]. apply opt_ok_parts.
    rewrite E in T. simpl in T.
    destruct fl; repeat split; try reflexivity; apply Hv; assumption.
  - rewrite assign_field_falsy by exact T. exact W.
Qed.

Lemma fields_ok_supplied :
  forall opts fl v, fields_ok opts = true ->
  supplied fl opts = Some v -> nonempty v = true -> value_ok v = true.
Proof.
  intros opts fl v F E N. unfold fields_ok, all_fields in F. simpl in F.
  repeat rewrite andb_true_iff in F. destruct F as (F1 & F2 & F3 & F4 & _).
  destruct fl; simpl in E;
    [rewrite E in F1 | rewrite E in F2 | rewrite E in F3 | rewrite E in F4];
    rewrite N in *; simpl in *; assumption.
Qed.

Lemma apply_fields_wf :
  forall h opts, wf_record h -> fields_ok opts = true ->
  wf_record (apply_fields h opts).
Proof.
  intros h opts W F. unfold apply_fields.
  apply (assign_field_wf _ F_identity).
  2:{ intros v. apply (fields_ok_supplied opts F_identity v F). }
  apply (assign_field_wf _ F_port).
  2:{ intros v. apply (fields_ok_supplied opts F_port v F). }
  apply (assign_field_wf _ F_user).
  2:{ intros v. apply (fields_ok_supplied opts F_user v F). }
  apply (assign_field_wf _ F_host).
  2:{ intros v. apply (fields_ok_supplied opts F_host v F). }
  exact W.
Qed.

(* ------------------------------------------------------------------ *)
(** * Searching the collection *)

Lemma find_absent :
  forall (p : obj -> bool) hs,
  (forall h, In h hs -> p h = false) -> find p hs = None.
Proof.
  induction hs as [|h hs IH]; intros H; [reflexivity|].
  simpl. rewrite (H h) by (left; reflexivity).
  apply IH. intros x Hx. apply H. right. exact Hx.
Qed.

Lemma find_first :
  forall (p : obj -> bool) pre h post,
  (forall x, In x pre -> p x = false) -> p h = true ->
  find p (pre ++ h :: post) = Some h.
Proof.
  induction pre as [|x pre IH]; intros h post Hpre Hh; simpl.
  - rewrite Hh. reflexivity.
  - rewrite (Hpre x) by (left; reflexivity).
    apply IH; [|exact Hh]. intros y Hy. apply Hpre. right. exact Hy.
Qed.

Lemma find_none_all :
  forall (p : obj -> bool) hs, find p hs = None ->
  forall h, In h hs -> p h = false.
Proof.
  induction hs as [|x hs IH]; intros H h Hin; [destruct Hin|].
  simpl in H. destruct (p x) eqn:E; [discriminate|].
  destruct Hin as [<-|Hin]; [exact E | apply IH; assumption].
Qed.

Lemma find_some_split :
  forall (p : obj -> bool) hs h, find p hs = Some h ->
  exists pre post, hs = pre ++ h :: post
                   /\ (forall x, In x pre -> p x = false) /\ p h = true.
Proof.
  induction hs as [|x hs IH]; intros h H; [discriminate|].
  simpl in H. destruct (p x) eqn:E.
  - injection H as <-. exists [], hs. repeat split; auto.
    intros y [].
  - destruct (IH _ H) as (pre & post & -> & Hpre & Hh).
    exists (x :: pre), post. repeat split; auto.
    intros y [<-|Hy]; auto.
Qed.

Lemma edit_first_at :
  forall (p : obj -> bool) g pre h post,
  (forall x, In x pre -> p x = false) -> p h = true ->
  edit_first p g (pre ++ h :: post) = pre ++ g h :: post.
Proof.
  induction pre as [|x pre IH]; intros h post Hpre Hh; simpl.
  - rewrite Hh. reflexivity.
  - rewrite (Hpre x) by (left; reflexivity). f_equal.
    apply IH; [|exact Hh]. intros y Hy. apply Hpre. right. exact Hy.
Qed.

Lemma findIndex_absent :
  forall (p : obj -> bool) hs,
  (forall h, In h hs -> p h = false) -> findIndex p hs = None.
Proof.
  induction hs as [|h hs IH]; intros H; [reflexivity|].
  simpl. rewrite (H h) by (left; reflexivity).
  rewrite IH; [reflexivity|]. intros x Hx. apply H. right. exact Hx.
Qed.

Lemma findIndex_first :
  forall (p : obj -> bool) pre h post,
  (forall x, In x pre -> p x = false) -> p h = true ->
  findIndex p (pre ++ h :: post) = Some (List.length pre).
Proof.
  induction pre as [|x pre IH]; intros h post Hpre Hh; simpl.
  - rewrite Hh. reflexivity.
  - rewrite (Hpre x) by (left; reflexivity).
    rewrite IH; auto. intros y Hy. apply Hpre. right. exact Hy.
Qed.

Lemma splice1_at :
  forall pre (h : obj) post,
  splice1 (List.length pre) (pre ++ h :: post) = pre ++ post.
Proof.
  intros pre h post. unfold splice1.
  induction pre as [|x pre IH]; [reflexivity|].
  simpl. f_equal. exact IH.
Qed.

(* ------------------------------------------------------------------ *)
(** * What UTF-8 keeps of a string *)

Lemma low_not_high :
  forall c, is_low_surrogate c = true -> is_high_surrogate c = false.
Proof.
  unfold is_low_surrogate, is_high_surrogate. intros c H.
  apply andb_true_iff in H as [H _]. apply N.leb_le in H.
  apply andb_false_iff. right. apply N.leb_gt. lia.
Qed.

Lemma surrogate_parts :
  forall c, is_surrogate c = false ->
  is_low_surrogate c = false /\ is_high_surrogate c = false.
Proof.
  unfold is_surrogate. intros c H. apply orb_false_iff in H. tauto.
Qed.

Lemma no_surrogate_cons :
  forall c w, no_surrogate (c :: w) = true ->
  is_surrogate c = false /\ no_surrogate w = true.
Proof.
  unfold no_surrogate. simpl. intros c w H.
  apply andb_true_iff in H as [H1 H2]. apply negb_true_iff in H1. auto.
Qed.

Lemma no_surrogate_app :
  forall a b, no_surrogate (a ++ b) = no_surrogate a && no_surrogate b.
Proof. intros a b. apply forallb_app. Qed.

Lemma plain_low_next :
  forall w, no_surrogate w = true -> low_next w = false.
Proof.
  intros [|c w] H; [reflexivity|]. apply no_surrogate_cons in H as [H _].
  apply surrogate_parts in H as [H _]. exact H.
Qed.

Lemma well_formed_from_length :
  forall s b, List.length (well_formed_from b s) = List.length s.
Proof.
  induction s as [|c s IH]; intros b; simpl; [reflexivity|].
  rewrite IH. reflexivity.
Qed.

Lemma well_formed_from_plain :
  forall w b, no_surrogate w = true -> well_formed_from b w = w.
Proof.
  induction w as [|c w IH]; intros b H; [reflexivity|].
  apply no_surrogate_cons in H as [Hc H].
  apply surrogate_parts in Hc as [L Hh]. simpl. rewrite L, Hh.
  rewrite IH by exact H. reflexivity.
Qed.

(** A code unit that is no surrogate separates what is before it from what
    is after it. *)
Lemma well_formed_from_sep :
  forall a b c s, is_surrogate c = false ->
  well_formed_from b (a ++ c :: s)
  = well_formed_from b a ++ c :: well_formed_from false s.
Proof.
  induction a as [|x a IH]; intros b c s H.
  - apply surrogate_parts in H as [L Hh]. simpl. rewrite L, Hh. reflexivity.
  - simpl. rewrite IH by exact H.
    replace (low_next (a ++ c :: s)) with (low_next a); [reflexivity|].
    destruct a as [|y a]; [|reflexivity]. simpl.
    apply surrogate_parts in H as [L _]. rewrite L. reflexivity.
Qed.

Lemma well_formed_from_suffix :
  forall w s b, no_surrogate w = true ->
  well_formed_from b (s ++ w) = well_formed_from b s ++ w.
Proof.
  intros w. induction s as [|x s IH]; intros b H.
  - apply well_formed_from_plain. exact H.
  - simpl. rewrite IH by exact H.
    replace (low_next (s ++ w)) with (low_next s); [reflexivity|].
    destruct s as [|y s]; [|reflexivity]. simpl.
    rewrite plain_low_next by exact H. reflexivity.
Qed.

Lemma toWellFormed_prefix :
  forall w s, no_surrogate w = true ->
  toWellFormed (w ++ s) = w ++ toWellFormed s.
Proof.
  unfold toWellFormed. induction w as [|c w IH]; intros s H; [reflexivity|].
  apply no_surrogate_cons in H as [Hc H].
  apply surrogate_parts in Hc as [L Hh]. simpl. rewrite L, Hh.
  rewrite IH by exact H. reflexivity.
Qed.

Lemma toWellFormed_suffix :
  forall w s, no_surrogate w = true ->
  toWellFormed (s ++ w) = toWellFormed s ++ w.
Proof. intros w s H. apply well_formed_from_suffix, H. Qed.

Lemma toWellFormed_sep :
  forall a c s, is_surrogate c = false ->
  toWellFormed (a ++ c :: s) = toWellFormed a ++ c :: toWellFormed s.
Proof. intros a c s H. apply well_formed_from_sep, H. Qed.

Lemma toWellFormed_plain :
  forall w, no_surrogate w = true -> toWellFormed w = w.
Proof. intros w H. apply well_formed_from_plain, H. Qed.

Lemma low_next_after_high :
  forall s, low_next (well_formed_from true s) = low_next s.
Proof.
  intros [|d s]; [reflexivity|]. simpl.
  destruct (is_low_surrogate d) eqn:L; [exact L|].
  destruct (is_high_surrogate d); [|exact L].
  destruct (low_next s); [exact L | reflexivity].
Qed.

(** A well-formed form is its own well-formed form. *)
Lemma well_formed_from_fixed :
  forall s b,
  well_formed_from (b && low_next s) (well_formed_from b s)
  = well_formed_from b s.
Proof.
  assert (R : is_low_surrogate REPLACEMENT = false
              /\ is_high_surrogate REPLACEMENT = false) by (split; reflexivity).
  destruct R as [RL RH].
  induction s as [|c s IH]; intros b; [reflexivity|].
  cbn [low_next well_formed_from].
  destruct (is_low_surrogate c) eqn:L.
  - rewrite (low_not_high c L), andb_true_r.
    specialize (IH false). simpl andb in IH.
    destruct b; cbn [well_formed_from andb];
      rewrite ?L, ?RL, ?RH, ?(low_not_high c L), IH; reflexivity.
  - rewrite andb_false_r. destruct (is_high_surrogate c) eqn:Hh.
    + specialize (IH true). simpl andb in IH.
      destruct (low_next s) eqn:N; cbn [well_formed_from].
      * rewrite L, Hh, low_next_after_high, N, IH. reflexivity.
      * rewrite RL, RH, IH. reflexivity.
    + specialize (IH false). simpl andb in IH.
      cbn [well_formed_from]. rewrite L, Hh, IH. reflexivity.
Qed.

Lemma toWellFormed_idempotent :
  forall s, toWellFormed (toWellFormed s) = toWellFormed s.
Proof. intros s. exact (well_formed_from_fixed s false). Qed.

Lemma isWellFormed_eq :
  forall s, isWellFormed s = true <-> toWellFormed s = s.
Proof. intros s. apply streq_eq. Qed.

(** A class of code units that does not tell a surrogate from U+FFFD does
    not tell a string from its well-formed form. *)
Lemma map_well_formed_from :
  forall (B : Type) (p : code_unit -> B),
  (forall c, is_surrogate c = true -> p c = p REPLACEMENT) ->
  forall s b, map p (well_formed_from b s) = map p s.
Proof.
  intros B p H. induction s as [|c s IH]; intros b; [reflexivity|].
  simpl. rewrite IH. f_equal. unfold is_surrogate in H.
  destruct (is_low_surrogate c) eqn:L.
  - destruct b; [reflexivity|]. symmetry. apply H. rewrite L.
    apply orb_true_r.
  - destruct (is_high_surrogate c) eqn:Hh; [|reflexivity].
    destruct (low_next s); [reflexivity|]. symmetry. apply H.
    rewrite Hh. reflexivity.
Qed.

Lemma forallb_by_map :
  forall (p : code_unit -> bool) s,
  forallb p s = forallb (fun x => x) (map p s).
Proof.
  intros p s. induction s as [|c s IH]; [reflexivity|].
  simpl. rewrite IH. reflexivity.
Qed.

Lemma head_ok_by_map :
  forall s, head_ok s = match map is_space s with
                        | b :: _ => negb b
                        | [] => true
                        end.
Proof. intros [|c s]; reflexivity. Qed.

Lemma surrogate_bounds :
  forall c, is_surrogate c = true -> (55296 <= c /\ c <= 57343)%N.
Proof.
  unfold is_surrogate, is_high_surrogate, is_low_surrogate. intros c H.
  apply orb_true_iff in H as [H|H]; apply andb_true_iff in H as [H1 H2];
    apply N.leb_le in H1, H2; lia.
Qed.

Lemma surrogate_not_space :
  forall c, is_surrogate c = true -> is_space c = false.
Proof.
  intros c H. apply surrogate_bounds in H. unfold is_space.
  repeat rewrite orb_false_iff. repeat rewrite andb_false_iff.
  repeat rewrite N.leb_gt. repeat rewrite N.eqb_neq.
  repeat split; lia.
Qed.

Lemma surrogate_dot : forall c, is_surrogate c = true -> dot c = true.
Proof.
  intros c H. apply surrogate_bounds in H.
  unfold dot, is_line_terminator. apply negb_true_iff.
  repeat rewrite orb_false_iff. repeat rewrite N.eqb_neq.
  repeat split; lia.
Qed.

Lemma surrogate_not_word :
  forall c, is_surrogate c = true -> is_word c = false.
Proof.
  intros c H. apply surrogate_bounds in H. unfold is_word.
  repeat rewrite orb_false_iff. repeat rewrite andb_false_iff.
  repeat rewrite N.leb_gt. repeat rewrite N.eqb_neq.
  repeat split; lia.
Qed.

Lemma space_no_surrogate :
  forall w, forallb is_space w = true -> no_surrogate w = true.
Proof.
  intros w H. unfold no_surrogate. rewrite forallb_forall in *.
  intros c Hin. specialize (H c Hin).
  destruct (is_surrogate c) eqn:S; [|reflexivity].
  rewrite (surrogate_not_space c S) in H. discriminate.
Qed.

Lemma word_no_surrogate :
  forall k, forallb is_word k = true -> no_surrogate k = true.
Proof.
  intros k H. unfold no_surrogate. rewrite forallb_forall in *.
  intros c Hin. specialize (H c Hin).
  destruct (is_surrogate c) eqn:S; [|reflexivity].
  rewrite (surrogate_not_word c S) in H. discriminate.
Qed.

Lemma letter_no_surrogate :
  forall u l c, (u < 55296)%N -> (l < 55296)%N ->
  letter_i u l c = true -> is_surrogate c = false.
Proof.
  intros u l c Hu Hl H. destruct (is_surrogate c) eqn:S; [|reflexivity].
  apply surrogate_bounds in S. unfold letter_i in H.
  apply orb_true_iff in H as [H|H]; apply N.eqb_eq in H; lia.
Qed.

Lemma hostlike_no_surrogate :
  forall k, hostlike k = true -> no_surrogate k = true.
Proof.
  intros [|a [|b [|c [|d [|e k]]]]] H; try discriminate H.
  unfold hostlike in H. repeat rewrite andb_true_iff in H.
  destruct H as (((Ha & Hb) & Hc) & Hd).
  unfold no_surrogate. simpl.
  rewrite (letter_no_surrogate 72 104 a) by (exact Ha || reflexivity).
  rewrite (letter_no_surrogate 79 111 b) by (exact Hb || reflexivity).
  rewrite (letter_no_surrogate 83 115 c) by (exact Hc || reflexivity).
  rewrite (letter_no_surrogate 84 116 d) by (exact Hd || reflexivity).
  reflexivity.
Qed.

Lemma forallb_toWellFormed :
  forall (p : code_unit -> bool),
  (forall c, is_surrogate c = true -> p c = p REPLACEMENT) ->
  forall s, forallb p (toWellFormed s) = forallb p s.
Proof.
  intros p H s. rewrite !(forallb_by_map p). unfold toWellFormed.
  rewrite map_well_formed_from by exact H. reflexivity.
Qed.

Lemma space_class :
  forall c, is_surrogate c = true -> is_space c = is_space REPLACEMENT.
Proof. intros c H. rewrite (surrogate_not_space c H). reflexivity. Qed.

Lemma head_ok_toWellFormed :
  forall s, head_ok (toWellFormed s) = head_ok s.
Proof.
  intros s. rewrite !head_ok_by_map. unfold toWellFormed.
  rewrite map_well_formed_from by exact space_class. reflexivity.
Qed.

Lemma head_ok_rev_toWellFormed :
  forall s, head_ok (rev (toWellFormed s)) = head_ok (rev s).
Proof.
  intros s. rewrite !head_ok_by_map, !map_rev. unfold toWellFormed.
  rewrite map_well_formed_from by exact space_class. reflexivity.
Qed.

Lemma nonempty_toWellFormed :
  forall s, nonempty (toWellFormed s) = nonempty s.
Proof. intros [|c s]; reflexivity. Qed.

(** The shape of a value is that of its well-formed form. *)
Lemma value_ok_toWellFormed :
  forall v, value_ok (toWellFormed v) = value_ok v.
Proof.
  intros v. unfold value_ok, tidy.
  rewrite nonempty_toWellFormed, head_ok_toWellFormed,
    head_ok_rev_toWellFormed.
  rewrite (forallb_toWellFormed dot); [reflexivity|].
  intros c H. rewrite (surrogate_dot c H). reflexivity.
Qed.

Lemma no_LF_toWellFormed :
  forall l, no_LF l -> no_LF (toWellFormed l).
Proof.
  unfold no_LF. intros l H.
  rewrite (forallb_toWellFormed (fun c => negb (c =? LF)%N)); [exact H|].
  intros c S. apply surrogate_bounds in S.
  replace (c =? LF)%N with false; [reflexivity|].
  symmetry. apply N.eqb_neq. unfold LF. lia.
Qed.

(** ** Lines and trimming *)

Lemma forallb_rev :
  forall (p : code_unit -> bool) s, forallb p (rev s) = forallb p s.
Proof.
  intros p s. induction s as [|c s IH]; [reflexivity|].
  simpl. rewrite forallb_app, IH. simpl. rewrite andb_true_r.
  apply andb_comm.
Qed.

Lemma join_lines_cons :
  forall l l' ls,
  join_lines (l :: l' :: ls) = l ++ LF :: join_lines (l' :: ls).
Proof. reflexivity. Qed.

Lemma join_split : forall s, join_lines (split_lines s) = s.
Proof.
  induction s as [|c s IH]; [reflexivity|]. cbn [split_lines].
  pose proof (split_lines_nonempty s) as Hne.
  destruct (split_lines s) as [|l ls]; [congruence|].
  destruct (c =? LF)%N eqn:E.
  - apply N.eqb_eq in E. subst c.
    rewrite join_lines_cons, IH. reflexivity.
  - rewrite <- IH. destruct ls; reflexivity.
Qed.

Lemma split_lines_no_LF : forall s, Forall no_LF (split_lines s).
Proof.
  induction s as [|c s IH]; simpl.
  - constructor; [reflexivity | constructor].
  - destruct (c =? LF)%N eqn:E.
    + constructor; [reflexivity | exact IH].
    + destruct (split_lines s) as [|l ls].
      * constructor; [|constructor]. unfold no_LF. simpl. rewrite E.
        reflexivity.
      * inversion IH; subst. constructor; [|assumption].
        unfold no_LF in *. simpl. rewrite E. assumption.
Qed.

Lemma toWellFormed_join :
  forall ls, toWellFormed (join_lines ls) = join_lines (map toWellFormed ls).
Proof.
  induction ls as [|l ls IH]; [reflexivity|].
  destruct ls as [|l' ls]; [reflexivity|].
  rewrite join_lines_cons, toWellFormed_sep by reflexivity.
  rewrite IH. reflexivity.
Qed.

(** The lines of the well-formed form are the well-formed forms of the
    lines. *)
Lemma split_lines_toWellFormed :
  forall s,
  split_lines (toWellFormed s) = map toWellFormed (split_lines s).
Proof.
  intros s. rewrite <- (join_split s) at 1. rewrite toWellFormed_join.
  apply split_join.
  - pose proof (split_lines_nonempty s). destruct (split_lines s);
      [congruence | discriminate].
  - apply Forall_map.
    eapply Forall_impl; [|apply split_lines_no_LF].
    intros l H. apply no_LF_toWellFormed, H.
Qed.

Lemma trim_parts :
  forall s, exists a b,
  s = a ++ trim s ++ b
  /\ forallb is_space a = true /\ forallb is_space b = true.
Proof.
  intros s. unfold trim.
  destruct (dropwhile_suffix is_space s) as (a & Ea & Fa).
  destruct (dropwhile_suffix is_space (rev (dropwhile is_space s)))
    as (b & Eb & Fb).
  exists a, (rev b). split; [|split; [exact Fa|]].
  - rewrite <- rev_app_distr, <- Eb, rev_involutive. exact Ea.
  - rewrite forallb_rev. exact Fb.
Qed.

Lemma app_inv_length :
  forall (A : Type) (a a' b b' : list A),
  List.length a = List.length a' -> a ++ b = a' ++ b' -> a = a' /\ b = b'.
Proof.
  intros A. induction a as [|x a IH]; intros [|x' a'] b b' L E;
    try discriminate L.
  - auto.
  - simpl in *. injection E as -> E. injection L as L.
    destruct (IH _ _ _ L E) as [-> ->]. auto.
Qed.

Lemma toWellFormed_trim :
  forall l, toWellFormed l = l -> toWellFormed (trim l) = trim l.
Proof.
  intros l H. destruct (trim_parts l) as (a & b & E & Fa & Fb).
  rewrite E in H at 1 2.
  rewrite toWellFormed_prefix in H by (apply space_no_surrogate, Fa).
  apply app_inv_head in H.
  rewrite toWellFormed_suffix in H by (apply space_no_surrogate, Fb).
  apply app_inv_tail in H. exact H.
Qed.

(** A capture that follows a key or keyword and white space in a
    well-formed line is well formed. *)
Lemma toWellFormed_capture :
  forall k w v, no_surrogate k = true -> forallb is_space w = true ->
  toWellFormed (k ++ w ++ v) = k ++ w ++ v -> toWellFormed v = v.
Proof.
  intros k w v Hk Hw H. rewrite app_assoc in H.
  rewrite toWellFormed_prefix in H.
  - apply app_inv_head in H. exact H.
  - rewrite no_surrogate_app, Hk, (space_no_surrogate w Hw). reflexivity.
Qed.

Lemma hostMatch_parts :
  forall t n, tidy t = true -> hostMatch t = Some n ->
  exists k w, t = k ++ w ++ n /\ hostlike k = true
              /\ forallb is_space w = true.
Proof.
  intros t n Ht H. unfold hostMatch in H. rewrite exec_host_re in H.
  destruct t as [|a [|b [|c [|d rest]]]]; try discriminate.
  destruct (hostlike [a; b; c; d]) eqn:Hk; [|discriminate].
  destruct (exec tail_re [] rest) as [r|] eqn:E; [|discriminate].
  unfold tidy in Ht. apply andb_true_iff in Ht as [_ Hl].
  assert (Hrest : rest <> []) by (intros ->; discriminate).
  change (a :: b :: c :: d :: rest) with ([a; b; c; d] ++ rest) in Hl.
  pose proof (head_ok_rev_suffix _ _ Hl Hrest) as Hl'.
  apply exec_tail_elim in E as (w & v & -> & Hw & Fw & Hv & Fv & Hh & ->);
    [|exact Hl'].
  simpl in H. injection H as <-.
  exists [a; b; c; d], w. auto.
Qed.

(** ** Records *)

Lemma obj_get_stored :
  forall o k, obj_get (stored o) k = option_map toWellFormed (obj_get o k).
Proof.
  induction o as [|[k' v'] o IH]; intros k; [reflexivity|].
  simpl. destruct (streq k' k); [reflexivity | apply IH].
Qed.

Lemma obj_has_stored : forall o k, obj_has (stored o) k = obj_has o k.
Proof.
  intros o k. unfold obj_has. rewrite obj_get_stored.
  destruct (obj_get o k); reflexivity.
Qed.

Lemma keys_stored : forall o, keys (stored o) = keys o.
Proof.
  intros o. unfold keys, stored. rewrite map_map. reflexivity.
Qed.

Lemma stored_app : forall a b, stored (a ++ b) = stored a ++ stored b.
Proof. intros a b. apply map_app. Qed.

Lemma stored_update :
  forall o k v,
  stored (obj_update o k v) = obj_update (stored o) k (toWellFormed v).
Proof.
  induction o as [|[k' v'] o IH]; intros k v; [reflexivity|].
  simpl. destruct (streq k' k); simpl; [reflexivity|].
  rewrite IH. reflexivity.
Qed.

Lemma stored_insert_index :
  forall o i k v,
  stored (obj_insert_index o i k v)
  = obj_insert_index (stored o) i k (toWellFormed v).
Proof.
  induction o as [|[k' v'] o IH]; intros i k v; [reflexivity|].
  simpl. destruct (array_index k') as [j|]; [|reflexivity].
  destruct (j <? i)%N; simpl; [|reflexivity]. rewrite IH. reflexivity.
Qed.

Lemma stored_define :
  forall o k v,
  stored (obj_define o k v) = obj_define (stored o) k (toWellFormed v).
Proof.
  intros o k v. unfold obj_define. rewrite obj_has_stored.
  destruct (obj_has o k); [apply stored_update|].
  destruct (array_index k); [apply stored_insert_index|].
  apply stored_app.
Qed.

Lemma stored_set :
  forall o k v,
  stored (obj_set o k v) = obj_set (stored o) k (toWellFormed v).
Proof.
  intros o k v. unfold obj_set. destruct (streq k PROTO); [reflexivity|].
  apply stored_define.
Qed.

Lemma stored_set_fixed :
  forall o k v, stored o = o -> toWellFormed v = v ->
  stored (obj_set o k v) = obj_set o k v.
Proof. intros o k v Ho Hv. rewrite stored_set, Ho, Hv. reflexivity. Qed.

Lemma stored_fixed_values :
  forall o, stored o = o <->
  (forall k v, In (k, v) o -> toWellFormed v = v).
Proof.
  induction o as [|[k v] o IH]; simpl.
  - split; [intros _ k v [] | reflexivity].
  - split.
    + intros H. injection H as Hv Ho. intros k' v' [E|Hin].
      * injection E as <- <-. exact Hv.
      * apply (proj1 IH Ho k' v' Hin).
    + intros H. rewrite (H k v) by (left; reflexivity). f_equal.
      apply IH. intros k' v' Hin. apply (H k' v'). right. exact Hin.
Qed.

Lemma obj_get_in :
  forall o k v, obj_get o k = Some v -> exists k', In (k', v) o.
Proof.
  induction o as [|[k' v'] o IH]; intros k v H; [discriminate|].
  simpl in H. destruct (streq k' k).
  - injection H as <-. exists k'. left. reflexivity.
  - destruct (IH _ _ H) as [k'' Hin]. exists k''. right. exact Hin.
Qed.

Lemma stored_fixed_get :
  forall o k v, stored o = o -> obj_get o k = Some v -> toWellFormed v = v.
Proof.
  intros o k v Ho H. destruct (obj_get_in _ _ _ H) as [k' Hin].
  apply (proj1 (stored_fixed_values o) Ho k' v Hin).
Qed.

Lemma stored_idempotent : forall o, stored (stored o) = stored o.
Proof.
  intros o. unfold stored. rewrite map_map. apply map_ext.
  intros [k v]. simpl. rewrite toWellFormed_idempotent. reflexivity.
Qed.

Lemma map_stored_fixed :
  forall hs, Forall (fun o => stored o = o) hs -> map stored hs = hs.
Proof.
  induction hs as [|h hs IH]; intros F; [reflexivity|].
  inversion F; subst. simpl. rewrite IH by assumption. congruence.
Qed.

Lemma well_formed_record_stored :
  forall o, well_formed_record o = true <-> stored o = o.
Proof.
  intros o. rewrite stored_fixed_values. unfold well_formed_record.
  rewrite forallb_forall. split.
  - intros H k v Hin. apply isWellFormed_eq. apply (H (k, v) Hin).
  - intros H [k v] Hin. apply isWellFormed_eq. apply (H k v Hin).
Qed.

Lemma forallb_stored :
  forall (q : jsstring * jsstring -> bool),
  (forall k v, q (k, toWellFormed v) = q (k, v)) ->
  forall o, forallb q (stored o) = forallb q o.
Proof.
  intros q H. induction o as [|[k v] o IH]; [reflexivity|].
  simpl. rewrite H, IH. reflexivity.
Qed.

Lemma ascending_stored : forall o, ascending (stored o) = ascending o.
Proof.
  induction o as [|[k v] o IH]; [reflexivity|].
  simpl. destruct (array_index k) as [i|]; [|reflexivity].
  rewrite IH, (forallb_stored (index_above i)); reflexivity.
Qed.

Lemma distinct_stored : forall o, distinct (stored o) = distinct o.
Proof.
  induction o as [|[k v] o IH]; [reflexivity|].
  simpl. rewrite IH, obj_has_stored. reflexivity.
Qed.

Lemma opt_ok_stored :
  forall k v, opt_ok (k, toWellFormed v) = opt_ok (k, v).
Proof.
  intros k v. unfold opt_ok. simpl. rewrite value_ok_toWellFormed.
  reflexivity.
Qed.

(** A record in shape is stored as a record in shape. *)
Lemma wf_stored : forall o, wf_record o -> wf_record (stored o).
Proof.
  intros o (ints & n & strs & -> & (A & Vn & Fi & Fs & Pl & D)).
  exists (stored ints), (toWellFormed n), (stored strs).
  split; [apply stored_app|].
  repeat split.
  - rewrite ascending_stored. exact A.
  - rewrite value_ok_toWellFormed. exact Vn.
  - rewrite (forallb_stored opt_ok opt_ok_stored). exact Fi.
  - rewrite (forallb_stored opt_ok opt_ok_stored). exact Fs.
  - rewrite (forallb_stored plain); [exact Pl | reflexivity].
  - change ((NAME, toWellFormed n) :: stored strs)
      with (stored ((NAME, n) :: strs)).
    rewrite distinct_stored. exact D.
Qed.

Lemma wf_keys_no_surrogate :
  forall o, wf_record o ->
  forall k v, In (k, v) o -> no_surrogate k = true.
Proof.
  intros o (ints & n & strs & -> & S) k v Hin.
  pose proof (wf_all_opt_ok _ _ _ S) as O. rewrite forallb_forall in O.
  specialize (O _ Hin). apply opt_ok_parts in O as (W & _).
  apply word_parts in W as [_ W]. apply word_no_surrogate, W.
Qed.

(** ** The text of a collection, as the file holds it *)

Lemma name_text_stored :
  forall h, name_text (stored h) = toWellFormed (name_text h).
Proof.
  intros h. unfold name_text. rewrite obj_get_stored.
  destruct (obj_get h NAME); reflexivity.
Qed.

Lemma option_lines_stored :
  forall o, (forall k v, In (k, v) o -> no_surrogate k = true) ->
  map toWellFormed (option_lines o) = option_lines (stored o).
Proof.
  induction o as [|[k v] o IH]; intros H; [reflexivity|].
  change (stored ((k, v) :: o)) with ((k, toWellFormed v) :: stored o).
  rewrite !option_lines_cons, map_app.
  apply f_equal2.
  2:{ apply IH. intros k' v' Hin. apply (H k' v'). right. exact Hin. }
  destruct (streq k NAME); [reflexivity|]. cbn [map]. f_equal.
  rewrite (app_assoc (js "    ") k), (app_assoc (js "    " ++ k) (js " ")).
  rewrite toWellFormed_prefix.
  - rewrite <- !app_assoc. reflexivity.
  - rewrite !no_surrogate_app, (H k v) by (left; reflexivity).
    reflexivity.
Qed.

Lemma host_lines_stored :
  forall h, wf_record h ->
  map toWellFormed (host_lines h) = host_lines (stored h).
Proof.
  intros h W. unfold host_lines. cbn [map].
  rewrite (toWellFormed_prefix (js "Host ")) by reflexivity.
  rewrite name_text_stored, map_app. f_equal. apply f_equal2; [|reflexivity].
  apply option_lines_stored, wf_keys_no_surrogate, W.
Qed.

Lemma lines_stored :
  forall hs, Forall wf_record hs ->
  map toWellFormed (flat_map host_lines hs)
  = flat_map host_lines (map stored hs).
Proof.
  induction hs as [|h hs IH]; intros F; [reflexivity|].
  inversion F; subst.
  change (flat_map host_lines (h :: hs))
    with (host_lines h ++ flat_map host_lines hs).
  rewrite map_app, host_lines_stored, IH by assumption. reflexivity.
Qed.

(** The file holds, of a collection of records in shape, the text of the
    records as stored. *)
Lemma toWellFormed_stringify :
  forall hs, Forall wf_record hs ->
  toWellFormed (stringify hs) = stringify (map stored hs).
Proof.
  intros hs F. unfold stringify.
  rewrite toWellFormed_join, lines_stored by exact F. reflexivity.
Qed.

Lemma wf_map_stored :
  forall hs, Forall wf_record hs -> Forall wf_record (map stored hs).
Proof.
  intros hs F. apply Forall_map. eapply Forall_impl; [|exact F].
  intros o W. apply wf_stored, W.
Qed.

(** ** What the parser reads from a well-formed text *)

Lemma step_stored :
  forall st line, toWellFormed line = line ->
  pstate_stored st -> pstate_stored (step st line).
Proof.
  intros st line Hl [Hh Hc]. unfold step.
  pose proof (trim_tidy line) as T.
  pose proof (toWellFormed_trim line Hl) as Ht.
  set (t := trim line) in *.
  destruct (negb (nonempty t) || starts_with_hash t); [split; assumption|].
  destruct (hostMatch t) as [n|] eqn:EH.
  - split; simpl.
    + unfold commit. destruct (current st) as [c|]; [|exact Hh].
      apply Forall_app. split; [exact Hh|]. constructor; [|constructor].
      apply Hc. reflexivity.
    + intros c E. injection E as <-.
      destruct (hostMatch_parts t n T EH) as (k & w & E & Hk & Hw).
      rewrite E in Ht.
      change (obj_define [] NAME n) with [(NAME, n)]. simpl.
      rewrite (toWellFormed_capture k w n); auto.
      apply hostlike_no_surrogate, Hk.
  - destruct (current st) as [c|] eqn:EC; [|split; [assumption|]].
    2:{ intros c E. rewrite EC in E. discriminate. }
    destruct (optMatch t) as [[k v]|] eqn:EO.
    2:{ split; [assumption|]. intros c' E. rewrite EC in E. auto. }
    split; [exact Hh|]. simpl. intros c' E. injection E as <-.
    apply optMatch_elim in EO as (Wk & _ & w & E & _ & Fw); [|exact T].
    rewrite E in Ht. apply word_parts in Wk as [_ Wk].
    apply stored_set_fixed; [apply Hc; reflexivity|].
    apply (toWellFormed_capture k w v); auto.
    apply word_no_surrogate, Wk.
Qed.

Lemma steps_stored :
  forall ls st, Forall (fun l => toWellFormed l = l) ls ->
  pstate_stored st -> pstate_stored (fold_left step ls st).
Proof.
  induction ls as [|l ls IH]; intros st F H; [exact H|].
  inversion F; subst. simpl. apply IH; [assumption|].
  apply step_stored; assumption.
Qed.

(** Every value the parser takes from a well-formed text is well formed. *)
Lemma parse_stored :
  forall content,
  Forall (fun o => stored o = o) (parse (toWellFormed content)).
Proof.
  intros content. unfold parse.
  destruct (negb (nonempty (toWellFormed content))
            || negb (nonempty (trim (toWellFormed content))));
    [constructor|].
  rewrite split_lines_toWellFormed.
  assert (P : pstate_stored
                (parse_lines (map toWellFormed (split_lines content)))).
  { apply steps_stored.
    - apply Forall_map, Forall_forall. intros l _.
      apply toWellFormed_idempotent.
    - split; [constructor | discriminate]. }
  destruct P as [Hh Hc]. unfold commit.
  destruct (current _) as [c|]; [|exact Hh].
  apply Forall_app. split; [exact Hh|]. constructor; [|constructor].
  apply Hc. reflexivity.
Qed.

Lemma read_wf : forall f, Forall wf_record (read f).
Proof.
  intros f. unfold read.
  destruct (readFileSync f); [apply parse_wf | constructor].
Qed.

Lemma read_stored : forall f, Forall (fun o => stored o = o) (read f).
Proof.
  intros f. unfold read, readFileSync.
  destruct (config f); [apply parse_stored | constructor].
Qed.

Lemma readFileSync_write :
  forall hs f, readFileSync (write hs f) = Some (toWellFormed (stringify hs)).
Proof.
  intros hs f. unfold readFileSync, write, writeFileSync. cbn [config].
  cbn [option_map]. rewrite toWellFormed_idempotent. reflexivity.
Qed.

Lemma config_write :
  forall hs f, config (write hs f) = Some (toWellFormed (stringify hs)).
Proof. reflexivity. Qed.

(** Reading after writing gives the records as stored. *)
Lemma read_write :
  forall hs f, Forall wf_record hs -> read (write hs f) = map stored hs.
Proof.
  intros hs f H. unfold read. rewrite readFileSync_write.
  rewrite toWellFormed_stringify by exact H.
  apply parse_stringify_wf, wf_map_stored, H.
Qed.

Lemma read_write_wf :
  forall hs f, Forall wf_record hs -> Forall (fun o => stored o = o) hs ->
  read (write hs f) = hs.
Proof.
  intros hs f H S. rewrite read_write by exact H.
  apply map_stored_fixed, S.
Qed.

(** What was read is read back as it is. *)
Lemma read_write_part :
  forall hs f g, Forall wf_record hs ->
  (forall h, In h hs -> In h (read f)) ->
  read (write hs g) = hs.
Proof.
  intros hs f g W H. apply read_write_wf; [exact W|].
  apply Forall_forall. intros h Hin.
  pose proof (read_stored f) as S. rewrite Forall_forall in S.
  apply S, H, Hin.
Qed.

(* ------------------------------------------------------------------ *)
(** * edit, add, remove *)

Lemma editHost_absent :
  forall name opts f,
  (forall h, In h (read f) -> named name h = false) ->
  editHost name opts f = (Err (NotFoundError name), f).
Proof.
  intros name opts f H. unfold editHost.
  rewrite (find_absent _ _ H). reflexivity.
Qed.

Lemma editHost_present :
  forall name opts f pre h post,
  read f = pre ++ h :: post -> named name h = true ->
  (forall x, In x pre -> named name x = false) ->
  editHost name opts f
  = (Ok (apply_fields h opts),
     write (pre ++ apply_fields h opts :: post) f).
Proof.
  intros name opts f pre h post E Hh Hpre. unfold editHost. rewrite E.
  rewrite (find_first _ pre h post Hpre Hh).
  rewrite (edit_first_at _ _ pre h post Hpre Hh). reflexivity.
Qed.

Lemma wf_replace :
  forall pre (h h' : obj) post,
  Forall wf_record (pre ++ h :: post) -> wf_record h' ->
  Forall wf_record (pre ++ h' :: post).
Proof.
  intros pre h h' post F W. apply Forall_app in F as [F1 F2].
  inversion F2; subst. apply Forall_app. split; [exact F1|].
  constructor; assumption.
Qed.

Lemma wf_middle :
  forall pre (h : obj) post,
  Forall wf_record (pre ++ h :: post) -> wf_record h.
Proof.
  intros pre h post F. apply Forall_app in F as [_ F].
  inversion F; assumption.
Qed.

Lemma assign_field_stored :
  forall o key a b, stored o = o ->
  (forall v, or_else a b = Some v -> nonempty v = true ->
             toWellFormed v = v) ->
  stored (assign_field o key a b) = assign_field o key a b.
Proof.
  intros o key a b S Hv. destruct (truthy (or_else a b)) eqn:T.
  - destruct (assign_field_truthy o key a b T) as (s & E & ->).
    rewrite E in T. simpl in T. apply stored_set_fixed; auto.
  - rewrite assign_field_falsy by exact T. exact S.
Qed.

Lemma fields_well_formed_supplied :
  forall opts fl v, fields_well_formed opts = true ->
  supplied fl opts = Some v -> toWellFormed v = v.
Proof.
  intros opts fl v F E. unfold fields_well_formed, all_fields in F.
  simpl in F. repeat rewrite andb_true_iff in F.
  destruct F as (F1 & F2 & F3 & F4 & _). apply isWellFormed_eq.
  destruct fl; simpl in E;
    [rewrite E in F1 | rewrite E in F2 | rewrite E in F3 | rewrite E in F4];
    assumption.
Qed.

(** Well-formed values on a record read from the file: the record is
    stored as it is. *)
Lemma apply_fields_stored :
  forall h opts, stored h = h -> fields_well_formed opts = true ->
  stored (apply_fields h opts) = apply_fields h opts.
Proof.
  intros h opts S F. unfold apply_fields.
  apply assign_field_stored.
  2:{ intros v E _. apply (fields_well_formed_supplied opts F_identity v F E). }
  apply assign_field_stored.
  2:{ intros v E _. apply (fields_well_formed_supplied opts F_port v F E). }
  apply assign_field_stored.
  2:{ intros v E _. apply (fields_well_formed_supplied opts F_user v F E). }
  apply assign_field_stored.
  2:{ intros v E _. apply (fields_well_formed_supplied opts F_host v F E). }
  exact S.
Qed.

Lemma read_parts_stored :
  forall f pre h post, read f = pre ++ h :: post ->
  map stored pre = pre /\ stored h = h /\ map stored post = post.
Proof.
  intros f pre h post E. pose proof (read_stored f) as S. rewrite E in S.
  apply Forall_app in S as [S1 S2]. inversion S2; subst.
  repeat split; auto; apply map_stored_fixed; assumption.
Qed.

(** The file after one record of the collection read was replaced. *)
Lemma read_write_replaced :
  forall f g pre h h' post,
  read f = pre ++ h :: post -> wf_record h' ->
  read (write (pre ++ h' :: post) g) = pre ++ stored h' :: post.
Proof.
  intros f g pre h h' post E W.
  destruct (read_parts_stored f pre h post E) as (S1 & _ & S2).
  rewrite read_write.
  - rewrite map_app. simpl. rewrite S1, S2. reflexivity.
  - pose proof (read_wf f) as F. rewrite E in F.
    apply (wf_replace pre h); assumption.
Qed.

(** The file after one record of the collection read was taken out. *)
Lemma read_write_removed :
  forall f g pre h post,
  read f = pre ++ h :: post ->
  read (write (pre ++ post) g) = pre ++ post.
Proof.
  intros f g pre h post E. apply (read_write_part _ f).
  - pose proof (read_wf f) as W. rewrite E in W.
    apply Forall_app in W as [W1 W2]. inversion W2; subst.
    apply Forall_app. split; assumption.
  - intros x Hin. rewrite E. apply in_app_or in Hin as [Hin|Hin];
      apply in_or_app; [left | right; right]; exact Hin.
Qed.

(** C5, as stated, fails for the file: a supplied value with a line break
    in it is written as it is, and the text after the break is read back
    as a line of its own.  An edit that supplies only the identity file
    returns the record with its [HostName] untouched, and leaves in the
    file a record whose [HostName] is another. *)
Lemma editHost_line_break_changes_other_field :
  supplied F_host identity_with_line_break = None
  /\ getHost (js "a") sample_fs = Some rec_a
  /\ exists h' f',
       editHost (js "a") identity_with_line_break sample_fs = (Ok h', f')
       /\ obj_get h' K_HostName = Some (js "10.0.0.1")
       /\ getHost (js "a") f'
          = Some [(NAME, js "a"); (K_HostName, js "evil");
                  (K_User, js "admin"); (K_Port, js "22");
                  (K_IdentityFile, js "k")].
Proof.
  split; [reflexivity|]. split; [vm_compute; reflexivity|].
  eexists. eexists. split; [vm_compute; reflexivity|].
  vm_compute. split; reflexivity.
Qed.

(** C5, amended.  [edit] fails with the not-found message, and leaves the
    file as it is, when no record has the name.  Otherwise it returns the
    first record of that name with the supplied recognized fields
    overwritten: every other key keeps its value, every key the record had
    keeps its place in the order of the keys (a field the record lacked
    goes to the end), and the collection it writes differs from the one it
    read in that record only.  When the supplied values are single lines
    without white space around them, the collection read back from the
    file is that one with the edited record as stored, a lone surrogate in
    a supplied value replaced; when the supplied values are well formed as
    well, it is that one. *)
Theorem editHost_partial_update :
  forall name opts f,
  ((forall h, In h (read f) -> named name h = false) ->
   editHost name opts f = (Err (NotFoundError name), f))
  /\ (forall pre h post,
        read f = pre ++ h :: post -> named name h = true ->
        (forall x, In x pre -> named name x = false) ->
        editHost name opts f
        = (Ok (apply_fields h opts),
           write (pre ++ apply_fields h opts :: post) f)
        /\ partial_update h (apply_fields h opts) opts
        /\ (fields_ok opts = true ->
            read (write (pre ++ apply_fields h opts :: post) f)
            = pre ++ stored (apply_fields h opts) :: post)
        /\ (fields_ok opts = true -> fields_well_formed opts = true ->
            read (write (pre ++ apply_fields h opts :: post) f)
            = pre ++ apply_fields h opts :: post)).
Proof.
  intros name opts f. split; [apply editHost_absent|].
  intros pre h post E Hh Hpre.
  assert (R : fields_ok opts = true ->
              read (write (pre ++ apply_fields h opts :: post) f)
              = pre ++ stored (apply_fields h opts) :: post).
  { intros F. apply (read_write_replaced f f pre h); [exact E|].
    pose proof (read_wf f) as W. rewrite E in W.
    apply apply_fields_wf; [|exact F]. apply (wf_middle pre h post W). }
  split; [|split; [|split]].
  - apply editHost_present; assumption.
  - apply apply_fields_partial_update.
  - exact R.
  - intros F U. rewrite (R F), apply_fields_stored; [reflexivity| |exact U].
    apply (read_parts_stored f pre h post E).
Qed.

(** C10.  A recognized field whose supplied value is falsy (the empty
    string, or nothing under either spelling) counts as not provided:
    [edit] leaves the value the record had for it, and [add] creates the
    record without it. *)
Theorem falsy_field_not_provided :
  forall name opts f fl,
  truthy (supplied fl opts) = false ->
  (forall pre h post,
     read f = pre ++ h :: post -> named name h = true ->
     (forall x, In x pre -> named name x = false) ->
     exists h',
       editHost name opts f = (Ok h', write (pre ++ h' :: post) f)
       /\ obj_get h' (field_key fl) = obj_get h (field_key fl))
  /\ ((forall h, In h (read f) -> named name h = false) ->
      exists h',
        addHost name opts f = (Ok h', write (read f ++ [h']) f)
        /\ obj_get h' (field_key fl) = None).
Proof.
  intros name opts f fl T. split.
  - intros pre h post E Hh Hpre. exists (apply_fields h opts). split.
    + apply editHost_present; assumption.
    + destruct (apply_fields_partial_update h opts) as (G & _).
      rewrite G, T. reflexivity.
  - intros H. exists (apply_fields (obj_define [] NAME name) opts). split.
    + unfold addHost. rewrite (find_absent _ _ H). reflexivity.
    + destruct (apply_fields_partial_update (obj_define [] NAME name) opts)
        as (G & _).
      rewrite G, T. destruct fl; reflexivity.
Qed.

(** C7.  [remove] fails with the not-found message, and leaves the file as
    it is, when no record has the name.  Otherwise it deletes the first
    record of that name and nothing else: the collection read back from the
    file is the old one without that record, the others in their order. *)
Theorem removeHost_deletes_one :
  forall name f,
  ((forall h, In h (read f) -> named name h = false) ->
   removeHost name f = (Err (NotFoundError name), f))
  /\ (forall pre h post,
        read f = pre ++ h :: post -> named name h = true ->
        (forall x, In x pre -> named name x = false) ->
        removeHost name f = (Ok tt, write (pre ++ post) f)
        /\ read (write (pre ++ post) f) = pre ++ post).
Proof.
  intros name f. split.
  - intros H. unfold removeHost. rewrite (findIndex_absent _ _ H).
    reflexivity.
  - intros pre h post E Hh Hpre. split.
    + unfold removeHost. rewrite E.
      rewrite (findIndex_first _ pre h post Hpre Hh), splice1_at.
      reflexivity.
    + apply (read_write_removed f f pre h post E).
Qed.

Lemma read_sample : read sample_fs = [rec_a; rec_b].
Proof. vm_compute. reflexivity. Qed.

Lemma sample_absent :
  forall n, n <> js "a" -> n <> js "b" ->
  forall h, In h (read sample_fs) -> named n h = false.
Proof.
  intros n Ha Hb h Hin. rewrite read_sample in Hin.
  destruct Hin as [<-|[<-|[]]]; unfold named; simpl obj_get;
    apply streq_neq; congruence.
Qed.

Lemma editHost_partial_update_witness :
  editHost (js "nobody") port_3333 sample_fs
  = (Err (NotFoundError (js "nobody")), sample_fs)
  /\ (let a' := [(NAME, js "a"); (K_HostName, js "10.0.0.1");
                 (K_User, js "admin"); (K_Port, js "3333");
                 (K_IdentityFile, js "~/.ssh/id_a")] in
      editHost (js "a") port_3333 sample_fs
      = (Ok a', write [a'; rec_b] sample_fs)
      /\ partial_update rec_a a' port_3333
      /\ read (write [a'; rec_b] sample_fs) = [a'; rec_b]).
Proof.
  split.
  - apply (proj1 (editHost_partial_update (js "nobody") port_3333 sample_fs)).
    apply sample_absent; discriminate.
  - destruct (proj2 (editHost_partial_update (js "a") port_3333 sample_fs)
                [] rec_a [rec_b] read_sample eq_refl
                (fun x (H : In x []) => match H with end))
      as (E & P & _ & R).
    split; [exact E|]. split; [exact P|]. exact (R eq_refl eq_refl).
Defined.

Lemma falsy_field_not_provided_witness :
  (exists h',
     editHost (js "a") user_root_host_empty sample_fs
     = (Ok h', write [h'; rec_b] sample_fs)
     /\ obj_get h' K_HostName = Some (js "10.0.0.1"))
  /\ (exists h',
        addHost (js "c") user_root_host_empty sample_fs
        = (Ok h', write ([rec_a; rec_b] ++ [h']) sample_fs)
        /\ obj_get h' K_HostName = None).
Proof.
  destruct (falsy_field_not_provided (js "a") user_root_host_empty sample_fs
              F_host eq_refl) as [E _].
  destruct (falsy_field_not_provided (js "c") user_root_host_empty sample_fs
              F_host eq_refl) as [_ A].
  split.
  - exact (E [] rec_a [rec_b] read_sample eq_refl
             (fun x (H : In x []) => match H with end)).
  - rewrite <- read_sample. apply A. apply sample_absent; discriminate.
Defined.

Lemma removeHost_deletes_one_witness :
  removeHost (js "nobody") sample_fs
  = (Err (NotFoundError (js "nobody")), sample_fs)
  /\ removeHost (js "a") sample_fs = (Ok tt, write [rec_b] sample_fs)
  /\ read (write [rec_b] sample_fs) = [rec_b].
Proof.
  split.
  - apply (proj1 (removeHost_deletes_one (js "nobody") sample_fs)).
    apply sample_absent; discriminate.
  - exact (proj2 (removeHost_deletes_one (js "a") sample_fs)
             [] rec_a [rec_b] read_sample eq_refl
             (fun x (H : In x []) => match H with end)).
Defined.

(* ------------------------------------------------------------------ *)
(** * copy *)







Lemma named_exclusive :
  forall a b h, named a h = true -> a <> b -> named b h = false.
Proof.
  intros a b h H N. unfold named in *.
  destruct (obj_get h NAME) as [m|]; [|reflexivity].
  apply streq_eq in H. subst m. apply streq_neq. exact N.
Qed.


Lemma named_stored_edit :
  forall n s opts, stored s = s ->
  named n (stored (apply_fields s opts)) = named n s.
Proof.
  intros n s opts S. unfold named. rewrite obj_get_stored.
  destruct (apply_fields_partial_update s opts) as (_ & G & _).
  rewrite G by (intros fl; apply not_eq_sym, field_key_plain).
  destruct (obj_get s NAME) as [m|] eqn:E; [|reflexivity]. simpl.
  rewrite (stored_fixed_get s NAME m S E). reflexivity.
Qed.







(* ------------------------------------------------------------------ *)
(** * import *)

Lemma js_lookup_record :
  forall o k,
  js_lookup (map (fun kv => (fst kv, JStr (snd kv))) o) k
  = option_map JStr (obj_get o k).
Proof.
  induction o as [|[k' v'] o IH]; intros k; [reflexivity|].
  simpl. destruct (streq k' k); [reflexivity | apply IH].
Qed.

Lemma option_lines_record :
  forall o,
  option_lines_json (map (fun kv => (fst kv, JStr (snd kv))) o)
  = Some (option_lines o).
Proof.
  induction o as [|[k v] o IH]; [reflexivity|].
  rewrite option_lines_cons. simpl map. simpl option_lines_json.
  rewrite IH. destruct (streq k NAME); reflexivity.
Qed.

Lemma host_lines_record :
  forall o, host_lines_json (record_json o) = Some (host_lines o).
Proof.
  intros o. unfold host_lines_json, record_json, name_text_json, entries.
  rewrite js_lookup_record, option_lines_record.
  unfold host_lines, name_text. destruct (obj_get o NAME); reflexivity.
Qed.

Lemma lines_record :
  forall hs, lines_json (map record_json hs) = Some (flat_map host_lines hs).
Proof.
  induction hs as [|h hs IH]; [reflexivity|].
  simpl map. simpl lines_json. rewrite host_lines_record, IH. reflexivity.
Qed.

(** On records of this program, the serializer for decoded values is
    [stringify]. *)
Lemma stringify_json_records :
  forall hs, stringify_json (map record_json hs) = Some (stringify hs).
Proof.
  intros hs. unfold stringify_json. rewrite lines_record. reflexivity.
Qed.

Example import_decode_failure :
  import_decoded None sample_fs = (Err DecodeError, sample_fs).
Proof. reflexivity. Qed.

(** A decoded object with the one property [a] = 1: valid, not an array. *)
Example import_wrong_shape :
  import_decoded (Some (JObj [(js "a", JNum (js "1"))])) sample_fs
  = (Err ShapeError, sample_fs).
Proof. reflexivity. Qed.

(** C4, as stated, fails: the decoding of [[true]] is an array whose entry
    is not record-shaped, yet [import] reports success and replaces the
    file with a block for a host named [undefined]. *)
Lemma import_accepts_non_records :
  record_sequence (JArr [JBool true]) = false
  /\ import_decoded (Some (JArr [JBool true])) sample_fs
     = (Ok 1, mkFs true (Some (js "Host undefined
")))
  /\ read (mkFs true (Some (js "Host undefined
"))) = [[(NAME, js "undefined")]].
Proof. vm_compute. repeat split; reflexivity. Qed.

Lemma import_not_array :
  forall v f, is_array v = false ->
  import_decoded (Some v) f = (Err ShapeError, f).
Proof. intros [] f H; try reflexivity; discriminate H. Qed.

Lemma import_array_ok :
  forall hs text f, stringify_json hs = Some text ->
  import_decoded (Some (JArr hs)) f
  = (Ok (List.length hs), mkFs true (Some (toWellFormed text))).
Proof. intros hs text f H. simpl. rewrite H. reflexivity. Qed.

Lemma import_array_throws :
  forall hs f, stringify_json hs = None ->
  import_decoded (Some (JArr hs)) f = (Throw, mkFs true (config f)).
Proof. intros hs f H. simpl. rewrite H. reflexivity. Qed.

(** C4, amended.  For every text and whatever the decoder: [import] fails
    with the invalid-JSON message exactly when decoding fails; it fails
    with the expected-array message exactly when the decoded value is not
    an array (the entries are not looked at); on either failure the file
    system is as it was; on success the count is the length of the array
    and the file's text is the serialization of the array alone, in its
    well-formed form, whatever the file held before; when the array holds
    records of this program in shape, the collection read back is that
    array with every value in its well-formed form; and when the values
    are well formed as well, it is that array. *)
Theorem importConfig_outcomes :
  forall (JSON_parse : jsstring -> option json) data f,
  let r := importConfig JSON_parse data f in
  (fst r = Err DecodeError <-> JSON_parse data = None)
  /\ (fst r = Err ShapeError <->
      exists v, JSON_parse data = Some v /\ is_array v = false)
  /\ (forall msg, fst r = Err msg -> snd r = f)
  /\ (forall n, fst r = Ok n ->
      exists hs text,
        JSON_parse data = Some (JArr hs) /\ n = List.length hs
        /\ stringify_json hs = Some text
        /\ snd r = mkFs true (Some (toWellFormed text)))
  /\ (forall hs, JSON_parse data = Some (JArr (map record_json hs)) ->
      r = (Ok (List.length hs), write hs f)
      /\ (Forall wf_record hs -> read (snd r) = map stored hs)
      /\ (Forall wf_record hs -> forallb well_formed_record hs = true ->
          read (snd r) = hs)).
Proof.
  intros JSON_parse data f r. subst r. unfold importConfig.
  destruct (JSON_parse data) as [v|] eqn:D.
  - destruct (is_array v) eqn:A.
    + destruct v as [| b | t | s | hs | props]; try discriminate A.
      destruct (stringify_json hs) as [text|] eqn:S.
      * rewrite (import_array_ok hs text f S). simpl.
        split; [split; intros H; discriminate H|].
        split; [split; [intros H; discriminate H|]|].
        { intros (v & E & A'). injection E as <-. discriminate A'. }
        split; [intros msg H; discriminate H|].
        split.
        { intros n H. injection H as <-. exists hs, text. auto. }
        intros rs H. injection H as ->.
        rewrite stringify_json_records in S. injection S as <-.
        rewrite length_map. split; [reflexivity|]. split.
        -- intros W. apply (read_write rs f W).
        -- intros W U. apply (read_write_wf rs f W).
           apply Forall_forall. intros o Hin.
           rewrite forallb_forall in U.
           apply well_formed_record_stored, U, Hin.
      * rewrite (import_array_throws hs f S). simpl.
        split; [split; intros H; discriminate H|].
        split; [split; [intros H; discriminate H|]|].
        { intros (v & E & A'). injection E as <-. discriminate A'. }
        split; [intros msg H; discriminate H|].
        split; [intros n H; discriminate H|].
        intros rs H. injection H as ->.
        rewrite stringify_json_records in S. discriminate S.
    + rewrite (import_not_array v f A). simpl.
      split; [split; intros H; discriminate H|].
      split; [split; [intros _; exists v; auto | reflexivity]|].
      split; [reflexivity|].
      split; [intros n H; discriminate H|].
      intros rs H. injection H as ->. discriminate A.
  - simpl.
    split; [split; reflexivity|].
    split; [split; [intros H; discriminate H|]|].
    { intros (v & E & _). discriminate E. }
    split; [reflexivity|].
    split; [intros n H; discriminate H|].
    intros rs H. discriminate H.
Qed.

(* ------------------------------------------------------------------ *)
(** * Uniqueness of names *)



Lemma find_none_name_absent :
  forall n hs, find (named n) hs = None ->
  ~ In (Some n) (map (fun h => obj_get h NAME) hs).
Proof.
  intros n hs H Hin. apply in_map_iff in Hin as (h & E & Hh).
  pose proof (find_none_all _ _ H h Hh) as N. unfold named in N.
  rewrite E, streq_refl in N. discriminate.
Qed.




(** What the amended C2 leaves out: a name with white space around it is
    compared as given and written as given, and read back trimmed. *)
Example add_untrimmed_name :
  exists h f',
    addHost (js " b") no_options sample_fs = (Ok h, f')
    /\ listHosts f' = [Some (js "a"); Some (js "b"); Some (js "b")].
Proof.
  eexists. eexists. split; [vm_compute; reflexivity|].
  vm_compute. reflexivity.
Qed.

(** And a name that is a lone surrogate is compared as given, and read
    back as U+FFFD: the same [add] succeeds a second time. *)
Example add_lone_surrogate_twice :
  exists h1 f1 h2 f2,
    addHost [56320%N] no_options sample_fs = (Ok h1, f1)
    /\ addHost [56320%N] no_options f1 = (Ok h2, f2)
    /\ listHosts f2
       = [Some (js "a"); Some (js "b"); Some [REPLACEMENT];
          Some [REPLACEMENT]].
Proof.
  eexists. eexists. eexists. eexists.
  split; [vm_compute; reflexivity|]. split; [vm_compute; reflexivity|].
  vm_compute. reflexivity.
Qed.

(* ------------------------------------------------------------------ *)
(** * More on the parser *)

Lemma dropwhile_nil_all :
  forall p s, dropwhile p s = [] -> forallb p s = true.
Proof.
  induction s as [|c s IH]; simpl; intros H; [reflexivity|].
  destruct (p c); [auto | discriminate].
Qed.

Lemma trim_empty_all_space :
  forall s, trim s = [] -> forallb is_space s = true.
Proof.
  intros s H. unfold trim in H.
  apply (f_equal (@rev code_unit)) in H. rewrite rev_involutive in H.
  simpl in H. apply dropwhile_nil_all in H. rewrite forallb_rev in H.
  destruct (dropwhile is_space s) as [|c d] eqn:D.
  - apply dropwhile_nil_all. exact D.
  - simpl in H. apply andb_true_iff in H as [Hc _].
    rewrite (dropwhile_head_fails _ _ _ _ D) in Hc. discriminate.
Qed.

Lemma trim_all_space :
  forall s, forallb is_space s = true -> trim s = [].
Proof.
  intros s H. rewrite <- (app_nil_r s). rewrite trim_pad by exact H.
  reflexivity.
Qed.

Lemma split_lines_forallb :
  forall (p : code_unit -> bool) s, forallb p s = true ->
  Forall (fun l => forallb p l = true) (split_lines s).
Proof.
  intros p. induction s as [|c s IH]; simpl; intros H.
  - constructor; [reflexivity | constructor].
  - apply andb_true_iff in H as [Hc H]. specialize (IH H).
    destruct (c =? LF)%N.
    + constructor; [reflexivity | exact IH].
    + destruct (split_lines s) as [|l ls].
      * constructor; [simpl; rewrite Hc; reflexivity | constructor].
      * inversion IH; subst. constructor; [|assumption].
        simpl. rewrite Hc. assumption.
Qed.

Lemma step_skipped :
  forall st line, is_skipped line = true -> step st line = st.
Proof.
  intros st line H. unfold step. unfold is_skipped in H. rewrite H.
  reflexivity.
Qed.

Lemma steps_all_skipped :
  forall ls st, Forall (fun l => is_skipped l = true) ls ->
  fold_left step ls st = st.
Proof.
  induction ls as [|l ls IH]; intros st F; [reflexivity|].
  inversion F; subst. simpl. rewrite step_skipped by assumption. auto.
Qed.

(** The test for blank content at the head of [parse] returns what the
    loop would return. *)
Lemma parse_is_loop :
  forall content, parse content = commit (parse_lines (split_lines content)).
Proof.
  intros content. unfold parse.
  destruct content as [|c s]; [reflexivity|]. simpl nonempty. simpl negb.
  simpl orb. destruct (nonempty (trim (c :: s))) eqn:N; [reflexivity|].
  simpl negb. cbv iota.
  assert (T : trim (c :: s) = []) by (destruct (trim (c :: s)); [reflexivity | discriminate]).
  apply trim_empty_all_space in T. unfold parse_lines.
  rewrite steps_all_skipped; [reflexivity|].
  apply (split_lines_forallb is_space) in T.
  eapply Forall_impl; [|exact T]. intros l Hl. unfold is_skipped.
  rewrite (trim_all_space l Hl). reflexivity.
Qed.

Lemma parse_join :
  forall ls, Forall no_LF ls -> parse (join_lines ls) = commit (parse_lines ls).
Proof.
  intros ls F. rewrite parse_is_loop. destruct ls as [|l ls'].
  - reflexivity.
  - rewrite split_join by (try discriminate; exact F). reflexivity.
Qed.

Lemma step_host :
  forall st line, is_host_line line = true ->
  exists n, hostMatch (trim line) = Some n
            /\ step st line = mkState (commit st) (Some (obj_define [] NAME n)).
Proof.
  intros st line H. unfold is_host_line in H.
  apply andb_true_iff in H as [S M]. apply negb_true_iff in S.
  destruct (hostMatch (trim line)) as [n|] eqn:E; [|discriminate].
  exists n. split; [reflexivity|]. unfold step.
  unfold is_skipped in S. rewrite S, E. reflexivity.
Qed.

Lemma step_not_host :
  forall st line, is_host_line line = false ->
  hosts (step st line) = hosts st
  /\ (current st = None -> current (step st line) = None)
  /\ (forall c, current st = Some c ->
      exists c', current (step st line) = Some c').
Proof.
  intros st line H. unfold is_host_line in H. unfold step.
  unfold is_skipped in H.
  destruct (negb (nonempty (trim line)) || starts_with_hash (trim line)).
  - repeat split; eauto.
  - simpl in H. destruct (hostMatch (trim line)); [discriminate|].
    destruct (current st) as [c|] eqn:C.
    + destruct (optMatch (trim line)) as [[k v]|]; simpl;
        repeat split; try discriminate; eauto.
    + repeat split; auto. intros c H'. congruence.
Qed.

Lemma commit_length_step :
  forall st line,
  List.length (commit (step st line))
  = List.length (commit st) + (if is_host_line line then 1 else 0).
Proof.
  intros st line. destruct (is_host_line line) eqn:H.
  - destruct (step_host st line H) as (n & _ & ->).
    unfold commit at 1. simpl. rewrite length_app. reflexivity.
  - destruct (step_not_host st line H) as (Hh & Hn & Hs).
    unfold commit. rewrite Hh. destruct (current st) as [c|].
    + destruct (Hs c eq_refl) as [c' ->]. rewrite !length_app. simpl. lia.
    + rewrite Hn by reflexivity. lia.
Qed.

Lemma commit_length_steps :
  forall ls st,
  List.length (commit (fold_left step ls st))
  = List.length (commit st) + List.length (filter is_host_line ls).
Proof.
  induction ls as [|l ls IH]; intros st; simpl; [lia|].
  rewrite IH, commit_length_step. destruct (is_host_line l); simpl; lia.
Qed.

(** X1.  [parse] returns one record for each [Host] line of the text (a
    line that, trimmed, is not empty, is no comment, and matches the [Host]
    pattern): no record is lost or merged, and none comes from any other
    line. *)
Theorem parse_one_record_per_host_line :
  forall content,
  List.length (parse content)
  = List.length (filter is_host_line (split_lines content)).
Proof.
  intros content. rewrite parse_is_loop. unfold parse_lines.
  rewrite commit_length_steps. reflexivity.
Qed.

(** X2.  A blank line or a comment line anywhere in the text changes
    nothing: the text with the line and the text without it parse to the
    same collection. *)
Theorem parse_ignores_skipped_line :
  forall a l b,
  Forall no_LF (a ++ l :: b) -> is_skipped l = true ->
  parse (join_lines (a ++ l :: b)) = parse (join_lines (a ++ b)).
Proof.
  intros a l b F S.
  assert (F' : Forall no_LF (a ++ b)).
  { apply Forall_app in F as [Fa Fb]. inversion Fb; subst.
    apply Forall_app. split; assumption. }
  rewrite !parse_join by assumption. unfold parse_lines.
  rewrite !fold_left_app. simpl. rewrite step_skipped by exact S.
  reflexivity.
Qed.

Lemma parse_ignores_skipped_line_witness :
  parse (js "Host a
# the user

    User root")
  = parse (js "Host a

    User root")
  /\ parse (js "Host a
    User root") = [[(NAME, js "a"); (K_User, js "root")]].
Proof.
  split; [|reflexivity].
  apply (parse_ignores_skipped_line [js "Host a"] (js "# the user")
           [[]; js "    User root"]).
  - repeat constructor.
  - reflexivity.
Defined.

Lemma steps_no_host_from_init :
  forall ls, Forall (fun l => is_host_line l = false) ls ->
  fold_left step ls init = init.
Proof.
  intros ls F.
  assert (G : forall st, hosts st = [] -> current st = None ->
              hosts (fold_left step ls st) = []
              /\ current (fold_left step ls st) = None).
  { induction F as [|l ls Hl F IH]; intros st Hh Hc; [auto|].
    simpl. destruct (step_not_host st l Hl) as (E1 & E2 & _).
    apply IH; [congruence | auto]. }
  destruct (G init eq_refl eq_refl) as [Hh Hc].
  destruct (fold_left step ls init) as [hs c]. simpl in *. subst.
  reflexivity.
Qed.

(** X3.  Whatever stands before the first [Host] line is dropped: a text
    parses to the same collection with or without leading lines that open
    no record. *)
Theorem parse_ignores_preamble :
  forall a b,
  Forall no_LF (a ++ b) -> Forall (fun l => is_host_line l = false) a ->
  parse (join_lines (a ++ b)) = parse (join_lines b).
Proof.
  intros a b F H.
  assert (Fb : Forall no_LF b) by (apply Forall_app in F; tauto).
  rewrite !parse_join by assumption. unfold parse_lines.
  rewrite fold_left_app, steps_no_host_from_init by exact H. reflexivity.
Qed.

Lemma parse_ignores_preamble_witness :
  parse (js "User nobody
Port 1
Host a
    User root")
  = parse (js "Host a
    User root").
Proof.
  apply (parse_ignores_preamble [js "User nobody"; js "Port 1"]
           [js "Host a"; js "    User root"]).
  - repeat constructor.
  - repeat constructor.
Defined.

Lemma step_shift :
  forall pre hs c l,
  step (mkState (pre ++ hs) c) l
  = mkState (pre ++ hosts (step (mkState hs c) l))
            (current (step (mkState hs c) l)).
Proof.
  intros pre hs c l. unfold step. simpl.
  destruct (negb (nonempty (trim l)) || starts_with_hash (trim l));
    [reflexivity|].
  destruct (hostMatch (trim l)).
  - unfold commit. simpl. destruct c; simpl; rewrite ?app_assoc; reflexivity.
  - destruct c; [|reflexivity].
    destruct (optMatch (trim l)) as [[k v]|]; reflexivity.
Qed.

Lemma steps_shift :
  forall ls pre hs c,
  fold_left step ls (mkState (pre ++ hs) c)
  = mkState (pre ++ hosts (fold_left step ls (mkState hs c)))
            (current (fold_left step ls (mkState hs c))).
Proof.
  induction ls as [|l ls IH]; intros pre hs c; [reflexivity|].
  simpl. rewrite step_shift.
  destruct (step (mkState hs c) l) as [hs' c'] eqn:E. simpl.
  apply IH.
Qed.

Lemma commit_steps_from_host :
  forall l b st, is_host_line l = true ->
  commit (fold_left step (l :: b) st)
  = commit st ++ commit (fold_left step (l :: b) init).
Proof.
  intros l b st H. simpl.
  destruct (step_host st l H) as (n & E & ->).
  destruct (step_host init l H) as (n' & E' & ->).
  rewrite E in E'. injection E' as <-.
  change (commit init) with (@nil obj).
  rewrite <- (app_nil_r (commit st)) at 1. rewrite steps_shift.
  set (r := fold_left step b (mkState [] (Some (obj_define [] NAME n)))).
  destruct r as [hs c]. unfold commit. simpl.
  destruct c; rewrite ?app_assoc; reflexivity.
Qed.

(** X4.  Records come block by block: when the second of two runs of lines
    starts with a [Host] line, the text of both runs parses to the records
    of the first followed by the records of the second. *)
Theorem parse_blocks_concatenate :
  forall a l b,
  Forall no_LF (a ++ l :: b) -> is_host_line l = true ->
  parse (join_lines (a ++ l :: b))
  = parse (join_lines a) ++ parse (join_lines (l :: b)).
Proof.
  intros a l b F H. pose proof F as F'.
  apply Forall_app in F' as [Fa Fb].
  rewrite !parse_join by assumption. unfold parse_lines.
  rewrite fold_left_app. apply commit_steps_from_host. exact H.
Qed.

Lemma parse_blocks_concatenate_witness :
  parse (js "Host a
    User root
Host b
    Port 22")
  = parse (js "Host a
    User root") ++ parse (js "Host b
    Port 22").
Proof.
  apply (parse_blocks_concatenate [js "Host a"; js "    User root"]
           (js "Host b") [js "    Port 22"]).
  - repeat constructor.
  - reflexivity.
Defined.

Lemma ascending_keys_NoDup :
  forall o, ascending o = true -> NoDup (keys o).
Proof.
  induction o as [|[k v] o IH]; intros A; [constructor|].
  simpl in A. destruct (array_index k) as [i|] eqn:Ei; [|discriminate].
  apply andb_true_iff in A as [Ab A]. simpl. constructor; [|auto].
  intros Hin. apply in_map_iff in Hin as ([k' v'] & E & Hin).
  simpl in E. subst k'. rewrite forallb_forall in Ab.
  specialize (Ab _ Hin). unfold index_above in Ab. simpl in Ab.
  rewrite Ei in Ab. apply N.ltb_lt in Ab. lia.
Qed.

Lemma distinct_keys_NoDup :
  forall o, distinct o = true -> NoDup (keys o).
Proof.
  induction o as [|[k v] o IH]; intros D; [constructor|].
  simpl in D. apply andb_true_iff in D as [Dk D]. simpl.
  constructor; [|auto]. intros Hin. apply obj_has_keys in Hin.
  rewrite Hin in Dk. discriminate.
Qed.

Lemma wf_keys_NoDup : forall o, wf_record o -> NoDup (keys o).
Proof.
  intros o (ints & n & strs & -> & (A & _ & _ & _ & Pl & D)).
  unfold keys. rewrite map_app. apply NoDup_app.
  - apply ascending_keys_NoDup, A.
  - apply (distinct_keys_NoDup ((NAME, n) :: strs)), D.
  - intros k Hi Hs. apply obj_has_keys in Hi.
    destruct (ascending_has_index _ _ A Hi) as [i Ei].
    apply (obj_has_keys ((NAME, n) :: strs)) in Hs.
    assert (P : forallb plain ((NAME, n) :: strs) = true)
      by (simpl; exact Pl).
    rewrite (plain_has_no_index _ _ P Hs) in Ei. discriminate.
Qed.

(** X5.  Every record [parse] returns is clean: it has a name, which is
    not empty, holds no line terminator and has no white space at either
    end; no key occurs twice; and every other property has a key of word
    characters only, which is neither [__proto__] nor (up to case) the
    keyword [Host], and a value that is as clean as the name. *)
Theorem parse_records_clean :
  forall content h, In h (parse content) ->
  (exists n, obj_get h NAME = Some n /\ value_ok n = true)
  /\ NoDup (keys h)
  /\ (forall k v, In (k, v) h ->
      word k = true /\ value_ok v = true /\ k <> PROTO
      /\ hostlike k = false).
Proof.
  intros content h Hin.
  pose proof (parse_wf content) as F. rewrite Forall_forall in F.
  specialize (F h Hin). split; [|split].
  - destruct F as (ints & n & strs & -> & S). exists n.
    split; [apply wf_name_text, S | apply S].
  - apply wf_keys_NoDup, F.
  - intros k v Hkv. destruct F as (ints & n & strs & -> & S).
    pose proof (wf_all_opt_ok _ _ _ S) as O. rewrite forallb_forall in O.
    specialize (O _ Hkv). apply opt_ok_parts in O as (W & Hl & P & V).
    repeat split; auto. apply streq_neq. exact P.
Qed.

Lemma parse_records_clean_witness :
  (exists n, obj_get rec_a NAME = Some n /\ value_ok n = true)
  /\ NoDup (keys rec_a)
  /\ (forall k v, In (k, v) rec_a ->
      word k = true /\ value_ok v = true /\ k <> PROTO
      /\ hostlike k = false).
Proof.
  apply (parse_records_clean sample_config rec_a).
  change (parse sample_config) with (read sample_fs).
  rewrite read_sample. left. reflexivity.
Defined.

(* ------------------------------------------------------------------ *)
(** * More on the serializer *)

Lemma span_index_app :
  forall o, fst (span_index o) ++ snd (span_index o) = o.
Proof.
  induction o as [|kv o IH]; [reflexivity|].
  simpl. destruct (plain kv); [reflexivity|].
  destruct (span_index o) as [a b]. simpl in *. rewrite IH. reflexivity.
Qed.

Lemma span_index_ascending :
  forall ints rest, ascending ints = true ->
  (match rest with [] => true | kv :: _ => plain kv end) = true ->
  span_index (ints ++ rest) = (ints, rest).
Proof.
  induction ints as [|[k v] ints IH]; intros rest A P.
  - simpl. destruct rest as [|kv rest]; [reflexivity|].
    simpl. rewrite P. reflexivity.
  - simpl in A. destruct (array_index k) as [i|] eqn:Ei; [|discriminate].
    apply andb_true_iff in A as [_ A]. simpl.
    unfold plain at 1. simpl. rewrite Ei.
    rewrite (IH rest A P). reflexivity.
Qed.

Lemma in_shape_wf : forall o, in_shape o = true <-> wf_record o.
Proof.
  intros o. split.
  - intros H. unfold in_shape in H. pose proof (span_index_app o) as E.
    destruct (span_index o) as [ints rest]. simpl in E.
    destruct rest as [|[k n] strs]; [discriminate|].
    repeat rewrite andb_true_iff in H.
    destruct H as ((((((Hk & A) & Vn) & Fi) & Fs) & Pl) & D).
    apply streq_eq in Hk. subst k.
    exists ints, n, strs. split; [symmetry; exact E|].
    repeat split; assumption.
  - intros (ints & n & strs & -> & (A & Vn & Fi & Fs & Pl & D)).
    unfold in_shape.
    rewrite (span_index_ascending ints ((NAME, n) :: strs) A)
      by reflexivity.
    rewrite streq_refl, A, Vn, Fi, Fs, Pl, D. reflexivity.
Qed.

Lemma forallb_in_shape :
  forall hs, forallb in_shape hs = true -> Forall wf_record hs.
Proof.
  intros hs H. apply Forall_forall. intros h Hin.
  rewrite forallb_forall in H. apply in_shape_wf, H, Hin.
Qed.

Lemma forallb_well_formed_record :
  forall hs, forallb well_formed_record hs = true ->
  Forall (fun o => stored o = o) hs.
Proof.
  intros hs H. apply Forall_forall. intros h Hin.
  rewrite forallb_forall in H. apply well_formed_record_stored, H, Hin.
Qed.

(** X6.  What [read] returns after [write] of a collection of records in
    shape is the collection written with a lone surrogate in a value
    replaced by U+FFFD; so a collection of records in shape and of
    well-formed values survives the file as it is, whether [parse]
    produced its records or [add], [edit] or [copy] built them. *)
Theorem write_then_read :
  forall hs f, forallb in_shape hs = true ->
  read (write hs f) = map stored hs
  /\ (forallb well_formed_record hs = true -> read (write hs f) = hs).
Proof.
  intros hs f H. apply forallb_in_shape in H. split.
  - apply read_write, H.
  - intros U. apply read_write_wf; [exact H|].
    apply forallb_well_formed_record, U.
Qed.

Lemma write_then_read_witness :
  read (write [rec_b; rec_a] (mkFs false None)) = [rec_b; rec_a].
Proof.
  apply (write_then_read [rec_b; rec_a] (mkFs false None)); reflexivity.
Defined.

(** X7.  The serializer loses nothing: two collections of records in shape
    with the same text are the same collection. *)
Theorem stringify_injective :
  forall hs1 hs2,
  forallb in_shape hs1 = true -> forallb in_shape hs2 = true ->
  stringify hs1 = stringify hs2 -> hs1 = hs2.
Proof.
  intros hs1 hs2 H1 H2 E.
  rewrite <- (parse_stringify_wf hs1) by (apply forallb_in_shape, H1).
  rewrite <- (parse_stringify_wf hs2) by (apply forallb_in_shape, H2).
  rewrite E. reflexivity.
Qed.

Lemma stringify_injective_witness :
  [rec_a; rec_b] = read sample_fs.
Proof.
  apply (stringify_injective [rec_a; rec_b] (read sample_fs)).
  - reflexivity.
  - rewrite read_sample. reflexivity.
  - rewrite read_sample. reflexivity.
Defined.

(* ------------------------------------------------------------------ *)
(** * Lookups, and how the operations compose *)

Lemma find_app_cases :
  forall (p : obj -> bool) a b,
  find p (a ++ b) = match find p a with
                    | Some x => Some x
                    | None => find p b
                    end.
Proof.
  induction a as [|x a IH]; intros b; [reflexivity|].
  simpl. destruct (p x); [reflexivity | apply IH].
Qed.

Lemma named_name : forall n h, named n h = true <-> obj_get h NAME = Some n.
Proof.
  intros n h. unfold named. destruct (obj_get h NAME) as [m|].
  - rewrite streq_eq. split; congruence.
  - split; discriminate.
Qed.

(** X8.  [getHost] finds a record exactly for the names [listHosts]
    lists, and the record it returns is one of the collection and has the
    name asked for. *)
Theorem getHost_finds_listed_names :
  forall n f,
  (getHost n f = None <-> ~ In (Some n) (listHosts f))
  /\ (forall h, getHost n f = Some h ->
      In h (read f) /\ obj_get h NAME = Some n).
Proof.
  intros n f. unfold getHost, listHosts. split; [split|].
  - apply find_none_name_absent.
  - intros H. apply find_absent. intros h Hin.
    destruct (named n h) eqn:E; [|reflexivity]. exfalso. apply H.
    apply named_name in E. rewrite <- E.
    apply (in_map (fun x => obj_get x NAME)). exact Hin.
  - intros h H. destruct (find_some_split _ _ _ H) as (pre & post & E & _ & N).
    split; [rewrite E; apply in_or_app; right; left; reflexivity|].
    apply named_name. exact N.
Qed.

Lemma addHost_success :
  forall name opts f, getHost name f = None ->
  addHost name opts f
  = (Ok (apply_fields (obj_define [] NAME name) opts),
     write (read f ++ [apply_fields (obj_define [] NAME name) opts]) f).
Proof.
  intros name opts f H. unfold addHost. unfold getHost in H. rewrite H.
  reflexivity.
Qed.



Lemma removeHost_present :
  forall name f pre h post,
  read f = pre ++ h :: post -> named name h = true ->
  (forall x, In x pre -> named name x = false) ->
  removeHost name f = (Ok tt, write (pre ++ post) f)
  /\ read (write (pre ++ post) f) = pre ++ post.
Proof.
  intros name f pre h post E Hh Hpre. split.
  - unfold removeHost. rewrite E.
    rewrite (findIndex_first _ pre h post Hpre Hh), splice1_at.
    reflexivity.
  - apply (read_write_removed f f pre h post E).
Qed.

Lemma wf_snoc :
  forall hs (h : obj), Forall wf_record hs -> wf_record h ->
  Forall wf_record (hs ++ [h]).
Proof.
  intros hs h F W. apply Forall_app. split; [exact F|].
  constructor; [exact W | constructor].
Qed.








Lemma apply_fields_new :
  forall name opts,
  apply_fields (obj_define [] NAME name) opts = new_record name opts.
Proof.
  intros name opts. unfold apply_fields, new_record, all_fields.
  unfold assign_field. simpl flat_map. simpl supplied.
  destruct (or_else (host opts) (HostName opts)) as [[|c1 v1]|];
  destruct (or_else (user opts) (User opts)) as [[|c2 v2]|];
  destruct (or_else (port opts) (Port opts)) as [[|c3 v3]|];
  destruct (or_else (identity opts) (IdentityFile opts)) as [[|c4 v4]|];
  reflexivity.
Qed.

(** X11.  The record [add] creates holds the name first and then exactly
    the recognized fields that were given a truthy value, always in the
    order HostName, User, Port, IdentityFile, whatever the file held and
    in whatever order the caller gave the fields. *)
Theorem addHost_builds_new_record :
  forall name opts f,
  getHost name f = None ->
  fst (addHost name opts f) = Ok (new_record name opts).
Proof.
  intros name opts f H. rewrite addHost_success by exact H. simpl fst.
  rewrite apply_fields_new. reflexivity.
Qed.

Lemma addHost_builds_new_record_witness :
  fst (addHost (js "c") user_root_host_empty sample_fs)
  = Ok [(NAME, js "c"); (K_User, js "root")].
Proof.
  apply (addHost_builds_new_record (js "c") user_root_host_empty sample_fs).
  reflexivity.
Defined.

Lemma obj_update_same :
  forall o k v, obj_get o k = Some v -> obj_update o k v = o.
Proof.
  induction o as [|[k' v'] o IH]; intros k v H; [reflexivity|].
  simpl in *. destruct (streq k' k).
  - injection H as ->. reflexivity.
  - rewrite IH by exact H. reflexivity.
Qed.

Lemma assign_field_same :
  forall o key a b, key <> PROTO ->
  (truthy (or_else a b) = true -> obj_get o key = or_else a b) ->
  assign_field o key a b = o.
Proof.
  intros o key a b P H. destruct (truthy (or_else a b)) eqn:T.
  - destruct (assign_field_truthy o key a b T) as (s & E & ->).
    specialize (H eq_refl). rewrite E in H.
    apply streq_neq in P. rewrite set_define by exact P.
    rewrite define_existing by (unfold obj_has; rewrite H; reflexivity).
    apply obj_update_same, H.
  - apply assign_field_falsy, T.
Qed.

Lemma apply_fields_idempotent :
  forall h opts,
  apply_fields (apply_fields h opts) opts = apply_fields h opts.
Proof.
  intros h opts.
  destruct (apply_fields_partial_update h opts) as (G & _).
  set (o := apply_fields h opts) in *. unfold apply_fields.
  rewrite (assign_field_same o K_HostName) by
    (try discriminate; intros T; change K_HostName with (field_key F_host);
     rewrite (G F_host); simpl supplied; rewrite T; reflexivity).
  rewrite (assign_field_same o K_User) by
    (try discriminate; intros T; change K_User with (field_key F_user);
     rewrite (G F_user); simpl supplied; rewrite T; reflexivity).
  rewrite (assign_field_same o K_Port) by
    (try discriminate; intros T; change K_Port with (field_key F_port);
     rewrite (G F_port); simpl supplied; rewrite T; reflexivity).
  apply (assign_field_same o K_IdentityFile); [discriminate|].
  intros T. change K_IdentityFile with (field_key F_identity).
  rewrite (G F_identity). simpl supplied. rewrite T. reflexivity.
Qed.

Lemma apply_fields_nothing :
  forall h opts, (forall fl, truthy (supplied fl opts) = false) ->
  apply_fields h opts = h.
Proof.
  intros h opts H. unfold apply_fields.
  rewrite (assign_field_falsy h) by apply (H F_host).
  rewrite (assign_field_falsy h) by apply (H F_user).
  rewrite (assign_field_falsy h) by apply (H F_port).
  apply assign_field_falsy, (H F_identity).
Qed.

Lemma editHost_cases :
  forall name opts f,
  (editHost name opts f = (Err (NotFoundError name), f)
   /\ getHost name f = None)
  \/ (exists pre h post,
        read f = pre ++ h :: post /\ named name h = true
        /\ (forall x, In x pre -> named name x = false)
        /\ editHost name opts f
           = (Ok (apply_fields h opts),
              write (pre ++ apply_fields h opts :: post) f)).
Proof.
  intros name opts f. destruct (getHost name f) as [h|] eqn:G.
  - right. destruct (find_some_split _ _ _ G) as (pre & post & E & Hp & Hh).
    exists pre, h, post. repeat split; auto.
    apply editHost_present; assumption.
  - left. split; [|reflexivity]. apply editHost_absent.
    apply find_none_all, G.
Qed.

Lemma edited_collection_wf :
  forall f pre h post opts,
  read f = pre ++ h :: post -> fields_ok opts = true ->
  Forall wf_record (pre ++ apply_fields h opts :: post).
Proof.
  intros f pre h post opts E F. pose proof (read_wf f) as W.
  rewrite E in W. apply (wf_replace pre h); [exact W|].
  apply apply_fields_wf; [apply (wf_middle pre h post W) | exact F].
Qed.

(** Two objects with the same keys in the same order, each once, and the
    same value at every key, are the same object. *)
Lemma obj_ext :
  forall o1 o2, keys o1 = keys o2 -> NoDup (keys o1) ->
  (forall k, obj_get o1 k = obj_get o2 k) -> o1 = o2.
Proof.
  induction o1 as [|[k v] o1 IH]; intros [|[k2 v2] o2] K N G;
    try discriminate K; [reflexivity|].
  simpl in K. injection K as <- K. simpl in N.
  apply NoDup_cons_iff in N as [Nk N].
  pose proof (G k) as Gk. simpl in Gk. rewrite streq_refl in Gk.
  injection Gk as <-. f_equal. apply IH; [exact K | exact N|].
  intros k'. destruct (streq k k') eqn:E.
  - apply streq_eq in E. subst k'.
    assert (H1 : obj_has o1 k = false).
    { destruct (obj_has o1 k) eqn:H; [|reflexivity].
      apply obj_has_keys in H. contradiction. }
    assert (H2 : obj_has o2 k = false).
    { destruct (obj_has o2 k) eqn:H; [|reflexivity].
      apply obj_has_keys in H. rewrite <- K in H. contradiction. }
    unfold obj_has in H1, H2.
    destruct (obj_get o1 k); [discriminate|].
    destruct (obj_get o2 k); [discriminate | reflexivity].
  - specialize (G k'). simpl in G. rewrite E in G. exact G.
Qed.

Lemma field_key_cases :
  forall k, (exists fl, k = field_key fl) \/ (forall fl, k <> field_key fl).
Proof.
  intros k.
  destruct (streq k K_HostName) eqn:E1;
    [left; exists F_host; apply streq_eq, E1|].
  destruct (streq k K_User) eqn:E2;
    [left; exists F_user; apply streq_eq, E2|].
  destruct (streq k K_Port) eqn:E3;
    [left; exists F_port; apply streq_eq, E3|].
  destruct (streq k K_IdentityFile) eqn:E4;
    [left; exists F_identity; apply streq_eq, E4|].
  right. intros []; apply streq_neq; assumption.
Qed.

Lemma obj_get_stored_fixed :
  forall h k, stored h = h ->
  option_map toWellFormed (obj_get h k) = obj_get h k.
Proof. intros h k S. rewrite <- obj_get_stored, S. reflexivity. Qed.

(** The same edit on the edited record as the file holds it gives the
    edited record: the supplied values replace what the file made of
    them, and everything else came from the file. *)
Lemma apply_fields_again :
  forall h opts, stored h = h -> NoDup (keys (apply_fields h opts)) ->
  apply_fields (stored (apply_fields h opts)) opts = apply_fields h opts.
Proof.
  intros h opts S N.
  destruct (apply_fields_partial_update h opts) as (G1 & O1 & K1).
  set (h' := apply_fields h opts) in *.
  destruct (apply_fields_partial_update (stored h') opts) as (G2 & O2 & K2).
  assert (C : forall fl, truthy (supplied fl opts)
                         && negb (obj_has (stored h') (field_key fl))
                         = false).
  { intros fl. destruct (truthy (supplied fl opts)) eqn:T; [|reflexivity].
    rewrite obj_has_stored. unfold obj_has. rewrite G1, T.
    destruct (supplied fl opts); [reflexivity | discriminate T]. }
  assert (Cr : created (stored h') opts = []).
  { unfold created, all_fields. cbn [filter].
    rewrite (C F_host), (C F_user), (C F_port), (C F_identity).
    reflexivity. }
  rewrite Cr, keys_stored in K2. simpl in K2. rewrite app_nil_r in K2.
  apply obj_ext.
  - exact K2.
  - rewrite K2. exact N.
  - intros k. destruct (field_key_cases k) as [[fl ->]|Hk].
    + rewrite G2, G1. destruct (truthy (supplied fl opts)) eqn:T;
        [reflexivity|].
      rewrite obj_get_stored, G1, T. apply obj_get_stored_fixed, S.
    + rewrite O2, obj_get_stored, O1 by exact Hk.
      apply obj_get_stored_fixed, S.
Qed.

(** X12.  [edit] is idempotent: with clean field values, the same edit
    applied a second time returns the same outcome and leaves the file
    system exactly as the first left it. *)
Theorem editHost_idempotent :
  forall name opts f, fields_ok opts = true ->
  editHost name opts (snd (editHost name opts f)) = editHost name opts f.
Proof.
  intros name opts f F.
  destruct (editHost_cases name opts f)
    as [[E _] | (pre & h & post & R & Hh & Hp & E)]; rewrite E; simpl snd.
  - exact E.
  - pose proof (edited_collection_wf f pre h post opts R F) as W.
    apply wf_middle in W.
    destruct (read_parts_stored f pre h post R) as (_ & S & _).
    assert (R1 : read (write (pre ++ apply_fields h opts :: post) f)
                 = pre ++ stored (apply_fields h opts) :: post).
    { apply (read_write_replaced f f pre h); assumption. }
    rewrite (editHost_present name opts _ pre
               (stored (apply_fields h opts)) post R1).
    + rewrite apply_fields_again; [reflexivity | exact S|].
      apply wf_keys_NoDup, W.
    + rewrite named_stored_edit by exact S. exact Hh.
    + exact Hp.
Qed.

Lemma editHost_idempotent_witness :
  editHost (js "a") port_3333 (snd (editHost (js "a") port_3333 sample_fs))
  = editHost (js "a") port_3333 sample_fs.
Proof.
  apply (editHost_idempotent (js "a") port_3333 sample_fs). reflexivity.
Defined.

(** X13.  [edit] never renames, adds or drops a record: with clean field
    values, the names [listHosts] gives after the edit are the names it
    gave before, in the same order, whether or not the name was found. *)
Theorem editHost_keeps_names :
  forall name opts f, fields_ok opts = true ->
  listHosts (snd (editHost name opts f)) = listHosts f.
Proof.
  intros name opts f F.
  destruct (editHost_cases name opts f)
    as [[E _] | (pre & h & post & R & Hh & Hp & E)]; rewrite E; simpl snd.
  - reflexivity.
  - pose proof (edited_collection_wf f pre h post opts R F) as W.
    apply wf_middle in W.
    destruct (read_parts_stored f pre h post R) as (_ & S & _).
    unfold listHosts.
    rewrite (read_write_replaced f f pre h _ post R W).
    rewrite R, !map_app. simpl. rewrite obj_get_stored.
    destruct (apply_fields_partial_update h opts) as (_ & G & _).
    rewrite G by (intros fl; apply not_eq_sym, field_key_plain).
    rewrite obj_get_stored_fixed by exact S. reflexivity.
Qed.

Lemma editHost_keeps_names_witness :
  listHosts (snd (editHost (js "b") port_3333 sample_fs))
  = [Some (js "a"); Some (js "b")].
Proof.
  rewrite (editHost_keeps_names (js "b") port_3333 sample_fs eq_refl).
  reflexivity.
Defined.

Lemma read_write_read :
  forall f g, read (write (read f) g) = read f.
Proof.
  intros f g. apply (read_write_part _ f); [apply read_wf | auto].
Qed.

(** What is written of a collection that was read is its text. *)
Lemma config_write_read :
  forall f g, config (write (read f) g) = Some (stringify (read f)).
Proof.
  intros f g. rewrite config_write.
  rewrite toWellFormed_stringify by apply read_wf.
  rewrite (map_stored_fixed _ (read_stored f)). reflexivity.
Qed.

(** X14.  An [edit] that supplies no truthy recognized field changes no
    record: the collection read afterwards is the collection read before.
    When the name is found the file is still rewritten, as the
    serialization of that collection. *)
Theorem editHost_without_fields :
  forall name opts f,
  (forall fl, truthy (supplied fl opts) = false) ->
  read (snd (editHost name opts f)) = read f
  /\ (getHost name f <> None ->
      config (snd (editHost name opts f)) = Some (stringify (read f))).
Proof.
  intros name opts f H.
  destruct (editHost_cases name opts f)
    as [[E G] | (pre & h & post & R & Hh & Hp & E)]; rewrite E; simpl snd.
  - split; [reflexivity | congruence].
  - rewrite apply_fields_nothing by exact H. rewrite <- R.
    split; [apply read_write_read | intros _; apply config_write_read].
Qed.

Lemma editHost_without_fields_witness :
  read (snd (editHost (js "a") no_options sample_fs)) = [rec_a; rec_b].
Proof.
  rewrite <- read_sample.
  apply (editHost_without_fields (js "a") no_options sample_fs).
  intros []; reflexivity.
Defined.

Lemma removeHost_cases :
  forall name f,
  (removeHost name f = (Err (NotFoundError name), f))
  \/ (exists pre h post,
        read f = pre ++ h :: post /\ named name h = true
        /\ (forall x, In x pre -> named name x = false)
        /\ removeHost name f = (Ok tt, write (pre ++ post) f)
        /\ read (write (pre ++ post) f) = pre ++ post).
Proof.
  intros name f. destruct (getHost name f) as [h|] eqn:G.
  - right. destruct (find_some_split _ _ _ G) as (pre & post & E & Hp & Hh).
    exists pre, h, post.
    destruct (removeHost_present name f pre h post E Hh Hp) as [E1 E2].
    repeat split; auto.
  - left. unfold removeHost.
    rewrite (findIndex_absent _ _ (find_none_all _ _ G)). reflexivity.
Qed.

(** X15.  After a successful [remove], the collection is one record
    shorter and every other name looks up as before; when the names were
    all different, the removed name is no longer found.  (When they were
    not, only the first record of the name is gone.) *)
Theorem remove_then_lookup :
  forall name f f',
  removeHost name f = (Ok tt, f') ->
  List.length (read f') + 1 = List.length (read f)
  /\ (forall n, n <> name -> getHost n f' = getHost n f)
  /\ (NoDup (listHosts f) -> getHost name f' = None).
Proof.
  intros name f f' H.
  destruct (removeHost_cases name f)
    as [E | (pre & h & post & R & Hh & Hp & E & R')];
    rewrite E in H; [discriminate|].
  injection H as <-. split; [|split].
  - rewrite R', R, !length_app. simpl. lia.
  - intros n Hn. unfold getHost. rewrite R', R, !find_app_cases.
    destruct (find (named n) pre); [reflexivity|]. simpl.
    rewrite (named_exclusive name n h); auto.
  - intros N. unfold getHost. rewrite R'. apply find_absent.
    intros x Hx. destruct (named name x) eqn:Nx; [exfalso|reflexivity].
    unfold listHosts in N. rewrite R, map_app in N. simpl in N.
    apply named_name in Hh. rewrite Hh in N.
    apply NoDup_remove_2 in N. apply N. rewrite <- map_app.
    apply named_name in Nx. rewrite <- Nx.
    apply (in_map (fun y => obj_get y NAME)). exact Hx.
Qed.

Lemma remove_then_lookup_witness :
  let f' := snd (removeHost (js "a") sample_fs) in
  List.length (read f') + 1 = 2
  /\ getHost (js "b") f' = Some rec_b
  /\ getHost (js "a") f' = None.
Proof.
  assert (E : removeHost (js "a") sample_fs
              = (Ok tt, snd (removeHost (js "a") sample_fs)))
    by (vm_compute; reflexivity).
  destruct (remove_then_lookup (js "a") sample_fs _ E) as (L & O & G).
  split; [|split].
  - rewrite L, read_sample. reflexivity.
  - rewrite O by discriminate. vm_compute. reflexivity.
  - apply G. unfold listHosts. rewrite read_sample. simpl.
    constructor; [intros [X|[]]; discriminate X|].
    constructor; [intros []|constructor].
Defined.



(* ------------------------------------------------------------------ *)
(** * export and backup *)

(** X17.  In the native format (any format but [json] and [yaml]), the
    export of a file this program wrote from records in shape is the text
    of that file, byte for byte. *)
Theorem export_native_is_the_file :
  forall (JSON_stringify : list obj -> jsstring) format hs f,
  forallb in_shape hs = true ->
  streq format (js "json") = false -> streq format (js "yaml") = false ->
  config (write hs f)
  = Some (exportConfig JSON_stringify format (write hs f)).
Proof.
  intros J format hs f H Hj Hy. unfold exportConfig. rewrite Hj, Hy.
  apply forallb_in_shape in H. rewrite read_write by exact H.
  rewrite config_write, toWellFormed_stringify by exact H. reflexivity.
Qed.

Lemma export_native_is_the_file_witness :
  config (write [rec_a; rec_b] sample_fs)
  = Some (exportConfig stand_in_encode (js "text")
            (write [rec_a; rec_b] sample_fs)).
Proof.
  apply (export_native_is_the_file stand_in_encode (js "text")
           [rec_a; rec_b] sample_fs);
    vm_compute; reflexivity.
Defined.

(** X18.  What [export] writes as [json], [import] takes back: when the
    platform's decoder returns for the encoded collection the array of its
    records, importing the [json] export of one file into any other
    succeeds, counts its records, and leaves there the same collection. *)
Theorem export_json_then_import :
  forall (JSON_stringify : list obj -> jsstring)
         (JSON_parse : jsstring -> option json) f f0,
  JSON_parse (JSON_stringify (read f))
  = Some (JArr (map record_json (read f))) ->
  exists f1,
    importConfig JSON_parse (exportConfig JSON_stringify (js "json") f) f0
    = (Ok (List.length (read f)), f1)
    /\ read f1 = read f.
Proof.
  intros J P f f0 H. unfold importConfig, exportConfig.
  change (streq (js "json") (js "json")) with true. cbv iota. rewrite H.
  rewrite (import_array_ok _ _ f0 (stringify_json_records (read f))).
  rewrite length_map. eexists. split; [reflexivity|].
  apply (read_write_read f f0).
Qed.

Lemma export_json_then_import_witness :
  exists f1,
    importConfig stand_in_decode
      (exportConfig stand_in_encode (js "json") sample_fs) (mkFs false None)
    = (Ok 2, f1)
    /\ read f1 = [rec_a; rec_b].
Proof.
  destruct (export_json_then_import stand_in_encode stand_in_decode
              sample_fs (mkFs false None)) as (f1 & E & R).
  - unfold stand_in_decode, stand_in_encode.
    rewrite parse_stringify_wf by apply read_wf. reflexivity.
  - exists f1. rewrite read_sample in *. split; assumption.
Defined.

Lemma uint_digits_inj :
  forall u u', uint_digits u = uint_digits u' -> u = u'.
Proof.
  induction u; destruct u'; simpl; intros H; try discriminate;
    try reflexivity; injection H as H; f_equal; auto.
Qed.

Lemma to_decimal_inj : forall n n', to_decimal n = to_decimal n' -> n = n'.
Proof.
  intros n n' H. apply DecimalN.Unsigned.to_uint_inj, uint_digits_inj, H.
Qed.

Lemma backup_path_inj :
  forall p t t', backup_path p t = backup_path p t' -> t = t'.
Proof.
  intros p t t' H. unfold backup_path in H.
  apply app_inv_head in H. apply app_inv_head in H.
  apply to_decimal_inj, H.
Qed.

Lemma backup_path_fresh : forall p t, backup_path p t <> p.
Proof.
  intros p t H. unfold backup_path in H.
  rewrite <- (app_nil_r p) in H at 2. apply app_inv_head in H.
  discriminate H.
Qed.

(** X19.  [backup] fails, creating nothing, when the file is missing.
    Otherwise it never touches the file itself, and backups taken at
    different times do not overwrite each other: after two of them the file
    and both copies hold the file's text. *)
Theorem backup_keeps_file_and_earlier_backups :
  forall p (s : store),
  (s p = None ->
   forall t, backup t p s = (Err (js "Config file not found"), s))
  /\ (forall c t1 t2, s p = Some c -> t1 <> t2 ->
      let s1 := snd (backup t1 p s) in
      let s2 := snd (backup t2 p s1) in
      fst (backup t1 p s) = Ok (backup_path p t1)
      /\ fst (backup t2 p s1) = Ok (backup_path p t2)
      /\ s2 p = Some c
      /\ s2 (backup_path p t1) = Some c
      /\ s2 (backup_path p t2) = Some c
      /\ (forall q, q <> backup_path p t1 -> q <> backup_path p t2 ->
          s2 q = s q)).
Proof.
  intros p s. split.
  - intros H t. unfold backup. rewrite H. reflexivity.
  - intros c t1 t2 H Ht.
    assert (N1 : streq p (backup_path p t1) = false).
    { apply streq_neq, not_eq_sym, backup_path_fresh. }
    assert (N2 : streq p (backup_path p t2) = false).
    { apply streq_neq, not_eq_sym, backup_path_fresh. }
    assert (N12 : streq (backup_path p t1) (backup_path p t2) = false).
    { apply streq_neq. intros E. apply Ht, (backup_path_inj p), E. }
    assert (E1 : backup t1 p s
                 = (Ok (backup_path p t1),
                    copy_file c (backup_path p t1) s)).
    { unfold backup. rewrite H. reflexivity. }
    assert (S1 : copy_file c (backup_path p t1) s p = Some c).
    { unfold copy_file. rewrite N1. exact H. }
    assert (E2 : backup t2 p (copy_file c (backup_path p t1) s)
                 = (Ok (backup_path p t2),
                    copy_file c (backup_path p t2)
                      (copy_file c (backup_path p t1) s))).
    { unfold backup. rewrite S1. reflexivity. }
    cbv zeta. rewrite E1. simpl snd. rewrite E2. simpl snd. simpl fst.
    split; [reflexivity|]. split; [reflexivity|]. unfold copy_file.
    rewrite N1, N2, N12, !streq_refl. repeat split; auto.
    intros q Q1 Q2. apply streq_neq in Q1, Q2. rewrite Q1, Q2.
    reflexivity.
Qed.

Lemma backup_keeps_file_and_earlier_backups_witness :
  let s1 := snd (backup 1700000000000 sample_path sample_store) in
  let s2 := snd (backup 1700000000001 sample_path s1) in
  backup 5 (js "/nowhere") sample_store
  = (Err (js "Config file not found"), sample_store)
  /\ s2 sample_path = Some sample_config
  /\ s2 (js "/home/u/.ssh/config.backup.1700000000000") = Some sample_config
  /\ s2 (js "/home/u/.ssh/config.backup.1700000000001") = Some sample_config.
Proof.
  destruct (backup_keeps_file_and_earlier_backups sample_path sample_store)
    as [_ B].
  destruct (B sample_config 1700000000000%N 1700000000001%N eq_refl)
    as (_ & _ & A1 & A2 & A3 & _); [discriminate|].
  split.
  - apply (proj1 (backup_keeps_file_and_earlier_backups (js "/nowhere")
                    sample_store) eq_refl).
  - split; [exact A1|]. split; [exact A2 | exact A3].
Defined.

(* ------------------------------------------------------------------ *)
(** * The command line *)

Lemma no_dash_streq :
  forall x y, starts_with_dash x = false -> starts_with_dash y = true ->
  streq x y = false.
Proof.
  intros [|c x] [|d y] Hx Hy; try reflexivity; try discriminate.
  simpl in *. apply N.eqb_eq in Hy. subst d. rewrite Hx. reflexivity.
Qed.

Lemma no_dash_no_flag :
  forall x, starts_with_dash x = false ->
  flag_of x = None /\ streq x (js "--json") = false
  /\ streq x (js "--yaml") = false.
Proof.
  intros x H. unfold flag_of.
  rewrite !(no_dash_streq x) by (exact H || reflexivity).
  repeat split.
Qed.

Lemma flag_of_name : forall fl short, flag_of (flag_name fl short) = Some fl.
Proof. intros [] []; reflexivity. Qed.

Lemma parseArgs_from_token :
  forall t rest acc, token_ok t = true ->
  parseArgs_from (render t ++ rest) acc
  = parseArgs_from rest (apply_token acc t).
Proof.
  intros [x | fl short v | yaml | d] rest acc H; simpl render;
    simpl app; simpl apply_token.
  - simpl in H. apply negb_true_iff in H.
    destruct (no_dash_no_flag x H) as (F & J & Y).
    simpl. rewrite F, J, Y, H. reflexivity.
  - simpl. rewrite flag_of_name. reflexivity.
  - destruct yaml; reflexivity.
  - simpl in H. repeat rewrite andb_true_iff in H.
    destruct H as (((D & F) & J) & Y).
    apply negb_true_iff in J, Y. simpl.
    destruct (flag_of d); [discriminate|]. rewrite J, Y, D. reflexivity.
Qed.

Lemma parseArgs_from_tokens :
  forall toks rest acc, forallb token_ok toks = true ->
  parseArgs_from (flat_map render toks ++ rest) acc
  = parseArgs_from rest (fold_left apply_token toks acc).
Proof.
  induction toks as [|t toks IH]; intros rest acc H; [reflexivity|].
  simpl in H. apply andb_true_iff in H as [Ht H].
  simpl flat_map. rewrite <- app_assoc.
  rewrite parseArgs_from_token by exact Ht. simpl. apply IH, H.
Qed.

Lemma last_of_snoc : forall (A : Type) (l : list A) x, last_of (l ++ [x]) = Some x.
Proof. intros A l x. unfold last_of. rewrite rev_app_distr. reflexivity. Qed.

Lemma lower_set_lower :
  forall fl fl' v o,
  lower fl (set_lower fl' v o) = if field_eqb fl fl' then v else lower fl o.
Proof. intros [] [] v o; reflexivity. Qed.

Lemma upper_set_lower :
  forall fl fl' v o, upper fl (set_lower fl' v o) = upper fl o.
Proof. intros [] [] v o; reflexivity. Qed.

Lemma tokens_summary :
  forall toks acc,
  let r := fold_left apply_token toks acc in
  p_positional r = p_positional acc ++ positionals toks
  /\ (forall fl, lower fl (p_options r)
                 = match last_of (flag_values fl toks) with
                   | Some v => Some v
                   | None => lower fl (p_options acc)
                   end)
  /\ (forall fl, upper fl (p_options r) = upper fl (p_options acc))
  /\ p_format r = match last_of (formats toks) with
                  | Some v => Some v
                  | None => p_format acc
                  end.
Proof.
  intros toks acc. induction toks as [|t toks IH] using rev_ind.
  - simpl. rewrite app_nil_r. repeat split.
  - cbv zeta in *. rewrite fold_left_app. simpl fold_left.
    destruct IH as (P & L & U & F).
    set (r := fold_left apply_token toks acc) in *.
    unfold positionals, flag_values, formats in *.
    repeat split.
    + rewrite flat_map_app. simpl.
      destruct t; simpl; rewrite ?app_nil_r, ?app_assoc, P; reflexivity.
    + intros fl. rewrite flat_map_app. simpl.
      destruct t as [x | fl' short v | yaml | d]; simpl;
        rewrite ?app_nil_r; try apply L.
      rewrite lower_set_lower. destruct (field_eqb fl fl').
      * rewrite last_of_snoc. reflexivity.
      * rewrite app_nil_r. apply L.
    + intros fl. destruct t; simpl; try apply U.
      rewrite upper_set_lower. apply U.
    + rewrite flat_map_app. simpl.
      destruct t as [x | fl' short v | yaml | d]; simpl;
        rewrite ?app_nil_r; try exact F.
      rewrite last_of_snoc. reflexivity.
Qed.

(** X20.  [parseArgs] reads a command line token by token.  For bare
    words, flags with a value (any string, also one that starts with a
    dash), [--json]/[--yaml] and other dash words, in any order: the
    positional arguments are the bare words in their order; each field has
    the value of the last flag for it, or is undefined; the upper-case
    spellings are never set; the format is the last one asked for; other
    dash words are dropped. *)
Theorem parseArgs_reads_tokens :
  forall toks, forallb token_ok toks = true ->
  let r := parseArgs (flat_map render toks) in
  p_positional r = positionals toks
  /\ (forall fl, lower fl (p_options r) = last_of (flag_values fl toks))
  /\ (forall fl, upper fl (p_options r) = None)
  /\ p_format r = last_of (formats toks).
Proof.
  intros toks H. cbv zeta. unfold parseArgs.
  rewrite <- (app_nil_r (flat_map render toks)).
  rewrite parseArgs_from_tokens by exact H. simpl parseArgs_from.
  destruct (tokens_summary toks (mkParsed no_options None []))
    as (P & L & U & F).
  split; [exact P|]. split; [|split].
  - intros fl. rewrite L.
    destruct (last_of (flag_values fl toks)); [reflexivity|].
    destruct fl; reflexivity.
  - intros fl. rewrite U. destruct fl; reflexivity.
  - rewrite F. destruct (last_of (formats toks)); reflexivity.
Qed.

Lemma parseArgs_reads_tokens_witness :
  let r := parseArgs [js "-p"; js "-1"; js "prod"; js "--verbose";
                      js "--host"; js "example.com"; js "-p"; js "2222";
                      js "extra"] in
  p_positional r = [js "prod"; js "extra"]
  /\ lower F_port (p_options r) = Some (js "2222")
  /\ lower F_host (p_options r) = Some (js "example.com")
  /\ lower F_user (p_options r) = None.
Proof.
  destruct (parseArgs_reads_tokens
              [T_flag F_port true (js "-1"); T_pos (js "prod");
               T_other (js "--verbose");
               T_flag F_host false (js "example.com");
               T_flag F_port true (js "2222"); T_pos (js "extra")]
              eq_refl) as (P & L & _).
  split; [exact P|]. split; [exact (L F_port)|].
  split; [exact (L F_host) | exact (L F_user)].
Defined.

(** X21.  A value flag that ends the command line leaves its field
    undefined, dropping a value an earlier occurrence gave it; everything
    else is read as without it. *)
Theorem parseArgs_trailing_flag :
  forall toks fl short, forallb token_ok toks = true ->
  let r := parseArgs (flat_map render toks ++ [flag_name fl short]) in
  lower fl (p_options r) = None
  /\ p_positional r = positionals toks
  /\ (forall fl', fl' <> fl ->
      lower fl' (p_options r) = last_of (flag_values fl' toks)).
Proof.
  intros toks fl short H. cbv zeta. unfold parseArgs.
  rewrite parseArgs_from_tokens by exact H.
  simpl parseArgs_from. rewrite flag_of_name.
  destruct (tokens_summary toks (mkParsed no_options None []))
    as (P & L & _).
  unfold set_option. simpl p_options. simpl p_positional.
  split; [|split].
  - rewrite lower_set_lower. destruct fl; reflexivity.
  - exact P.
  - intros fl' N. rewrite lower_set_lower.
    replace (field_eqb fl' fl) with false
      by (destruct fl', fl; try reflexivity; congruence).
    rewrite L. destruct (last_of (flag_values fl' toks)); [reflexivity|].
    destruct fl'; reflexivity.
Qed.

Lemma parseArgs_trailing_flag_witness :
  let r := parseArgs [js "prod"; js "-p"; js "22"; js "-p"] in
  lower F_port (p_options r) = None
  /\ p_positional r = [js "prod"].
Proof.
  destruct (parseArgs_trailing_flag
              [T_pos (js "prod"); T_flag F_port true (js "22")]
              F_port true eq_refl) as (L & P & _).
  split; [exact L | exact P].
Defined.

Lemma addHost_outcomes :
  forall name opts f,
  addHost name opts f = (Err (DuplicateError name), f)
  \/ exists h text, addHost name opts f = (Ok h, mkFs true (Some text)).
Proof.
  intros name opts f. unfold addHost.
  destruct (find (named name) (read f)); [left; reflexivity|].
  right. eexists. eexists. reflexivity.
Qed.

Lemma editHost_outcomes :
  forall name opts f,
  editHost name opts f = (Err (NotFoundError name), f)
  \/ exists h text, editHost name opts f = (Ok h, mkFs true (Some text)).
Proof.
  intros name opts f. unfold editHost.
  destruct (find (named name) (read f)); [|left; reflexivity].
  right. eexists. eexists. reflexivity.
Qed.

Lemma removeHost_outcomes :
  forall name f,
  removeHost name f = (Err (NotFoundError name), f)
  \/ exists text, removeHost name f = (Ok tt, mkFs true (Some text)).
Proof.
  intros name f. unfold removeHost.
  destruct (findIndex (named name) (read f)); [|left; reflexivity].
  right. eexists. reflexivity.
Qed.

Lemma copyHost_outcomes :
  forall from to f,
  (exists msg, copyHost from to f = (Err msg, f))
  \/ exists h text, copyHost from to f = (Ok h, mkFs true (Some text)).
Proof.
  intros from to f. unfold copyHost.
  destruct (find (named from) (read f)); [|left; eexists; reflexivity].
  destruct (find (named to) (read f)); [left; eexists; reflexivity|].
  right. eexists. eexists. reflexivity.
Qed.

(** X22.  A mutating command that ends with status 1 (no name, an empty
    name, or a refusal by the operation) has not touched the file system;
    one that ends with status 0 has written the file. *)
Theorem command_status :
  forall cmd, In cmd [cmd_add; cmd_edit; cmd_remove; cmd_copy] ->
  forall args f,
  (fst (cmd args f) = 1%N /\ snd (cmd args f) = f)
  \/ (fst (cmd args f) = 0%N
      /\ exists text, snd (cmd args f) = mkFs true (Some text)).
Proof.
  intros cmd Hin args f.
  destruct Hin as [<-|[<-|[<-|[<-|[]]]]].
  - unfold cmd_add.
    destruct (given (nth_error (p_positional (parseArgs args)) 0))
      as [name|]; [|left; split; reflexivity].
    destruct (addHost_outcomes name (p_options (parseArgs args)) f)
      as [E | (h & text & E)]; rewrite E; simpl; eauto.
  - unfold cmd_edit.
    destruct (given (nth_error (p_positional (parseArgs args)) 0))
      as [name|]; [|left; split; reflexivity].
    destruct (editHost_outcomes name (p_options (parseArgs args)) f)
      as [E | (h & text & E)]; rewrite E; simpl; eauto.
  - unfold cmd_remove.
    destruct (given (nth_error (p_positional (parseArgs args)) 0))
      as [name|]; [|left; split; reflexivity].
    destruct (removeHost_outcomes name f) as [E | (text & E)];
      rewrite E; simpl; eauto.
  - unfold cmd_copy.
    destruct (given (nth_error (p_positional (parseArgs args)) 0))
      as [from|]; [|left; split; reflexivity].
    destruct (given (nth_error (p_positional (parseArgs args)) 1))
      as [to|]; [|left; split; reflexivity].
    destruct (copyHost_outcomes from to f) as [(msg & E) | (h & text & E)];
      rewrite E; simpl; eauto.
Qed.

Lemma command_status_witness :
  cmd_add [js "-h"; js "example.com"] sample_fs = (1%N, sample_fs)
  /\ cmd_add [js "a"; js "-h"; js "example.com"] sample_fs = (1%N, sample_fs)
  /\ fst (cmd_add [js "c"; js "-h"; js "example.com"] sample_fs) = 0%N.
Proof.
  split; [vm_compute; reflexivity|]. split; [vm_compute; reflexivity|].
  destruct (command_status cmd_add (or_introl eq_refl)
              [js "c"; js "-h"; js "example.com"] sample_fs)
    as [[E _] | [E _]]; [|exact E].
  vm_compute in E. discriminate E.
Defined.

Lemma parseArgs_reads_tokens_parts :
  forall toks, forallb token_ok toks = true ->
  p_positional (parseArgs (flat_map render toks)) = positionals toks
  /\ (forall fl, lower fl (p_options (parseArgs (flat_map render toks)))
                 = last_of (flag_values fl toks))
  /\ (forall fl, upper fl (p_options (parseArgs (flat_map render toks)))
                 = None).
Proof.
  intros toks H. unfold parseArgs.
  rewrite <- (app_nil_r (flat_map render toks)).
  rewrite parseArgs_from_tokens by exact H. simpl parseArgs_from.
  destruct (tokens_summary toks (mkParsed no_options None []))
    as (P & L & U & _).
  split; [exact P|]. split.
  - intros fl. rewrite L.
    destruct (last_of (flag_values fl toks)); [reflexivity|].
    destruct fl; reflexivity.
  - intros fl. rewrite U. destruct fl; reflexivity.
Qed.

Lemma supplied_lower_upper :
  forall fl o, supplied fl o = or_else (lower fl o) (upper fl o).
Proof. intros [] o; reflexivity. Qed.

Lemma given_nonempty :
  forall s, nonempty s = true -> given (Some s) = Some s.
Proof. intros s H. simpl. rewrite H. reflexivity. Qed.

(** X23.  [sshconf add] from the command line: with a non-empty first
    bare word that names no record yet, the command ends with status 0 and
    appends the record made of that name and, in the order HostName, User,
    Port, IdentityFile, for each flag the last value given to it when that
    value is not empty -- wherever the name and the flags stand on the
    line. *)
Theorem cmd_add_from_tokens :
  forall toks name more f,
  forallb token_ok toks = true ->
  positionals toks = name :: more -> nonempty name = true ->
  getHost name f = None ->
  cmd_add (flat_map render toks) f
  = (0%N, write (read f ++ [record_of_tokens name toks]) f).
Proof.
  intros toks name more f H P N G.
  destruct (parseArgs_reads_tokens_parts toks H) as (Pp & L & U).
  unfold cmd_add. rewrite Pp, P. simpl nth_error.
  rewrite given_nonempty by exact N.
  rewrite addHost_success by exact G. rewrite apply_fields_new.
  unfold status.
  assert (E : new_record name (p_options (parseArgs (flat_map render toks)))
              = record_of_tokens name toks).
  { unfold new_record, record_of_tokens. f_equal.
    apply flat_map_ext. intros fl.
    rewrite supplied_lower_upper, L, U. unfold or_else.
    destruct (last_of (flag_values fl toks)) as [[|c v]|]; reflexivity. }
  rewrite E. reflexivity.
Qed.

Lemma cmd_add_from_tokens_witness :
  cmd_add [js "-u"; js "deploy"; js "prod"; js "-h"; js "example.com";
           js "-p"; js "2222"; js "-u"; js "root"] sample_fs
  = (0%N, write [rec_a; rec_b;
                 [(NAME, js "prod"); (K_HostName, js "example.com");
                  (K_User, js "root"); (K_Port, js "2222")]] sample_fs).
Proof.
  pose proof (cmd_add_from_tokens
                [T_flag F_user true (js "deploy"); T_pos (js "prod");
                 T_flag F_host true (js "example.com");
                 T_flag F_port true (js "2222");
                 T_flag F_user true (js "root")]
                (js "prod") [] sample_fs eq_refl eq_refl eq_refl eq_refl)
    as E.
  rewrite read_sample in E. exact E.
Defined.

(* ------------------------------------------------------------------ *)
(** * No file, and distinct names *)

(** X24.  A missing file is an empty collection: nothing is listed or
    found; [edit], [remove] and [copy] report that the host is not found
    and create no file; [add] creates the file with the one new record. *)
Theorem missing_file_is_empty :
  forall f name to opts, config f = None ->
  listHosts f = [] /\ getHost name f = None
  /\ editHost name opts f = (Err (NotFoundError name), f)
  /\ removeHost name f = (Err (NotFoundError name), f)
  /\ copyHost name to f = (Err (NotFoundError name), f)
  /\ addHost name opts f
     = (Ok (new_record name opts), write [new_record name opts] f).
Proof.
  intros f name to opts H.
  assert (R : read f = [])
    by (unfold read, readFileSync; rewrite H; reflexivity).
  unfold listHosts, getHost, editHost, removeHost, copyHost.
  rewrite R. simpl. repeat split.
  rewrite addHost_success by (unfold getHost; rewrite R; reflexivity).
  rewrite R, apply_fields_new. reflexivity.
Qed.

Lemma missing_file_is_empty_witness :
  removeHost (js "a") (mkFs false None)
  = (Err (NotFoundError (js "a")), mkFs false None)
  /\ read (snd (addHost (js "a") port_3333 (mkFs false None)))
     = [[(NAME, js "a"); (K_Port, js "3333")]].
Proof.
  destruct (missing_file_is_empty (mkFs false None) (js "a") (js "b")
              port_3333 eq_refl) as (_ & _ & _ & Rm & _ & Ad).
  split; [exact Rm|]. rewrite Ad. vm_compute. reflexivity.
Defined.

(** X25.  A successful [remove] takes one name out of the list of names,
    the first occurrence of the name removed, and keeps the others in their
    order; names that were distinct stay distinct. *)
Theorem removeHost_names :
  forall name f f',
  removeHost name f = (Ok tt, f') ->
  (exists a b,
     listHosts f = a ++ Some name :: b /\ listHosts f' = a ++ b
     /\ ~ In (Some name) a)
  /\ (NoDup (listHosts f) -> NoDup (listHosts f')).
Proof.
  intros name f f' H.
  destruct (removeHost_cases name f)
    as [E | (pre & h & post & R & Hh & Hp & E & R')];
    rewrite E in H; [discriminate|].
  injection H as <-. unfold listHosts. rewrite R', R, !map_app. simpl.
  apply named_name in Hh. rewrite Hh. split.
  - exists (map (fun x => obj_get x NAME) pre),
           (map (fun x => obj_get x NAME) post).
    repeat split. intros Hin. apply in_map_iff in Hin as (x & Ex & Hx).
    apply named_name in Ex. rewrite (Hp x Hx) in Ex. discriminate.
  - apply NoDup_remove_1.
Qed.

Lemma removeHost_names_witness :
  listHosts (snd (removeHost (js "a") sample_fs)) = [Some (js "b")]
  /\ NoDup (listHosts (snd (removeHost (js "a") sample_fs))).
Proof.
  assert (E : removeHost (js "a") sample_fs
              = (Ok tt, snd (removeHost (js "a") sample_fs)))
    by (vm_compute; reflexivity).
  destruct (removeHost_names (js "a") sample_fs _ E) as (_ & N).
  split; [vm_compute; reflexivity|]. apply N.
  unfold listHosts. rewrite read_sample. simpl.
  constructor; [intros [H|[]]; discriminate H|].
  constructor; [intros []|constructor].
Defined.
